(** * bwtc: a shallow embedding of the block compressor's bookkeeping code

    The development follows the C++ sources of bwtc:
    - [coders.cc]: the packed-integer codec ([PackInteger], [UnpackInteger])
      and the coding of a byte bit by bit ([EncodeByte], [DecodeByte]);
    - [HuffmanCoders.cpp], [WaveletCoders.cpp]: the packed-integer reader
      and writer, the block header's section lengths, the shape and the
      codes of the symbols, the gamma-coded run lengths and the block
      trailer;
    - [preprocessors/preprocessor.cc]: the frequency table, the statistics
      of a block, the common-pair preprocessor and the run frequencies of
      the long-run preprocessor.

    Unsigned machine integers are integers of [Z] whose wrap-around is
    written out; C arrays are lists read with [!!!] and updated with
    [<[ _ := _ ]>]. *)

From Stdlib Require Import ZArith Lia List Bool.
From stdpp Require Import base list list_numbers sorting gmap.
Import ListNotations.

(** ** Machine words *)

Module Word.
Local Open Scope Z_scope.

(** The value kept by an unsigned integer of [w] bits. *)
Definition wrap (w : Z) (z : Z) : Z := z mod 2 ^ w.

Definition wrap8 : Z -> Z := wrap 8.
Definition wrap16 : Z -> Z := wrap 16.
Definition wrap32 : Z -> Z := wrap 32.
Definition wrap64 : Z -> Z := wrap 64.

(** [x << s] on [uint64], for a shift count [0 <= s < 64]. *)
Definition shl64 (x s : Z) : Z := wrap64 (Z.shiftl x s).

Lemma wrap_small w z : 0 <= z < 2 ^ w -> wrap w z = z.
Proof. intros H. unfold wrap. now apply Z.mod_small. Qed.

Lemma wrap_range w z : 0 <= w -> 0 <= wrap w z < 2 ^ w.
Proof. intros H. unfold wrap. apply Z.mod_pos_bound. now apply Z.pow_pos_nonneg. Qed.

Lemma land_disjoint_shift a b k :
  0 <= k -> 0 <= a < 2 ^ k -> Z.land a (b * 2 ^ k) = 0.
Proof.
  intros Hk Ha. apply Z.bits_inj'. intros n Hn.
  rewrite Z.land_spec, Z.bits_0.
  destruct (Z.lt_ge_cases n k) as [Hlt | Hge].
  - now rewrite Z.mul_pow2_bits_low, andb_false_r.
  - assert (Z.testbit a n = false) as ->; [|reflexivity].
    destruct (Z.bounded_iff_bits_nonneg' k a Hk (proj1 Ha)) as [Hb _].
    now apply Hb.
Qed.

(** Or-ing bits above the ones already set is an addition. *)
Lemma lor_shift_add a b k :
  0 <= k -> 0 <= a < 2 ^ k -> Z.lor a (b * 2 ^ k) = a + b * 2 ^ k.
Proof.
  intros Hk Ha. symmetry. apply Z.add_nocarry_lor.
  now apply land_disjoint_shift.
Qed.

Lemma lor_ge_l a b : 0 <= a -> 0 <= b -> a <= Z.lor a b.
Proof.
  intros Ha Hb. pose proof (Z.add_lor_land a b) as H.
  assert (Z.land a b <= b); [|lia].
  assert (0 <= Z.land a b) by (apply Z.land_nonneg; auto).
  pose proof (Z.add_lor_land (Z.land a b) (Z.land (Z.lnot a) b)) as H'.
  assert (Z.lor (Z.land a b) (Z.land (Z.lnot a) b) = b) as Hor.
  { apply Z.bits_inj'. intros n Hn.
    rewrite Z.lor_spec, !Z.land_spec, Z.lnot_spec by assumption.
    destruct (Z.testbit a n), (Z.testbit b n); reflexivity. }
  assert (Z.land (Z.land a b) (Z.land (Z.lnot a) b) = 0) as Hand.
  { apply Z.bits_inj'. intros n Hn.
    rewrite !Z.land_spec, Z.lnot_spec, Z.bits_0 by assumption.
    destruct (Z.testbit a n), (Z.testbit b n); reflexivity. }
  rewrite Hor, Hand in H'.
  assert (0 <= Z.land (Z.lnot a) b) by (apply Z.land_nonneg; auto).
  lia.
Qed.

Lemma lor_ge_r a b : 0 <= a -> 0 <= b -> b <= Z.lor a b.
Proof. intros. rewrite Z.lor_comm. now apply lor_ge_l. Qed.

Lemma land_0x7F x : Z.land x 0x7F = x mod 128.
Proof. change 0x7F with (Z.ones 7). now rewrite Z.land_ones. Qed.

Lemma land_0xFF x : Z.land x 0xFF = x mod 256.
Proof. change 0xFF with (Z.ones 8). now rewrite Z.land_ones. Qed.

(** Bit 7, the continuation flag of a packed byte. *)
Lemma land_0x80 x : Z.land x 0x80 = 128 * ((x / 128) mod 2).
Proof.
  change 0x80 with (2 ^ 7).
  change ((x / 2 ^ 7) mod 2) with ((x / 2 ^ 7) mod 2 ^ 1).
  apply Z.bits_inj'. intros n Hn.
  rewrite Z.land_spec, Z.pow2_bits_eqb by lia.
  rewrite (Z.mul_comm (2 ^ 7)), Z.mul_pow2_bits by lia.
  destruct (Z.eqb_spec 7 n) as [<- | Hne].
  - rewrite andb_true_r, Z.sub_diag, Z.testbit_mod_pow2 by lia.
    rewrite Z.div_pow2_bits by lia. reflexivity.
  - rewrite andb_false_r. symmetry.
    destruct (Z.lt_ge_cases n 7).
    + apply Z.testbit_neg_r. lia.
    + rewrite Z.testbit_mod_pow2 by lia.
      destruct (Z.ltb_spec (n - 7) 1); [lia | reflexivity].
Qed.

End Word.

(** ** Packed integers ([coders.cc]) *)

Module Coders.
Import Word.
Local Open Scope Z_scope.

Definition kEightBit : Z := 0x80.

(** [PackInteger]'s loop [for(i = 0; integer; ++i)]. The result is the packed
    value with [bytes_needed]; [None] is the failure of [assert(i < 8)],
    which the iteration with [i = 8] meets. [steps] bounds the recursion:
    nine iterations reach the assertion. *)
Fixpoint PackInteger_loop (steps : nat) (i integer result : Z) : option (Z * Z) :=
  if integer =? 0 then Some (result, i)
  else
    match steps with
    | O => None
    | S steps' =>
        if negb (i <? 8) then None
        else
          let result := Z.lor result (shl64 (Z.land integer 0x7F) (i * 8)) in
          let integer := Z.shiftr integer 7 in
          let result :=
            if integer =? 0 then result
            else Z.lor result (shl64 kEightBit (i * 8)) in
          PackInteger_loop steps' (i + 1) integer result
    end.

Definition PackInteger (integer : Z) : option (Z * Z) :=
  PackInteger_loop 9 0 integer 0.

(** [UnpackInteger]'s [do ... while(bits_left)]. [None] is the failure of
    [assert(bits_handled <= 56)], met by a ninth iteration. *)
Fixpoint UnpackInteger_loop (steps : nat) (packed_integer result bits_handled : Z)
  : option Z :=
  match steps with
  | O => None
  | S steps' =>
      let bits_left := negb (Z.land packed_integer 0x80 =? 0) in
      let result := Z.lor result (shl64 (Z.land packed_integer 0x7F) bits_handled) in
      let packed_integer := Z.shiftr packed_integer 8 in
      let bits_handled := bits_handled + 7 in
      if negb (bits_handled <=? 56) then None
      else if bits_left
           then UnpackInteger_loop steps' packed_integer result bits_handled
           else Some result
  end.

Definition UnpackInteger (packed_integer : Z) : option Z :=
  UnpackInteger_loop 9 packed_integer 0 0.

(** The examples of [coders.h]. *)
Example PackInteger_0xF0 : PackInteger 0xF0 = Some (0x01F0, 2).
Proof. reflexivity. Qed.
Example PackInteger_0x2 : PackInteger 0x2 = Some (0x2, 1).
Proof. reflexivity. Qed.
Example PackInteger_0x142A : PackInteger 0x142A = Some (0x28AA, 2).
Proof. reflexivity. Qed.
Example UnpackInteger_0x28AA : UnpackInteger 0x28AA = Some 0x142A.
Proof. reflexivity. Qed.

(** The packed value as a sum: seven payload bits a byte, bit 7 set on every
    byte but the last. [k] counts the bytes available. *)
Fixpoint packed (k : nat) (n : Z) : Z :=
  match k with
  | O => 0
  | S k' => if n <? 128 then n else (n mod 128 + 128) + 256 * packed k' (n / 128)
  end.

Lemma packed_range k n : 0 <= n < 2 ^ (7 * Z.of_nat k) -> 0 <= packed k n < 2 ^ (8 * Z.of_nat k).
Proof.
  revert n. induction k as [|k IH]; intros n Hn.
  - simpl in *. lia.
  - cbn [packed]. replace (8 * Z.of_nat (S k)) with (8 + 8 * Z.of_nat k) by lia.
    replace (7 * Z.of_nat (S k)) with (7 + 7 * Z.of_nat k) in Hn by lia.
    rewrite Z.pow_add_r in * by lia.
    destruct (Z.ltb_spec n 128).
    + assert (0 < 2 ^ (8 * Z.of_nat k)) by (apply Z.pow_pos_nonneg; lia). nia.
    + specialize (IH (n / 128)).
      assert (0 <= n / 128 < 2 ^ (7 * Z.of_nat k)) as Hq.
      { split; [apply Z.div_pos; lia|]. apply Z.div_lt_upper_bound; lia. }
      specialize (IH Hq). pose proof (Z.mod_pos_bound n 128 ltac:(lia)). nia.
Qed.

Lemma shl64_small x s :
  0 <= s -> 0 <= x -> x * 2 ^ s < 2 ^ 64 -> shl64 x s = x * 2 ^ s.
Proof.
  intros Hs Hx Hlt. unfold shl64, wrap64. rewrite Z.shiftl_mul_pow2 by assumption.
  apply wrap_small. split; [|assumption].
  apply Z.mul_nonneg_nonneg; [assumption|]. apply Z.pow_nonneg. lia.
Qed.

Lemma pow2_8_le_64 i s : 0 <= i -> i + s <= 8 -> 0 <= s -> 2 ^ (8 * i) * 2 ^ (8 * s) <= 2 ^ 64.
Proof.
  intros Hi His Hs. rewrite <- Z.pow_add_r by lia.
  apply Z.pow_le_mono_r; lia.
Qed.

(** The loop of [PackInteger] adds the packed value above the bytes already
    written. *)
Lemma PackInteger_loop_packed k steps i n r :
  (k <= steps)%nat -> 0 <= i -> i + Z.of_nat k <= 8 ->
  0 <= n < 2 ^ (7 * Z.of_nat k) -> 0 <= r < 2 ^ (8 * i) ->
  exists c, PackInteger_loop steps i n r = Some (r + 2 ^ (8 * i) * packed k n, c).
Proof.
  revert steps i n r. induction k as [|k IH]; intros steps i n r Hsteps Hi Hik Hn Hr.
  - assert (n = 0) as -> by (simpl in Hn; lia).
    exists i. destruct steps; simpl; f_equal; f_equal; lia.
  - destruct steps as [|steps]; [lia|].
    cbn [PackInteger_loop packed].
    destruct (Z.eqb_spec n 0) as [-> | Hn0].
    { exists i. simpl. f_equal. f_equal. lia. }
    destruct (Z.ltb_spec i 8) as [Hi8 | ?]; [|lia]. cbn [negb].
    rewrite land_0x7F, Z.shiftr_div_pow2 by lia. change (2 ^ 7) with 128.
    pose proof (Z.mod_pos_bound n 128 ltac:(lia)) as Hmod.
    assert (0 < 2 ^ (8 * i)) as Hpos by (apply Z.pow_pos_nonneg; lia).
    pose proof (pow2_8_le_64 i 1 Hi ltac:(lia) ltac:(lia)) as H64.
    change (2 ^ (8 * 1)) with 256 in H64.
    replace (i * 8) with (8 * i) by lia.
    rewrite shl64_small by nia.
    rewrite lor_shift_add by lia.
    assert (0 <= n / 128 < 2 ^ (7 * Z.of_nat k)) as Hq.
    { split; [apply Z.div_pos; lia|]. apply Z.div_lt_upper_bound; [lia|].
      replace (7 * Z.of_nat (S k)) with (7 + 7 * Z.of_nat k) in Hn by lia.
      rewrite Z.pow_add_r in Hn by lia. lia. }
    replace (8 * (i + 1)) with (8 * i + 8) in * by lia.
    destruct (Z.eqb_spec (n / 128) 0) as [Hq0 | Hq0].
    + assert (n < 128) by (apply Z.div_small_iff in Hq0; lia).
      destruct (Z.ltb_spec n 128); [|lia].
      rewrite Z.mod_small by lia.
      destruct (IH steps (i + 1) (n / 128) (r + n * 2 ^ (8 * i))) as [c Hc]; try lia.
      { replace (8 * (i + 1)) with (8 * i + 8) by lia.
        rewrite Z.pow_add_r by lia. nia. }
      exists c. rewrite Hc. f_equal. f_equal. rewrite Hq0.
      assert (packed k 0 = 0) as -> by (destruct k; reflexivity). lia.
    + assert (128 <= n).
      { destruct (Z.lt_ge_cases n 128); [|assumption].
        exfalso. apply Hq0. apply Z.div_small. lia. }
      destruct (Z.ltb_spec n 128); [lia|].
      unfold kEightBit. rewrite shl64_small by nia.
      assert (Z.lor (r + n mod 128 * 2 ^ (8 * i)) (128 * 2 ^ (8 * i))
              = r + (n mod 128 + 128) * 2 ^ (8 * i)) as ->.
      { replace (r + n mod 128 * 2 ^ (8 * i)) with (r + n mod 128 * 2 ^ (8 * i) + 0) by lia.
        replace (128 * 2 ^ (8 * i)) with (1 * 2 ^ (8 * i + 7)).
        2:{ rewrite Z.pow_add_r by lia. lia. }
        rewrite lor_shift_add.
        - rewrite Z.pow_add_r by lia. lia.
        - lia.
        - rewrite Z.pow_add_r by lia. nia. }
      destruct (IH steps (i + 1) (n / 128) (r + (n mod 128 + 128) * 2 ^ (8 * i))) as [c Hc]; try lia.
      { replace (8 * (i + 1)) with (8 * i + 8) by lia.
        rewrite Z.pow_add_r by lia. nia. }
      exists c. rewrite Hc. f_equal. f_equal.
      replace (8 * (i + 1)) with (8 * i + 8) by lia.
      rewrite Z.pow_add_r by lia. lia.
Qed.

(** The loop of [UnpackInteger] reads the value back, seven bits a byte. *)
Lemma UnpackInteger_loop_packed k steps n bh acc :
  (S k <= steps)%nat -> 0 <= bh -> bh + 7 * Z.of_nat (S k) <= 56 ->
  0 <= n < 2 ^ (7 * Z.of_nat (S k)) -> 0 <= acc < 2 ^ bh ->
  UnpackInteger_loop steps (packed (S k) n) acc bh = Some (acc + n * 2 ^ bh).
Proof.
  revert steps n bh acc.
  induction k as [|k IH]; intros steps n bh acc Hsteps Hbh Hlim Hn Hacc;
    (destruct steps as [|steps]; [lia|]).
  - change (7 * Z.of_nat 1) with 7 in *. change (2 ^ 7) with 128 in Hn.
    cbn [UnpackInteger_loop packed].
    destruct (Z.ltb_spec n 128); [|lia].
    rewrite land_0x80, land_0x7F, (Z.div_small n 128), (Z.mod_small n 128) by lia.
    change (128 * (0 mod 2)) with 0. cbn [Z.eqb negb].
    destruct (Z.leb_spec (bh + 7) 56); [|lia]. cbn [negb].
    assert (2 ^ (bh + 7) <= 2 ^ 64) as H64 by (apply Z.pow_le_mono_r; lia).
    rewrite Z.pow_add_r in H64 by lia. change (2 ^ 7) with 128 in H64.
    rewrite shl64_small by nia. now rewrite lor_shift_add by lia.
  - replace (7 * Z.of_nat (S (S k))) with (7 + 7 * Z.of_nat (S k)) in * by lia.
    remember (S k) as k1 eqn:Hk1.
    cbn [UnpackInteger_loop packed].
    destruct (Z.leb_spec (bh + 7) 56); [|lia]. cbn [negb].
    assert (2 ^ (bh + 7) <= 2 ^ 64) as H64 by (apply Z.pow_le_mono_r; lia).
    rewrite Z.pow_add_r in H64 by lia. change (2 ^ 7) with 128 in H64.
    pose proof (Z.mod_pos_bound n 128 ltac:(lia)) as Hmod.
    destruct (Z.ltb_spec n 128) as [Hlt | Hge].
    + rewrite land_0x80, land_0x7F, (Z.div_small n 128), (Z.mod_small n 128) by lia.
      change (128 * (0 mod 2)) with 0. cbn [Z.eqb negb].
      rewrite shl64_small by nia. now rewrite lor_shift_add by lia.
    + assert (0 <= n / 128 < 2 ^ (7 * Z.of_nat k1)) as Hq.
      { split; [apply Z.div_pos; lia|]. apply Z.div_lt_upper_bound; [lia|].
        rewrite Z.pow_add_r in Hn by lia. lia. }
      pose proof (packed_range k1 (n / 128) Hq) as [Hp0 _].
      set (q := packed k1 (n / 128)) in *.
      rewrite land_0x80, land_0x7F.
      assert ((n mod 128 + 128 + 256 * q) / 128 = 1 + 2 * q) as ->.
      { Z.div_mod_to_equations. lia. }
      assert ((1 + 2 * q) mod 2 = 1) as ->.
      { Z.div_mod_to_equations. lia. }
      cbn [Z.mul Z.eqb negb Pos.mul].
      assert ((n mod 128 + 128 + 256 * q) mod 128 = n mod 128) as ->.
      { Z.div_mod_to_equations. lia. }
      rewrite Z.shiftr_div_pow2 by lia. change (2 ^ 8) with 256.
      assert ((n mod 128 + 128 + 256 * q) / 256 = q) as ->.
      { Z.div_mod_to_equations. lia. }
      rewrite shl64_small by nia. rewrite lor_shift_add by lia.
      subst q k1. rewrite IH; try lia.
      * f_equal. rewrite Z.pow_add_r by lia.
        pose proof (Z.div_mod n 128 ltac:(lia)). nia.
      * rewrite Z.pow_add_r by lia. nia.
Qed.

(** [PackInteger] only sets bits: its result is at least the bytes written
    before. *)
Lemma PackInteger_loop_ge steps i n r p c :
  0 <= i -> 0 <= n -> 0 <= r ->
  PackInteger_loop steps i n r = Some (p, c) -> r <= p.
Proof.
  revert i n r. induction steps as [|steps IH]; intros i n r Hi Hn Hr; cbn [PackInteger_loop].
  - destruct (n =? 0); [|discriminate]. intros [= <- _]. lia.
  - destruct (n =? 0); [intros [= <- _]; lia|].
    destruct (i <? 8); [|discriminate]. cbn [negb].
    assert (0 <= Z.land n 0x7F) by (apply Z.land_nonneg; lia).
    assert (forall x s, 0 <= shl64 x s) as Hshl.
    { intros. unfold shl64, wrap64. apply wrap_range. lia. }
    pose proof (lor_ge_l r (shl64 (Z.land n 0x7F) (i * 8)) Hr (Hshl _ _)) as H1.
    intros Hloop. apply IH in Hloop; try lia.
    + destruct (Z.shiftr n 7 =? 0); [lia|].
      pose proof (lor_ge_l (Z.lor r (shl64 (Z.land n 0x7F) (i * 8)))
                    (shl64 kEightBit (i * 8)) ltac:(lia) (Hshl _ _)). lia.
    + apply Z.shiftr_nonneg. lia.
    + destruct (Z.shiftr n 7 =? 0); [lia|].
      apply Z.lor_nonneg. split; [lia | apply Hshl].
Qed.

Lemma PackInteger_loop_step steps i n r :
  PackInteger_loop (S steps) i n r =
  if n =? 0 then Some (r, i)
  else if negb (i <? 8) then None
  else
    let result := Z.lor r (shl64 (Z.land n 0x7F) (i * 8)) in
    let integer := Z.shiftr n 7 in
    let result := if integer =? 0 then result
                  else Z.lor result (shl64 kEightBit (i * 8)) in
    PackInteger_loop steps (i + 1) integer result.
Proof. reflexivity. Qed.

(** A positive integer never packs to the lone byte [0x80]: below 128 it
    packs to itself, and from 128 on a second byte is not zero. *)
Lemma PackInteger_not_0x80 n p c :
  0 < n -> PackInteger n = Some (p, c) -> p <> 0x80.
Proof.
  intros Hn. unfold PackInteger. rewrite PackInteger_loop_step.
  destruct (Z.eqb_spec n 0); [lia|]. change (negb (0 <? 8)) with false. cbv iota zeta.
  rewrite land_0x7F, Z.shiftr_div_pow2 by lia. change (2 ^ 7) with 128.
  pose proof (Z.mod_pos_bound n 128 ltac:(lia)) as Hmod.
  change (0 * 8) with 0. rewrite shl64_small by lia.
  rewrite Z.lor_0_l, Z.pow_0_r, Z.mul_1_r.
  destruct (Z.eqb_spec (n / 128) 0) as [Hq | Hq].
  - rewrite Hq, PackInteger_loop_step. cbn [Z.eqb]. intros [= <- _].
    apply Z.div_small_iff in Hq; lia.
  - assert (128 <= n).
    { destruct (Z.lt_ge_cases n 128); [|assumption].
      exfalso. apply Hq. apply Z.div_small. lia. }
    assert (0 < n / 128) by (apply Z.div_str_pos; lia).
    unfold kEightBit. rewrite shl64_small by lia.
    rewrite Z.pow_0_r, Z.mul_1_r, PackInteger_loop_step.
    destruct (Z.eqb_spec (n / 128) 0); [lia|].
    change (negb (0 + 1 <? 8)) with false. cbv iota zeta.
    rewrite land_0x7F, Z.shiftr_div_pow2 by lia. change (2 ^ 7) with 128.
    pose proof (Z.mod_pos_bound (n / 128) 128 ltac:(lia)) as Hmod2.
    change ((0 + 1) * 8) with 8.
    rewrite shl64_small by lia. change (2 ^ 8) with 256.
    assert (0 <= Z.lor (n mod 128) 128) by (apply Z.lor_nonneg; lia).
    assert (0 <= Z.lor (Z.lor (n mod 128) 128) (n / 128 mod 128 * 256))
      by (apply Z.lor_nonneg; lia).
    unfold kEightBit.
    intros Hloop. apply PackInteger_loop_ge in Hloop; try lia.
    + destruct (Z.eqb_spec (n / 128 / 128) 0) as [Hqq | Hqq].
      * assert (0 < (n / 128) mod 128).
        { apply Z.div_small_iff in Hqq; [|lia].
          rewrite Z.mod_small by lia. lia. }
        pose proof (lor_ge_r (Z.lor (n mod 128) 128) (n / 128 mod 128 * 256)
                      ltac:(lia) ltac:(lia)). lia.
      * rewrite shl64_small in Hloop by lia.
        pose proof (lor_ge_r (Z.lor (Z.lor (n mod 128) 128) (n / 128 mod 128 * 256))
                      (128 * 2 ^ 8) ltac:(lia) ltac:(lia)) as Hge.
        change (128 * 2 ^ 8) with 32768 in *. lia.
    + apply Z.div_pos; lia.
    + destruct (n / 128 / 128 =? 0); [lia|].
      apply Z.lor_nonneg. split; [lia|].
      unfold shl64, wrap64. apply wrap_range. lia.
Qed.

(** C4. For every [n] in [[0, 2^56)], [UnpackInteger (PackInteger n)] is [n];
    and for every [n > 0], [PackInteger] never produces the reserved lone
    byte [0x80]. *)
Theorem PackInteger_UnpackInteger_roundtrip (n : Z) :
  (0 <= n < 2 ^ 56 ->
   exists p bytes_needed,
     PackInteger n = Some (p, bytes_needed) /\ UnpackInteger p = Some n) /\
  (0 < n -> forall p bytes_needed, PackInteger n = Some (p, bytes_needed) -> p <> 0x80).
Proof.
  split.
  - intros Hn.
    destruct (PackInteger_loop_packed 8 9 0 n 0) as [c Hc]; try lia.
    change (2 ^ (8 * 0)) with 1 in Hc. rewrite Z.add_0_l, Z.mul_1_l in Hc.
    exists (packed 8 n), c. split.
    + exact Hc.
    + unfold UnpackInteger.
      rewrite (UnpackInteger_loop_packed 7 9 n 0 0); try lia.
      f_equal. lia.
  - intros Hn p c. now apply PackInteger_not_0x80.
Qed.

Lemma PackInteger_UnpackInteger_roundtrip_witness :
  (exists p bytes_needed,
     PackInteger 0xF0 = Some (p, bytes_needed) /\ UnpackInteger p = Some 0xF0) /\
  (forall p bytes_needed, PackInteger 0xF0 = Some (p, bytes_needed) -> p <> 0x80).
Proof.
  destruct (PackInteger_UnpackInteger_roundtrip 0xF0) as [Hround Hend].
  split; [apply Hround; lia | apply Hend; lia].
Defined.

End Coders.

(** ** The input stream *)

Module Streams.
Local Open Scope Z_scope.

(** Modelled from the spec: the reader [RawInStream] of [Streams.hpp], which
    is not under src/. It mirrors the writer with [readByte], has a
    bit-level [readBit], and [flushBuffer] discards bits to the next byte
    boundary. The encoders pack bits into a byte from its most significant
    bit ([b <<= 1; b |= bit]), so that is the order [readBit] delivers them
    in. [unread] holds the bits of the byte being read that are still to be
    delivered, [input] the bytes after it. *)
Record RawInStream := mkIn { unread : list bool; input : list Z }.

(** The eight bits of a byte, most significant first. *)
Definition byte_bits (b : Z) : list bool :=
  map (fun j => Z.testbit b (Z.of_nat j)) [7; 6; 5; 4; 3; 2; 1; 0]%nat.

(** [None]: the input has ended. *)
Definition readByte (s : RawInStream) : option (Z * RawInStream) :=
  match input s with
  | [] => None
  | b :: rest => Some (b, mkIn [] rest)
  end.

Definition readBit (s : RawInStream) : option (bool * RawInStream) :=
  match unread s with
  | bit :: bits => Some (bit, mkIn bits (input s))
  | [] =>
      match input s with
      | [] => None
      | b :: rest =>
          match byte_bits b with
          | bit :: bits => Some (bit, mkIn bits rest)
          | [] => None
          end
      end
  end.

Definition flushBuffer (s : RawInStream) : RawInStream := mkIn [] (input s).

(** All the bits still to be read. *)
Definition stream_bits (s : RawInStream) : list bool :=
  unread s ++ flat_map byte_bits (input s).

Definition is_byte (b : Z) : Prop := 0 <= b < 256.

End Streams.

(** ** Reading a packed integer ([HuffmanCoders.cpp], [WaveletCoders.cpp]) *)

Module PackedReader.
Import Word Streams.
Local Open Scope Z_scope.

Definition kEndSymbol : Z := Z.shiftl 1 63.
Definition kEndMask : Z := Z.shiftl 1 7.

Section ReadPackedInteger.

(** [read << i*8] on [uint64] is not defined by C++ once [i*8] reaches 64,
    and the loop does not bound [i]. [shl_past_width x s] stands for whatever
    the machine computes there; nothing is assumed of it. *)
Variable shl_past_width : Z -> Z -> Z.

Definition shl_uint64 (x s : Z) : Z :=
  if s <? 64 then shl64 x s else shl_past_width x s.

(** The loop [for(i = 0; bits_left; ++i)] of [HuffmanDecoder::readPackedInteger]
    and of [WaveletDecoder::readPackedInteger], which is the same code. It
    returns the value read and the bytes left; [None]: the input ended. *)
Fixpoint readPackedInteger_loop (bytes : list Z) (i packed_integer : Z)
  : option (Z * list Z) :=
  match bytes with
  | [] => None
  | read :: bytes' =>
      let bits_left := negb (Z.land read kEndMask =? 0) in
      let packed_integer := Z.lor packed_integer (shl_uint64 read (i * 8)) in
      if bits_left then readPackedInteger_loop bytes' (i + 1) packed_integer
      else Some (packed_integer, bytes')
  end.

Definition readPackedInteger (s : RawInStream) : option (Z * RawInStream) :=
  match readPackedInteger_loop (input s) 0 0 with
  | None => None
  | Some (packed_integer, rest) =>
      Some (if packed_integer =? 0x80 then kEndSymbol else packed_integer,
            mkIn [] rest)
  end.

(** Bit 7 of a byte: the continuation flag. *)
Definition high_bit (b : Z) : bool := negb (Z.land b kEndMask =? 0).

Lemma little_endian_cons b bs :
  is_byte b -> Forall is_byte bs ->
  little_endian_to_Z 8 (b :: bs) = b + 256 * little_endian_to_Z 8 bs.
Proof.
  intros Hb Hbs. cbn [little_endian_to_Z].
  rewrite Z.shiftl_mul_pow2 by lia.
  rewrite lor_shift_add; [change (2 ^ 8) with 256; lia | lia | exact Hb].
Qed.

Lemma little_endian_bound bs :
  Forall is_byte bs -> 0 <= little_endian_to_Z 8 bs < 2 ^ (8 * Z.of_nat (length bs)).
Proof.
  intros Hbs. rewrite Z.mul_comm. apply little_endian_to_Z_bound; [lia|].
  exact Hbs.
Qed.

(** The loop stops at the first byte whose high bit is clear, however many
    bytes come before it. *)
Lemma readPackedInteger_loop_stops pre b rest i acc :
  Forall (fun x => high_bit x = true) pre -> high_bit b = false ->
  exists v, readPackedInteger_loop (pre ++ b :: rest) i acc = Some (v, rest).
Proof.
  revert i acc. induction pre as [|x pre IH]; intros i acc Hpre Hb.
  - cbn [app readPackedInteger_loop]. fold (high_bit b). rewrite Hb. eauto.
  - inversion Hpre as [|? ? Hx Hpre']; subst.
    cbn [app readPackedInteger_loop]. fold (high_bit x). rewrite Hx.
    now apply IH.
Qed.

(** Within the first eight bytes no shift leaves the 64 bits, and the value
    is the little-endian reading of the bytes. *)
Lemma readPackedInteger_loop_value pre b rest i acc :
  Forall is_byte (pre ++ [b]) ->
  Forall (fun x => high_bit x = true) pre -> high_bit b = false ->
  0 <= i -> i + Z.of_nat (length pre) < 8 -> 0 <= acc < 2 ^ (8 * i) ->
  readPackedInteger_loop (pre ++ b :: rest) i acc
  = Some (acc + 2 ^ (8 * i) * little_endian_to_Z 8 (pre ++ [b]), rest).
Proof.
  revert i acc. induction pre as [|x pre IH]; intros i acc Hbytes Hpre Hb Hi Hlen Hacc.
  - cbn [app readPackedInteger_loop]. fold (high_bit b). rewrite Hb.
    apply Forall_inv in Hbytes. unfold is_byte in Hbytes.
    unfold shl_uint64. destruct (Z.ltb_spec (i * 8) 64); [|simpl in Hlen; lia].
    assert (2 ^ (8 * i + 8) <= 2 ^ 64) as H64 by (apply Z.pow_le_mono_r; simpl in Hlen; lia).
    rewrite Z.pow_add_r in H64 by lia. change (2 ^ 8) with 256 in H64.
    replace (i * 8) with (8 * i) by lia.
    rewrite Coders.shl64_small by nia. rewrite lor_shift_add by lia.
    cbn [little_endian_to_Z]. rewrite Z.shiftl_0_l, Z.lor_0_r.
    f_equal. f_equal. lia.
  - cbn [app] in Hbytes. inversion Hbytes as [|? ? Hx Hbytes']; subst.
    inversion Hpre as [|? ? Hhx Hpre']; subst.
    cbn [app readPackedInteger_loop]. fold (high_bit x). rewrite Hhx.
    cbn [length] in Hlen. unfold is_byte in Hx.
    unfold shl_uint64. destruct (Z.ltb_spec (i * 8) 64); [|lia].
    assert (2 ^ (8 * i + 8) <= 2 ^ 64) as H64 by (apply Z.pow_le_mono_r; lia).
    rewrite Z.pow_add_r in H64 by lia. change (2 ^ 8) with 256 in H64.
    replace (i * 8) with (8 * i) by lia.
    rewrite Coders.shl64_small by nia. rewrite lor_shift_add by lia.
    rewrite IH; try assumption; try lia.
    + rewrite (little_endian_cons x (pre ++ [b])) by assumption.
      f_equal. f_equal. replace (8 * (i + 1)) with (8 * i + 8) by lia.
      rewrite Z.pow_add_r by lia. change (2 ^ 8) with 256. lia.
    + replace (8 * (i + 1)) with (8 * i + 8) by lia.
      rewrite Z.pow_add_r by lia. change (2 ^ 8) with 256. nia.
Qed.

End ReadPackedInteger.

Lemma high_bit_0x80 : high_bit 0x80 = true.
Proof. reflexivity. Qed.

(** Nine bytes with the high bit set, then a byte with the high bit clear. *)
Definition nine_continuation_bytes : list Z :=
  [0x80; 0x80; 0x80; 0x80; 0x80; 0x80; 0x80; 0x80; 0x80; 0x00].

(** The reader has one failure, the end of the input ([None]). On ten bytes
    of which the first nine have the high bit set it reads all ten and
    returns, whatever the over-wide shifts compute: no failure meets the
    ninth byte. *)
Lemma readPackedInteger_reads_past_eight_bytes :
  ~ exists shl_past_width,
      readPackedInteger shl_past_width (mkIn [] nine_continuation_bytes) = None.
Proof.
  intros [shl Hfail]. unfold readPackedInteger in Hfail.
  cbn [input] in Hfail.
  destruct (readPackedInteger_loop_stops shl
              (repeat 0x80 9) 0x00 [] 0 0) as [v Hv].
  - repeat constructor.
  - reflexivity.
  - change (repeat 128 9 ++ [0]) with nine_continuation_bytes in Hv.
    rewrite Hv in Hfail. discriminate.
Qed.

(** C5, amended. [readPackedInteger] stops at the first byte whose high bit
    is clear and leaves the bytes after it; when that byte is among the first
    eight, the value is the little-endian reading of the bytes, the end
    symbol standing for [0x80]. It has no bound on the bytes read: with the
    terminating byte in the input it does not fail. *)
Theorem readPackedInteger_stops_at_clear_high_bit
    (shl_past_width : Z -> Z -> Z) (s : RawInStream) (pre : list Z) (b : Z) (rest : list Z) :
  input s = pre ++ b :: rest ->
  Forall is_byte (pre ++ [b]) ->
  Forall (fun x => high_bit x = true) pre -> high_bit b = false ->
  exists v,
    readPackedInteger shl_past_width s = Some (v, mkIn [] rest) /\
    ((length pre < 8)%nat ->
     let packed_integer := little_endian_to_Z 8 (pre ++ [b]) in
     v = if packed_integer =? 0x80 then kEndSymbol else packed_integer).
Proof.
  intros Hin Hbytes Hpre Hb. unfold readPackedInteger. rewrite Hin.
  destruct (readPackedInteger_loop_stops shl_past_width pre b rest 0 0 Hpre Hb) as [v Hv].
  rewrite Hv. eexists. split; [reflexivity|].
  intros Hlen. cbv zeta.
  rewrite readPackedInteger_loop_value in Hv; try assumption; try lia.
  injection Hv as <-. change (2 ^ (8 * 0)) with 1.
  now rewrite Z.add_0_l, Z.mul_1_l.
Qed.

Lemma readPackedInteger_stops_at_clear_high_bit_witness :
  exists v,
    readPackedInteger (fun _ _ => 0) (mkIn [] [0xAA; 0x28; 0x07]) = Some (v, mkIn [] [0x07]) /\
    ((length [0xAA] < 8)%nat ->
     let packed_integer := little_endian_to_Z 8 ([0xAA] ++ [0x28]) in
     v = if packed_integer =? 0x80 then kEndSymbol else packed_integer).
Proof.
  apply (readPackedInteger_stops_at_clear_high_bit (fun _ _ => 0)
           (mkIn [] [0xAA; 0x28; 0x07]) [0xAA] 0x28 [0x07]).
  - reflexivity.
  - repeat constructor; unfold is_byte; lia.
  - repeat constructor.
  - reflexivity.
Defined.

End PackedReader.

(** ** The frequency table ([preprocessors/preprocessor.cc]) *)

Module Preprocessor.
Import Word.

(** [freq_] holds the 256 pairs (byte, count) and [location_] the index in
    [freq_] of every byte. Bytes and indices are natural numbers, counts are
    [uint64]. The declaration of the class is not under src/; the two arrays
    are as the constructor and [InitLocations] fill them. *)
Record FreqTable := mkFreqTable {
  freq_ : list (nat * Z);
  location_ : list nat
}.

(** [operator[]]: the count in slot [i]. *)
Definition count_at (t : FreqTable) (i : nat) : Z := (freq_ t !!! i).2.

Definition Key (t : FreqTable) (i : nat) : nat := (freq_ t !!! i).1.

(** The count the table holds for a byte, [freq_[location_[key]].second]. *)
Definition count_of (t : FreqTable) (key : nat) : Z :=
  count_at t (location_ t !!! key).

(** The loop of [Decrease]: slots move up while the new value is smaller
    than the count below. *)
Fixpoint Decrease_loop (new_value : Z) (freq : list (nat * Z)) (location : list nat)
    (freq_index : nat) : list (nat * Z) * list nat * nat :=
  match freq_index with
  | O => (freq, location, O)
  | S below =>
      if (new_value <? (freq !!! below).2)%Z then
        let moved := (freq !!! below).1 in
        Decrease_loop new_value
          (<[S below := freq !!! below]> freq)
          (<[moved := S (location !!! moved)]> location)
          below
      else (freq, location, S below)
  end.

Definition Decrease (t : FreqTable) (key : nat) (value : Z) : bool * FreqTable :=
  let freq_index := location_ t !!! key in
  if ((freq_ t !!! freq_index).2 <? value)%Z then (false, t)
  else
    let new_value := wrap64 ((freq_ t !!! freq_index).2 - value) in
    let new_pair := ((freq_ t !!! freq_index).1, new_value) in
    let '(freq, location, freq_index) :=
      Decrease_loop new_value (freq_ t) (location_ t) freq_index in
    (true, mkFreqTable (<[freq_index := new_pair]> freq)
                       (<[new_pair.1 := freq_index]> location)).

(** The loop of [Increase]: [while (freq_index < 255 && ...)]. It runs at
    most [255 - freq_index] times, the [steps] it is started with. *)
Fixpoint Increase_loop (steps : nat) (new_value : Z) (freq : list (nat * Z))
    (location : list nat) (freq_index : nat) : list (nat * Z) * list nat * nat :=
  match steps with
  | O => (freq, location, freq_index)
  | S steps' =>
      if (freq_index <? 255)%nat && ((freq !!! S freq_index).2 <? new_value)%Z then
        let moved := (freq !!! S freq_index).1 in
        Increase_loop steps' new_value
          (<[freq_index := freq !!! S freq_index]> freq)
          (<[moved := pred (location !!! moved)]> location)
          (S freq_index)
      else (freq, location, freq_index)
  end.

Definition Increase (t : FreqTable) (key : nat) (value : Z) : FreqTable :=
  let freq_index := location_ t !!! key in
  let new_value := wrap64 ((freq_ t !!! freq_index).2 + value) in
  let new_pair := ((freq_ t !!! freq_index).1, new_value) in
  let '(freq, location, freq_index) :=
    Increase_loop (255 - freq_index) new_value (freq_ t) (location_ t) freq_index in
  mkFreqTable (<[freq_index := new_pair]> freq)
              (<[new_pair.1 := freq_index]> location).

Definition InitLocations (freq : list (nat * Z)) (location : list nat) : list nat :=
  fold_left (fun location i => <[(freq !!! i).1 := i]> location) (seq 0 256) location.

Section Construction.

(** [std::sort(freq_, freq_ + 256, ComparePairSecondAsc)]: the order it
    leaves equal counts in is not specified, so the sort is a parameter. *)
Variable sort_asc : list (nat * Z) -> list (nat * Z).

(** [FreqTable::FreqTable(uint64* frequencies)]. *)
Definition FreqTable_of (frequencies : list Z) : FreqTable :=
  let freq := sort_asc ((fun i => (i, frequencies !!! i)) <$> seq 0 256) in
  mkFreqTable freq (InitLocations freq (replicate 256 0)).

End Construction.

(** [ComparePairSecondAsc] leaves no pair before one of a smaller count. *)
Definition count_le (p q : nat * Z) : Prop := (p.2 <= q.2)%Z.

#[local] Instance count_le_dec p q : Decision (count_le p q).
Proof. unfold count_le. apply _. Defined.

(** *** The invariants of the table *)

(** [location_] and [freq_] are inverse to each other. *)
Record consistent (t : FreqTable) : Prop := {
  freq_length : length (freq_ t) = 256;
  location_length : length (location_ t) = 256;
  location_Key : forall i, i < 256 -> Key t i < 256 /\ location_ t !!! Key t i = i;
  Key_location : forall key, key < 256 ->
    location_ t !!! key < 256 /\ Key t (location_ t !!! key) = key
}.

Definition counts_in_range (t : FreqTable) : Prop :=
  forall i, i < 256 -> (0 <= count_at t i < 2 ^ 64)%Z.

Definition sorted (t : FreqTable) : Prop :=
  forall i j, i <= j -> j < 256 -> (count_at t i <= count_at t j)%Z.

(** The state inside the two loops: slot [idx] is free for the pair of
    [key], every other slot and byte is consistent. *)
Record hole (key : nat) (freq : list (nat * Z)) (location : list nat) (idx : nat) : Prop := {
  hole_freq_length : length freq = 256;
  hole_location_length : length location = 256;
  hole_idx : idx < 256;
  hole_key : key < 256;
  hole_slot : forall i, i < 256 -> i <> idx ->
    (freq !!! i).1 < 256 /\ (freq !!! i).1 <> key /\ location !!! (freq !!! i).1 = i;
  hole_byte : forall k, k < 256 -> k <> key ->
    location !!! k < 256 /\ location !!! k <> idx /\ (freq !!! (location !!! k)).1 = k
}.

Ltac insert_lookup :=
  repeat match goal with
  | |- context [ <[?i := _]> _ !!! ?i ] =>
      rewrite list_lookup_total_insert_eq by lia
  | |- context [ <[?i := _]> _ !!! ?j ] =>
      rewrite (list_lookup_total_insert_ne _ i j) by (congruence || lia)
  end.

Lemma consistent_hole t key :
  consistent t -> key < 256 ->
  hole key (freq_ t) (location_ t) (location_ t !!! key).
Proof.
  intros [Hf Hl Hpos Hkey] Hk. unfold Key in *.
  destruct (Hkey key Hk) as [Hlt Hback].
  split; try assumption.
  - intros i Hi Hne. destruct (Hpos i Hi) as [Hm Hloc].
    repeat split; try assumption. intros Heq. rewrite Heq in Hloc. congruence.
  - intros k Hk' Hne. destruct (Hkey k Hk') as [Hp Hk2].
    repeat split; try assumption. intros Heq. rewrite Heq in Hk2. congruence.
Qed.

Lemma hole_filled key freq location idx v :
  hole key freq location idx ->
  consistent (mkFreqTable (<[idx := (key, v)]> freq) (<[key := idx]> location)).
Proof.
  intros [Hf Hl Hidx Hk Hslot Hbyte].
  split; unfold Key; cbn [freq_ location_].
  - now rewrite length_insert.
  - now rewrite length_insert.
  - intros i Hi. destruct (decide (i = idx)) as [-> | Hne].
    + insert_lookup. cbn. insert_lookup. auto.
    + destruct (Hslot i Hi Hne) as (Hm & Hmk & Hloc).
      insert_lookup. auto.
  - intros k Hk'. destruct (decide (k = key)) as [-> | Hne].
    + insert_lookup. auto.
    + destruct (Hbyte k Hk' Hne) as (Hp & Hpi & Hback).
      insert_lookup. auto.
Qed.

Lemma hole_down key freq location below :
  hole key freq location (S below) ->
  hole key (<[S below := freq !!! below]> freq)
       (<[(freq !!! below).1 := S (location !!! (freq !!! below).1)]> location)
       below.
Proof.
  intros [Hf Hl Hidx Hk Hslot Hbyte].
  destruct (Hslot below ltac:(lia) ltac:(lia)) as (Hm & Hmk & Hloc).
  split; rewrite ?length_insert; try assumption; try lia.
  - intros i Hi Hne. destruct (decide (i = S below)) as [-> | Hne'].
    + insert_lookup. rewrite Hloc. auto.
    + destruct (Hslot i Hi Hne') as (Hm' & Hmk' & Hloc').
      insert_lookup. assert ((freq !!! below).1 <> (freq !!! i).1) by congruence.
      insert_lookup. auto.
  - intros k Hk' Hne. destruct (Hbyte k Hk' Hne) as (Hp & Hpi & Hback).
    destruct (decide (k = (freq !!! below).1)) as [-> | Hne'].
    + insert_lookup. rewrite Hloc. insert_lookup. repeat split; (lia || auto).
    + insert_lookup. assert (location !!! k <> below) by congruence.
      insert_lookup. auto.
Qed.

Lemma hole_up key freq location idx :
  hole key freq location idx -> idx < 255 ->
  hole key (<[idx := freq !!! S idx]> freq)
       (<[(freq !!! S idx).1 := pred (location !!! (freq !!! S idx).1)]> location)
       (S idx).
Proof.
  intros [Hf Hl Hidx Hk Hslot Hbyte] Hlt.
  destruct (Hslot (S idx) ltac:(lia) ltac:(lia)) as (Hm & Hmk & Hloc).
  split; rewrite ?length_insert; try assumption; try lia.
  - intros i Hi Hne. destruct (decide (i = idx)) as [-> | Hne'].
    + insert_lookup. rewrite Hloc. auto.
    + destruct (Hslot i Hi Hne') as (Hm' & Hmk' & Hloc').
      insert_lookup. assert ((freq !!! S idx).1 <> (freq !!! i).1) by congruence.
      insert_lookup. auto.
  - intros k Hk' Hne. destruct (Hbyte k Hk' Hne) as (Hp & Hpi & Hback).
    destruct (decide (k = (freq !!! S idx).1)) as [-> | Hne'].
    + insert_lookup. rewrite Hloc. cbn [pred]. insert_lookup. repeat split; (lia || auto).
    + insert_lookup. assert (location !!! k <> S idx) by congruence.
      insert_lookup. auto.
Qed.

(** The counts around the free slot [idx]. *)
Definition range_except (freq : list (nat * Z)) (idx : nat) : Prop :=
  forall i, i < 256 -> i <> idx -> (0 <= (freq !!! i).2 < 2 ^ 64)%Z.

Definition sorted_except (freq : list (nat * Z)) (idx : nat) : Prop :=
  forall i j, i < j -> j < 256 -> i <> idx -> j <> idx ->
    ((freq !!! i).2 <= (freq !!! j).2)%Z.

Lemma Decrease_loop_hole key v idx : forall freq location f l idx',
  hole key freq location idx ->
  Decrease_loop v freq location idx = (f, l, idx') -> hole key f l idx'.
Proof.
  induction idx as [|below IH]; intros freq location f l idx' Hhole; cbn [Decrease_loop].
  - intros [= <- <- <-]. assumption.
  - destruct (v <? (freq !!! below).2)%Z.
    + apply IH. now apply hole_down.
    + intros [= <- <- <-]. assumption.
Qed.

Lemma Decrease_loop_counts v idx : forall freq location f l idx',
  length freq = 256 -> idx < 256 ->
  range_except freq idx -> sorted_except freq idx ->
  (forall i, idx < i -> i < 256 -> (v <= (freq !!! i).2)%Z) ->
  Decrease_loop v freq location idx = (f, l, idx') ->
  range_except f idx' /\ sorted_except f idx' /\
  (forall i, idx' < i -> i < 256 -> (v <= (f !!! i).2)%Z) /\
  (forall i, i < idx' -> ((f !!! i).2 <= v)%Z).
Proof.
  induction idx as [|below IH]; intros freq location f l idx' Hlen Hidx Hrange Hsorted Hright;
    cbn [Decrease_loop].
  - intros [= <- <- <-]. split; [assumption|]. split; [assumption|]. split; [assumption|].
    intros i Hi. lia.
  - destruct (Z.ltb_spec v (freq !!! below).2) as [Hlt | Hge].
    + apply IH.
      * now rewrite length_insert.
      * lia.
      * intros i Hi Hne. destruct (decide (i = S below)) as [-> | Hne'].
        -- insert_lookup. apply Hrange; lia.
        -- insert_lookup. apply Hrange; lia.
      * intros i j Hij Hj Hi' Hj'.
        destruct (decide (i = S below)) as [-> | Hne];
          destruct (decide (j = S below)) as [-> | Hne']; insert_lookup;
          try lia; apply Hsorted; lia.
      * intros i Hi Hi'. destruct (decide (i = S below)) as [-> | Hne].
        -- insert_lookup. lia.
        -- insert_lookup. apply Hright; lia.
    + intros [= <- <- <-]. split; [assumption|]. split; [assumption|]. split; [assumption|].
      intros i Hi. destruct (decide (i = below)) as [-> | Hne]; [lia|].
      specialize (Hsorted i below ltac:(lia) ltac:(lia) ltac:(lia) ltac:(lia)). lia.
Qed.

Lemma Increase_loop_hole key v steps : forall freq location idx f l idx',
  hole key freq location idx ->
  Increase_loop steps v freq location idx = (f, l, idx') -> hole key f l idx'.
Proof.
  induction steps as [|steps IH]; intros freq location idx f l idx' Hhole; cbn [Increase_loop].
  - intros [= <- <- <-]. assumption.
  - destruct (Nat.ltb_spec idx 255); cbn [andb].
    + destruct ((freq !!! S idx).2 <? v)%Z.
      * apply IH. now apply hole_up.
      * intros [= <- <- <-]. assumption.
    + intros [= <- <- <-]. assumption.
Qed.

Lemma Increase_loop_counts v steps : forall freq location idx f l idx',
  length freq = 256 -> idx < 256 -> 255 <= idx + steps ->
  range_except freq idx -> sorted_except freq idx ->
  (forall i, i < idx -> ((freq !!! i).2 <= v)%Z) ->
  Increase_loop steps v freq location idx = (f, l, idx') ->
  idx' < 256 /\
  range_except f idx' /\ sorted_except f idx' /\
  (forall i, i < idx' -> ((f !!! i).2 <= v)%Z) /\
  (forall i, idx' < i -> i < 256 -> (v <= (f !!! i).2)%Z).
Proof.
  induction steps as [|steps IH];
    intros freq location idx f l idx' Hlen Hidx Hsteps Hrange Hsorted Hleft;
    cbn [Increase_loop].
  - intros [= <- <- <-]. split; [assumption|]. split; [assumption|]. split; [assumption|].
    split; [assumption|]. intros i Hi Hi'. lia.
  - destruct (Nat.ltb_spec idx 255) as [Hlt | Hge]; cbn [andb].
    + destruct (Z.ltb_spec (freq !!! S idx).2 v) as [Hv | Hv].
      * apply IH.
        -- now rewrite length_insert.
        -- lia.
        -- lia.
        -- intros i Hi Hne. destruct (decide (i = idx)) as [-> | Hne'].
           ++ insert_lookup. apply Hrange; lia.
           ++ insert_lookup. apply Hrange; lia.
        -- intros i j Hij Hj Hi' Hj'.
           destruct (decide (i = idx)) as [-> | Hne];
             destruct (decide (j = idx)) as [-> | Hne']; insert_lookup;
             try lia; apply Hsorted; lia.
        -- intros i Hi. destruct (decide (i = idx)) as [-> | Hne].
           ++ insert_lookup. lia.
           ++ insert_lookup. apply Hleft; lia.
      * intros [= <- <- <-]. split; [assumption|]. split; [assumption|]. split; [assumption|].
        split; [assumption|].
        intros i Hi Hi'. destruct (decide (i = S idx)) as [-> | Hne]; [lia|].
        specialize (Hsorted (S idx) i ltac:(lia) ltac:(lia) ltac:(lia) ltac:(lia)). lia.
    + intros [= <- <- <-]. split; [assumption|]. split; [assumption|]. split; [assumption|].
      split; [assumption|]. intros i Hi Hi'. lia.
Qed.

(** Filling the free slot with a count between its neighbours. *)
Lemma filled_sorted key v freq location idx :
  length freq = 256 -> idx < 256 ->
  sorted_except freq idx ->
  (forall i, i < idx -> ((freq !!! i).2 <= v)%Z) ->
  (forall i, idx < i -> i < 256 -> (v <= (freq !!! i).2)%Z) ->
  sorted (mkFreqTable (<[idx := (key, v)]> freq) location).
Proof.
  intros Hlen Hidx Hsorted Hleft Hright i j Hij Hj. unfold count_at. cbn [freq_].
  destruct (decide (i = idx)) as [-> | Hne];
    destruct (decide (j = idx)) as [-> | Hne']; insert_lookup; cbn [snd].
  - lia.
  - apply Hright; lia.
  - apply Hleft; lia.
  - destruct (decide (i = j)) as [-> | Hne'']; [lia|]. apply Hsorted; lia.
Qed.

Lemma filled_range key v freq location idx :
  length freq = 256 -> idx < 256 -> (0 <= v < 2 ^ 64)%Z ->
  range_except freq idx ->
  counts_in_range (mkFreqTable (<[idx := (key, v)]> freq) location).
Proof.
  intros Hlen Hidx Hv Hrange i Hi. unfold count_at. cbn [freq_].
  destruct (decide (i = idx)) as [-> | Hne]; insert_lookup; [exact Hv|].
  now apply Hrange.
Qed.

Lemma sorted_sorted_except t idx : sorted t -> sorted_except (freq_ t) idx.
Proof. intros Hs i j Hij Hj _ _. apply (Hs i j); lia. Qed.

Lemma range_range_except t idx : counts_in_range t -> range_except (freq_ t) idx.
Proof. intros Hr i Hi _. now apply Hr. Qed.

Lemma Decrease_loop_range v idx : forall freq location f l idx',
  length freq = 256 -> idx < 256 -> range_except freq idx ->
  Decrease_loop v freq location idx = (f, l, idx') -> range_except f idx'.
Proof.
  induction idx as [|below IH]; intros freq location f l idx' Hlen Hidx Hrange;
    cbn [Decrease_loop].
  - intros [= <- <- <-]. assumption.
  - destruct (v <? (freq !!! below).2)%Z.
    + apply IH; [now rewrite length_insert | lia |].
      intros i Hi Hne. destruct (decide (i = S below)) as [-> | Hne'];
        insert_lookup; apply Hrange; lia.
    + intros [= <- <- <-]. assumption.
Qed.

Lemma Increase_loop_range v steps : forall freq location idx f l idx',
  length freq = 256 -> idx < 256 -> range_except freq idx ->
  Increase_loop steps v freq location idx = (f, l, idx') -> range_except f idx'.
Proof.
  induction steps as [|steps IH]; intros freq location idx f l idx' Hlen Hidx Hrange;
    cbn [Increase_loop].
  - intros [= <- <- <-]. assumption.
  - destruct (Nat.ltb_spec idx 255) as [Hlt | Hge]; cbn [andb].
    + destruct ((freq !!! S idx).2 <? v)%Z.
      * apply IH; [now rewrite length_insert | lia |].
        intros i Hi Hne. destruct (decide (i = idx)) as [-> | Hne'];
          insert_lookup; apply Hrange; lia.
      * intros [= <- <- <-]. assumption.
    + intros [= <- <- <-]. assumption.
Qed.

(** *** [Decrease] *)

Lemma Decrease_fails t key value :
  (count_of t key < value)%Z -> Decrease t key value = (false, t).
Proof.
  unfold Decrease, count_of, count_at. intros Hlt.
  destruct (Z.ltb_spec (freq_ t !!! (location_ t !!! key)).2 value); [reflexivity | lia].
Qed.

Lemma count_of_filled key v freq location idx :
  length freq = 256 -> length location = 256 -> idx < 256 -> key < 256 ->
  count_of (mkFreqTable (<[idx := (key, v)]> freq) (<[key := idx]> location)) key = v.
Proof.
  intros Hf Hl Hidx Hkey. unfold count_of, count_at. cbn [freq_ location_].
  now insert_lookup.
Qed.

Lemma Decrease_succeeds t key value :
  consistent t -> counts_in_range t -> key < 256 ->
  (0 <= value <= count_of t key)%Z ->
  exists t',
    Decrease t key value = (true, t') /\
    consistent t' /\ counts_in_range t' /\
    count_of t' key = (count_of t key - value)%Z /\
    (sorted t -> sorted t').
Proof.
  intros Hcons Hrange Hkey Hvalue.
  pose proof (consistent_hole t key Hcons Hkey) as Hhole.
  destruct (Key_location t Hcons key Hkey) as [Hidx Hback].
  unfold Decrease. unfold count_of, count_at in *. unfold Key in Hback.
  destruct (Z.ltb_spec (freq_ t !!! (location_ t !!! key)).2 value); [lia|].
  rewrite Hback.
  pose proof (Hrange _ Hidx) as Hc. unfold count_at in Hc.
  unfold wrap64. rewrite wrap_small by lia.
  set (v := ((freq_ t !!! (location_ t !!! key)).2 - value)%Z) in *.
  destruct (Decrease_loop v (freq_ t) (location_ t) (location_ t !!! key))
    as [[f l] idx'] eqn:Hloop.
  pose proof (Decrease_loop_hole key v _ _ _ _ _ _ Hhole Hloop) as Hhole'.
  pose proof (hole_freq_length _ _ _ _ Hhole) as Hf.
  pose proof (Decrease_loop_range v _ _ _ _ _ _ Hf Hidx
                (range_range_except t _ Hrange) Hloop) as Hrange'.
  destruct Hhole' as [Hf' Hl' Hidx' _ Hslot' Hbyte'].
  eexists. split; [reflexivity|]. cbn [fst].
  split; [apply hole_filled; now split|].
  split; [apply filled_range; (assumption || lia)|].
  split.
  - cbn [freq_ location_]. insert_lookup. reflexivity.
  - intros Hsorted.
    assert (forall i, location_ t !!! key < i -> i < 256 ->
                      (v <= (freq_ t !!! i).2)%Z) as Habove.
    { intros i Hi Hi'. pose proof (Hsorted (location_ t !!! key) i ltac:(lia) Hi') as Hle.
      unfold count_at in Hle. lia. }
    destruct (Decrease_loop_counts v _ _ _ _ _ _ Hf Hidx
                (range_range_except t _ Hrange)
                (sorted_sorted_except t _ Hsorted) Habove Hloop)
      as (_ & Hsorted' & Hright & Hleft).
    now apply filled_sorted.
Qed.

(** *** [Increase] *)

Lemma Increase_consistent t key value :
  consistent t -> counts_in_range t -> key < 256 ->
  let t' := Increase t key value in
  consistent t' /\ counts_in_range t' /\
  count_of t' key = wrap64 (count_of t key + value) /\
  (sorted t -> (0 <= value)%Z -> (count_of t key + value < 2 ^ 64)%Z -> sorted t').
Proof.
  intros Hcons Hrange Hkey.
  pose proof (consistent_hole t key Hcons Hkey) as Hhole.
  destruct (Key_location t Hcons key Hkey) as [Hidx Hback].
  unfold Increase. unfold count_of, count_at in *. unfold Key in Hback.
  rewrite Hback.
  pose proof (Hrange _ Hidx) as Hc. unfold count_at in Hc.
  set (v := wrap64 ((freq_ t !!! (location_ t !!! key)).2 + value)) in *.
  destruct (Increase_loop (255 - location_ t !!! key) v (freq_ t) (location_ t)
              (location_ t !!! key)) as [[f l] idx'] eqn:Hloop.
  pose proof (Increase_loop_hole key v _ _ _ _ _ _ _ Hhole Hloop) as Hhole'.
  pose proof (hole_freq_length _ _ _ _ Hhole) as Hf.
  pose proof (Increase_loop_range v _ _ _ _ _ _ _ Hf Hidx
                (range_range_except t _ Hrange) Hloop) as Hrange'.
  destruct Hhole' as [Hf' Hl' Hidx' _ Hslot' Hbyte'].
  cbv zeta. cbn [fst].
  split; [apply hole_filled; now split|].
  assert (0 <= v < 2 ^ 64)%Z as Hv by (apply wrap_range; lia).
  split; [apply filled_range; assumption|].
  split.
  - cbn [freq_ location_]. insert_lookup. reflexivity.
  - intros Hsorted Hvalue Hfit.
    assert (v = ((freq_ t !!! (location_ t !!! key)).2 + value)%Z) as Hv'.
    { subst v. unfold wrap64. apply wrap_small. lia. }
    assert (forall i, i < location_ t !!! key -> ((freq_ t !!! i).2 <= v)%Z) as Hbelow.
    { intros i Hi. pose proof (Hsorted i (location_ t !!! key) ltac:(lia) Hidx) as Hle.
      unfold count_at in Hle. lia. }
    assert (255 <= location_ t !!! key + (255 - location_ t !!! key)) as Hsteps by lia.
    destruct (Increase_loop_counts v _ _ _ _ _ _ _ Hf Hidx Hsteps
                (range_range_except t _ Hrange)
                (sorted_sorted_except t _ Hsorted) Hbelow Hloop)
      as (_ & _ & Hsorted' & Hleft & Hright).
    now apply filled_sorted.
Qed.

(** *** The constructor *)

Lemma InitLocations_lookup freq location :
  length location = 256 ->
  (forall i, i < 256 -> (freq !!! i).1 < 256) ->
  (forall i j, i < 256 -> j < 256 -> (freq !!! i).1 = (freq !!! j).1 -> i = j) ->
  length (InitLocations freq location) = 256 /\
  forall i, i < 256 -> InitLocations freq location !!! (freq !!! i).1 = i.
Proof.
  intros Hlen Hlt Hinj. unfold InitLocations.
  assert (forall n, n <= 256 ->
            let loc := fold_left (fun location i => <[(freq !!! i).1 := i]> location)
                         (seq 0 n) location in
            length loc = 256 /\ forall i, i < n -> loc !!! (freq !!! i).1 = i) as Hn.
  { induction n as [|n IH]; intros Hle; cbv zeta.
    - split; [exact Hlen | intros i Hi; lia].
    - rewrite seq_S, fold_left_app. cbn [fold_left plus].
      destruct (IH ltac:(lia)) as [Hlen' Hloc].
      split; [now rewrite length_insert|].
      intros i Hi. destruct (decide (i = n)) as [-> | Hne].
      + rewrite list_lookup_total_insert_eq; [reflexivity|].
        rewrite Hlen'. apply Hlt. lia.
      + rewrite list_lookup_total_insert_ne.
        * apply Hloc. lia.
        * intros Heq. apply Hinj in Heq; lia. }
  exact (Hn 256 ltac:(lia)).
Qed.

Lemma StronglySorted_lookup_le (l : list (nat * Z)) i j :
  StronglySorted count_le l -> i <= j -> j < length l ->
  ((l !!! i).2 <= (l !!! j).2)%Z.
Proof.
  intros Hs. revert i j. induction Hs as [|x l Hs IH Hall]; intros i j Hij Hj.
  - cbn in Hj. lia.
  - destruct j as [|j].
    + assert (i = 0) as -> by lia. reflexivity.
    + cbn [length] in Hj. destruct i as [|i].
      * change (((x :: l) !!! S j)) with (l !!! j).
        change ((x :: l) !!! 0) with x.
        rewrite Forall_forall in Hall. apply Hall.
        apply list_elem_of_lookup. exists j.
        apply list_lookup_lookup_total_lt. lia.
      * apply (IH i j); lia.
Qed.

Section Constructed.

Variable sort_asc : list (nat * Z) -> list (nat * Z).
Hypothesis sort_asc_Permutation : forall l, sort_asc l ≡ₚ l.
Hypothesis sort_asc_Sorted : forall l, Sorted count_le (sort_asc l).

Variable frequencies : list Z.
Hypothesis frequencies_length : length frequencies = 256.
Hypothesis frequencies_range : Forall (fun f => 0 <= f < 2 ^ 64)%Z frequencies.

Let unsorted : list (nat * Z) := (fun i => (i, frequencies !!! i)) <$> seq 0 256.
Let freq : list (nat * Z) := sort_asc unsorted.

Lemma constructed_length : length freq = 256.
Proof.
  unfold freq. rewrite (Permutation_length (sort_asc_Permutation _)).
  unfold unsorted. now rewrite length_fmap, length_seq.
Qed.

Lemma constructed_keys : fst <$> freq ≡ₚ seq 0 256.
Proof.
  unfold freq. rewrite sort_asc_Permutation. unfold unsorted.
  rewrite <- list_fmap_compose.
  rewrite (list_fmap_ext _ id (seq 0 256)); [now rewrite list_fmap_id|].
  reflexivity.
Qed.

Lemma constructed_key_lookup i :
  i < 256 -> (fst <$> freq) !! i = Some (freq !!! i).1.
Proof.
  intros Hi. rewrite list_lookup_fmap, list_lookup_lookup_total_lt; [reflexivity|].
  now rewrite constructed_length.
Qed.

Lemma constructed_consistent : consistent (FreqTable_of sort_asc frequencies).
Proof.
  unfold FreqTable_of. fold unsorted. fold freq.
  assert (forall i, i < 256 -> (freq !!! i).1 < 256) as Hlt.
  { intros i Hi.
    assert ((freq !!! i).1 ∈ seq 0 256) as Hin.
    { rewrite <- constructed_keys. apply list_elem_of_lookup.
      exists i. now apply constructed_key_lookup. }
    apply elem_of_seq in Hin. lia. }
  assert (forall i j, i < 256 -> j < 256 -> (freq !!! i).1 = (freq !!! j).1 -> i = j) as Hinj.
  { intros i j Hi Hj Heq.
    assert (NoDup (fst <$> freq)) as Hnd.
    { rewrite constructed_keys. apply NoDup_seq. }
    eapply NoDup_lookup; [exact Hnd | now apply constructed_key_lookup |].
    rewrite Heq. now apply constructed_key_lookup. }
  destruct (InitLocations_lookup freq (replicate 256 0)
              ltac:(now rewrite length_replicate) Hlt Hinj) as [Hlen Hloc].
  split; unfold Key; cbn [freq_ location_].
  - apply constructed_length.
  - exact Hlen.
  - intros i Hi. split; [now apply Hlt | now apply Hloc].
  - intros key Hkey.
    assert (key ∈ fst <$> freq) as Hin.
    { rewrite constructed_keys. apply elem_of_seq. lia. }
    apply list_elem_of_lookup in Hin as [i Hi].
    assert (i < 256) as Hi'.
    { apply lookup_lt_Some in Hi. now rewrite length_fmap, constructed_length in Hi. }
    rewrite constructed_key_lookup in Hi by assumption.
    injection Hi as <-. rewrite Hloc by assumption. auto.
Qed.

Lemma constructed_range : counts_in_range (FreqTable_of sort_asc frequencies).
Proof.
  intros i Hi. unfold count_at, FreqTable_of. cbn [freq_]. fold unsorted. fold freq.
  assert (Forall (fun p : nat * Z => 0 <= p.2 < 2 ^ 64)%Z freq) as Hall.
  { unfold freq. rewrite sort_asc_Permutation. unfold unsorted.
    apply Forall_fmap, Forall_forall. intros j Hj. cbn.
    apply elem_of_seq in Hj.
    rewrite Forall_forall in frequencies_range. apply frequencies_range.
    apply list_elem_of_lookup. exists j.
    apply list_lookup_lookup_total_lt. lia. }
  rewrite Forall_forall in Hall. apply Hall.
  apply list_elem_of_lookup. exists i.
  apply list_lookup_lookup_total_lt. now rewrite constructed_length.
Qed.

Lemma constructed_sorted : sorted (FreqTable_of sort_asc frequencies).
Proof.
  intros i j Hij Hj. unfold count_at, FreqTable_of. cbn [freq_]. fold unsorted. fold freq.
  apply StronglySorted_lookup_le; [| assumption | now rewrite constructed_length].
  apply Sorted_StronglySorted; [|apply sort_asc_Sorted].
  intros x y z. unfold count_le. lia.
Qed.

End Constructed.

(** *** A sort to run the constructor with *)

#[local] Instance count_le_total : Total count_le.
Proof. intros p q. unfold count_le. lia. Qed.

Definition sort_by_count : list (nat * Z) -> list (nat * Z) := merge_sort count_le.

Lemma sort_by_count_Permutation l : sort_by_count l ≡ₚ l.
Proof. apply merge_sort_Permutation. Qed.

Lemma sort_by_count_Sorted l : Sorted count_le (sort_by_count l).
Proof. apply Sorted_merge_sort. apply _. Qed.

(** *** Sequences of operations *)

Inductive operation : Type :=
| increase (key : nat) (value : Z)
| decrease (key : nat) (value : Z).

Definition apply_operation (t : FreqTable) (op : operation) : FreqTable :=
  match op with
  | increase key value => Increase t key value
  | decrease key value => (Decrease t key value).2
  end.

Definition run (ops : list operation) (t : FreqTable) : FreqTable :=
  fold_left apply_operation ops t.

(** The arguments are a byte and a [uint64]. *)
Definition well_typed (op : operation) : Prop :=
  match op with
  | increase key value | decrease key value => key < 256 /\ (0 <= value < 2 ^ 64)%Z
  end.

(** No [Increase] of the sequence takes a count past [2^64 - 1]. *)
Fixpoint no_overflow (t : FreqTable) (ops : list operation) : Prop :=
  match ops with
  | [] => True
  | op :: ops' =>
      match op with
      | increase key value => (count_of t key + value < 2 ^ 64)%Z
      | decrease _ _ => True
      end /\ no_overflow (apply_operation t op) ops'
  end.

Lemma apply_operation_invariant t op :
  well_typed op -> consistent t -> counts_in_range t ->
  consistent (apply_operation t op) /\ counts_in_range (apply_operation t op) /\
  (sorted t -> no_overflow t [op] -> sorted (apply_operation t op)).
Proof.
  intros Htyped Hcons Hrange. destruct op as [key value | key value];
    cbn [apply_operation well_typed no_overflow] in *; destruct Htyped as [Hkey Hvalue].
  - destruct (Increase_consistent t key value Hcons Hrange Hkey) as (H1 & H2 & _ & H3).
    split; [assumption|]. split; [assumption|].
    intros Hsorted [Hfit _]. apply H3; (assumption || lia).
  - destruct (Z.lt_ge_cases (count_of t key) value) as [Hlt | Hge].
    + rewrite Decrease_fails by assumption. cbn [snd]. auto.
    + destruct (Decrease_succeeds t key value Hcons Hrange Hkey ltac:(lia))
        as (t' & -> & H1 & H2 & _ & H3).
      cbn [snd]. auto.
Qed.

Lemma run_invariant ops : forall t,
  Forall well_typed ops -> consistent t -> counts_in_range t ->
  consistent (run ops t) /\
  (sorted t -> no_overflow t ops -> sorted (run ops t)).
Proof.
  induction ops as [|op ops IH]; intros t Htyped Hcons Hrange.
  - cbn. auto.
  - inversion Htyped as [|? ? Hop Hops]; subst.
    destruct (apply_operation_invariant t op Hop Hcons Hrange) as (H1 & H2 & H3).
    destruct (IH (apply_operation t op) Hops H1 H2) as [H4 H5].
    cbn [run fold_left]. split; [exact H4|].
    intros Hsorted [Hfit Hrest]. apply H5; [|exact Hrest].
    apply H3; [exact Hsorted|]. cbn. split; [|exact I].
    destruct op; [exact Hfit | exact I].
Qed.

(** C2. For a table in a consistent state, a byte [key] and a [uint64]
    [delta]: when [delta] exceeds the count of [key], [Decrease] returns
    failure and the table it leaves is the one it was given; otherwise it
    succeeds and the count of [key] is smaller by [delta]. *)
Theorem Decrease_fails_unchanged_or_subtracts (t : FreqTable) (key : nat) (delta : Z) :
  consistent t -> counts_in_range t -> key < 256 -> (0 <= delta < 2 ^ 64)%Z ->
  ((count_of t key < delta)%Z -> Decrease t key delta = (false, t)) /\
  ((delta <= count_of t key)%Z ->
   exists t', Decrease t key delta = (true, t') /\
              count_of t' key = (count_of t key - delta)%Z).
Proof.
  intros Hcons Hrange Hkey Hdelta. split.
  - apply Decrease_fails.
  - intros Hle.
    destruct (Decrease_succeeds t key delta Hcons Hrange Hkey ltac:(lia))
      as (t' & Hdec & _ & _ & Hcount & _).
    eauto.
Qed.

Definition five_each : list Z := replicate 256 5%Z.

Lemma five_each_range : Forall (fun f => 0 <= f < 2 ^ 64)%Z five_each.
Proof. apply Forall_replicate. lia. Qed.

Lemma Decrease_fails_unchanged_or_subtracts_witness :
  let t := FreqTable_of sort_by_count five_each in
  ((count_of t 7 < 3)%Z -> Decrease t 7 3 = (false, t)) /\
  ((3 <= count_of t 7)%Z ->
   exists t', Decrease t 7 3 = (true, t') /\ count_of t' 7 = (count_of t 7 - 3)%Z).
Proof.
  apply (Decrease_fails_unchanged_or_subtracts (FreqTable_of sort_by_count five_each) 7 3).
  - apply constructed_consistent.
    + apply sort_by_count_Permutation.
    + reflexivity.
  - apply constructed_range.
    + apply sort_by_count_Permutation.
    + reflexivity.
    + apply five_each_range.
  - lia.
  - lia.
Defined.

(** A table whose two largest counts are 1 and 2, and an [Increase] that
    wraps the larger around to 0. *)
Definition one_and_two : list Z := 1%Z :: 2%Z :: replicate 254 0%Z.

(** The sum [2 + (2^64 - 2)] wraps to 0 in the last slot, which [Increase]
    only ever moves up: the table is no longer sorted. *)
Lemma Increase_overflow_not_sorted :
  ~ sorted (run [increase 1 (2 ^ 64 - 2)] (FreqTable_of sort_by_count one_and_two)).
Proof.
  intros Hsorted. specialize (Hsorted 254 255 ltac:(lia) ltac:(lia)).
  vm_compute in Hsorted. apply Hsorted. reflexivity.
Qed.

(** C3, amended. For a table constructed from 256 frequencies and a sequence
    of [Increase] and [Decrease] in which no [Increase] takes a count past
    [2^64 - 1], afterwards the counts are in ascending order and
    [location[key(i)] == i] for every [i] below 256. *)
Theorem FreqTable_sorted_and_located
    (sort_asc : list (nat * Z) -> list (nat * Z))
    (frequencies : list Z) (ops : list operation) :
  (forall l, sort_asc l ≡ₚ l) -> (forall l, Sorted count_le (sort_asc l)) ->
  length frequencies = 256 -> Forall (fun f => 0 <= f < 2 ^ 64)%Z frequencies ->
  Forall well_typed ops -> no_overflow (FreqTable_of sort_asc frequencies) ops ->
  let t := run ops (FreqTable_of sort_asc frequencies) in
  sorted t /\ forall i, i < 256 -> location_ t !!! Key t i = i.
Proof.
  intros Hperm Hsort Hlen Hfreq Htyped Hfit.
  pose proof (constructed_consistent sort_asc Hperm frequencies Hlen) as Hcons.
  pose proof (constructed_range sort_asc Hperm frequencies Hlen Hfreq) as Hrange.
  pose proof (constructed_sorted sort_asc Hperm Hsort frequencies Hlen) as Hsorted.
  destruct (run_invariant ops _ Htyped Hcons Hrange) as [Hcons' Hsorted'].
  cbv zeta. split; [now apply Hsorted'|].
  intros i Hi. now apply (location_Key _ Hcons').
Qed.

Lemma FreqTable_sorted_and_located_witness :
  let t := run [decrease 0 1; increase 1 7; decrease 1 9]
               (FreqTable_of sort_by_count one_and_two) in
  sorted t /\ forall i, i < 256 -> location_ t !!! Key t i = i.
Proof.
  apply (FreqTable_sorted_and_located sort_by_count one_and_two
           [decrease 0 1; increase 1 7; decrease 1 9]).
  - apply sort_by_count_Permutation.
  - apply sort_by_count_Sorted.
  - reflexivity.
  - repeat constructor; lia.
  - repeat constructor; cbn; lia.
  - vm_compute. repeat split; discriminate.
Defined.

End Preprocessor.

(** ** Replacing the most common pairs ([preprocessors/preprocessor.cc]) *)

Module CommonPairs.
Import Word Preprocessor.

(** What a call comes to: it returns, an [assert] of the source fails, or
    it leaves the bounds of an array, where C++ defines nothing.
    [OutOfSteps] belongs to the model only: the loops below are given a
    number of steps, which the source's loops do not use up. *)
Inductive outcome (A : Type) : Type :=
| Returns (a : A)
| AssertionFails
| Undefined
| OutOfSteps.
Arguments Returns {A} a.
Arguments AssertionFails {A}.
Arguments Undefined {A}.
Arguments OutOfSteps {A}.

(** The statements of a function run in sequence, written [x ← m; k]:
    the first that does not return ends the call. *)
#[local] Instance outcome_bind : MBind outcome := fun A B k m =>
  match m with
  | Returns a => k a
  | AssertionFails => AssertionFails
  | Undefined => Undefined
  | OutOfSteps => OutOfSteps
  end.

(** A pair of bytes with its frequency: [std::pair<uint16, uint32>]. *)
Definition pair_freq : Type := Z * Z.

(** [static_cast<byte>((p.first & 0xFF00) >> 8)] and
    [static_cast<byte>(p.first & 0x00FF)]. *)
Definition first_byte (p : pair_freq) : Z := wrap8 (Z.shiftr (Z.land p.1 0xFF00) 8).
Definition second_byte (p : pair_freq) : Z := wrap8 (Z.land p.1 0x00FF).

(** The number of pairs of bytes, 65536: the length of [pair_freqs] and of
    [replacements]. *)
Definition pairs : nat := 256 * 256.

(** [InitPairsWithValue<uint16, uint32>(pair_freq, 0, 65536)]: slot [i] is
    [(static_cast<uint16>(i), v)]. The loop is written from slot [i] on. *)
Fixpoint InitPairsWithValue_from (i : Z) (v : Z) (length : nat) : list pair_freq :=
  match length with
  | O => []
  | S length' => (wrap16 i, v) :: InitPairsWithValue_from (i + 1)%Z v length'
  end.

Definition InitPairsWithValue (v : Z) (length : nat) : list pair_freq :=
  InitPairsWithValue_from 0 v length.

(** [++a[i]] on an array of [w]-bit counters. *)
Definition increment (w : Z) (a : list Z) (i : nat) : list Z :=
  <[i := wrap w (a !!! i + 1)]> a.

Definition increment_second (a : list pair_freq) (i : nat) : list pair_freq :=
  <[i := ((a !!! i).1, wrap32 ((a !!! i).2 + 1))]> a.

(** [ComputePairFrequencies]: [index] is the [uint16] holding the last two
    bytes. *)
Definition ComputePairFrequencies (data : list Z) (freqs : list Z)
    (pair_freqs : list pair_freq) (len : nat) : list Z * list pair_freq :=
  let index := data !!! 0 in
  let freqs := increment 64 freqs (Z.to_nat index) in
  let '(freqs, pair_freqs, _) :=
    fold_left
      (fun '(freqs, pair_freqs, index) i =>
         let freqs := increment 64 freqs (Z.to_nat (data !!! i)) in
         let index := wrap16 (Z.shiftl index 8) in
         let index := Z.lor index (data !!! i) in
         (freqs, increment_second pair_freqs (Z.to_nat index), index))
      (seq 1 (len - 1)) (freqs, pair_freqs, index) in
  (freqs, pair_freqs).

Section Build.

(** [NDEBUG]: whether the build leaves the assertions out. *)
Variable ndebug : bool.

Definition assert (condition : bool) : outcome unit :=
  if condition || ndebug then Returns tt else AssertionFails.

(** [std::partial_sort(pair_freqs + first, pair_freqs + middle,
    pair_freqs + 65536, ComparePairSecondDesc)]. The order it leaves the
    slots from [middle] on in, and equal frequencies before it, is not
    specified: the function is a parameter. *)
Variable partial_sort : nat -> nat -> list pair_freq -> list pair_freq.

(** The loop over the pairs chosen so far, which looks for a conflict. *)
Definition conflicts (replaceable_pairs : list pair_freq) (fst snd : Z) : bool :=
  existsb (fun it => (first_byte it =? snd)%Z || (second_byte it =? fst)%Z)
          replaceable_pairs.

Definition restore (freqs : FreqTable) (fst snd : Z) (value : Z) : FreqTable :=
  Increase (Increase freqs (Z.to_nat fst) value) (Z.to_nat snd) value.

(** The loop [while(replaceable_pairs->size() < 254)] of
    [FindReplaceablePairs], and the assertion after it. *)
Fixpoint FindReplaceablePairs_loop (steps : nat)
    (replaceable_pairs pair_freqs : list pair_freq) (freqs : FreqTable)
    (current_pair current_symbol limit : nat)
  : outcome (list pair_freq * list pair_freq * FreqTable) :=
  match steps with
  | O => OutOfSteps
  | S steps' =>
      if 254 <=? length replaceable_pairs then
        assert (current_symbol =? length replaceable_pairs);;
        Returns (replaceable_pairs, pair_freqs, freqs)
      else
        '(limit, pair_freqs) ←
          (if limit <=? current_pair + 1 then
             let limit := limit + 256 in
             assert (limit <? pairs);;
             if pairs <? limit then Undefined
             else Returns (limit, partial_sort current_pair limit pair_freqs)
           else Returns (limit, pair_freqs));
        let candidate := pair_freqs !!! current_pair in
        let fst := first_byte candidate in
        let snd := second_byte candidate in
        if (fst =? snd)%Z then
          FindReplaceablePairs_loop steps' replaceable_pairs pair_freqs freqs
            (S current_pair) current_symbol limit
        else
          match Decrease freqs (Z.to_nat fst) candidate.2 with
          | (false, _) =>
              FindReplaceablePairs_loop steps' replaceable_pairs pair_freqs freqs
                (S current_pair) current_symbol limit
          | (true, freqs) =>
              match Decrease freqs (Z.to_nat snd) candidate.2 with
              | (false, _) =>
                  FindReplaceablePairs_loop steps' replaceable_pairs pair_freqs
                    (Increase freqs (Z.to_nat fst) candidate.2)
                    (S current_pair) current_symbol limit
              | (true, freqs) =>
                  (* Condition (p1) *)
                  if (candidate.2 <=? wrap64 (count_at freqs current_symbol + 3))%Z then
                    assert (current_symbol =? length replaceable_pairs);;
                    Returns (replaceable_pairs, pair_freqs,
                             restore freqs fst snd candidate.2)
                  else if conflicts replaceable_pairs fst snd then
                    FindReplaceablePairs_loop steps' replaceable_pairs pair_freqs
                      (restore freqs fst snd candidate.2)
                      (S current_pair) current_symbol limit
                  else
                    FindReplaceablePairs_loop steps'
                      (replaceable_pairs ++ [candidate]) pair_freqs freqs
                      (S current_pair) (S current_symbol) limit
              end
          end
  end.

(** [FindReplaceablePairs], called with an empty vector. It returns the
    vector, and the array and the table as it leaves them. *)
Definition FindReplaceablePairs (pair_freqs : list pair_freq) (freqs : FreqTable)
  : outcome (list pair_freq * list pair_freq * FreqTable) :=
  FindReplaceablePairs_loop (S pairs) [] pair_freqs freqs 0 0 0.

(** [static_cast<int64>] of a [uint64]. *)
Definition to_int64 (x : Z) : Z := if (x <? 2 ^ 63)%Z then x else (x - 2 ^ 64)%Z.

(** [suitable_pairs[i].second - freqs[i] - 3], taken in [uint64]. *)
Definition gain (suitable_pairs : list pair_freq) (freqs : FreqTable) (i : nat) : Z :=
  wrap64 (wrap64 ((suitable_pairs !!! i).2 - count_at freqs i) - 3).

(** The loop [while(utility <= static_cast<int64>(freqs[i]) &&
    i > free_symbols)] of [EscapeCharIndex]; [utility] is an [int64]. *)
Fixpoint EscapeCharIndex_loop (i : nat) (utility : Z) (freqs : FreqTable)
    (suitable_pairs : list pair_freq) (free_symbols : nat) : nat * FreqTable :=
  match i with
  | O => (O, freqs)
  | S i' =>
      if (utility <=? to_int64 (count_at freqs i))%Z && (free_symbols <? i) then
        let candidate := suitable_pairs !!! i' in
        let freqs := restore freqs (first_byte candidate) (second_byte candidate)
                             candidate.2 in
        let utility := to_int64 (wrap64 (utility - gain suitable_pairs freqs i')) in
        EscapeCharIndex_loop i' utility freqs suitable_pairs free_symbols
      else (i, freqs)
  end.

(** [EscapeCharIndex]: the index it returns and the table as it leaves it. *)
Definition EscapeCharIndex (freqs : FreqTable) (suitable_pairs : list pair_freq)
    (free_symbols : nat) : nat * FreqTable :=
  if length suitable_pairs <=? free_symbols then (free_symbols, freqs)
  else
    let utility :=
      fold_left
        (fun utility i => to_int64 (wrap64 (utility + gain suitable_pairs freqs i)))
        (seq free_symbols (length suitable_pairs - free_symbols)) 0%Z in
    EscapeCharIndex_loop (length suitable_pairs) utility freqs suitable_pairs
                         free_symbols.

(** [WriteBytes]: the two bytes of a [uint16], high byte first. *)
Definition WriteBytes (value : Z) : list Z :=
  [wrap8 (Z.shiftr value 8); Z.land value 0xFF].

(** The loop [while(1)] of [WriteReplacements]. [to] holds the bytes written
    so far, so [result_index] is its length; [i] and [length] are [uint64],
    [pair] is a [uint16]. Every iteration advances [i] or leaves the loop. *)
Fixpoint WriteReplacements_loop (steps : nat) (replacements : list Z)
    (from : list Z) (length : Z) (common_byte escape_byte : Z)
    (to : list Z) (pair i : Z) : outcome (list Z) :=
  match steps with
  | O => OutOfSteps
  | S steps' =>
      let pair := wrap16 (Z.shiftl pair 8) in
      let pair := Z.lor pair (from !!! Z.to_nat i) in
      let replacement := replacements !!! Z.to_nat pair in
      let last (to : list Z) (pair i : Z) : outcome (list Z) :=
        if (wrap64 (length - 1) <=? i)%Z then
          assert (i =? wrap64 (length - 1))%Z;;
          let to :=
            if ((from !!! Z.to_nat i) =? escape_byte)%Z
               && negb (escape_byte =? common_byte)%Z
            then to ++ [escape_byte] else to in
          Returns (to ++ [from !!! Z.to_nat i])
        else
          WriteReplacements_loop steps' replacements from length
            common_byte escape_byte to pair (i + 1)%Z in
      if (replacement =? common_byte)%Z then
        last (to ++ [from !!! Z.to_nat (i - 1)]) pair i
      else if (replacement =? escape_byte)%Z then
        last (to ++ [escape_byte; from !!! Z.to_nat (i - 1)]) pair i
      else
        let to := to ++ [replacement] in
        if (i =? wrap64 (length - 1))%Z then Returns to
        else
          let i := (i + 1)%Z in
          last to (from !!! Z.to_nat i) i
  end.

(** [WriteReplacements]: the bytes written to [to]; it returns their
    number. *)
Definition WriteReplacements (replacements : list Z) (from : list Z) (length : Z)
    (common_byte escape_byte : Z) : outcome (list Z) :=
  WriteReplacements_loop (S (Z.to_nat length)) replacements from length
    common_byte escape_byte [] (from !!! 0) 1%Z.

(** [std::sort] in the constructor of the table. *)
Variable sort_asc : list (nat * Z) -> list (nat * Z).

(** [while(freqs[free_symbols] == 0) ++free_symbols;] *)
Fixpoint count_free_symbols (steps : nat) (freqs : FreqTable) (free_symbols : nat)
  : outcome nat :=
  match steps with
  | O => Undefined
  | S steps' =>
      if (count_at freqs free_symbols =? 0)%Z
      then count_free_symbols steps' freqs (S free_symbols)
      else Returns free_symbols
  end.

(** One replacement in the table and its three bytes in the header. *)
Definition add_replacement (freqs : FreqTable) (common_byte escape_byte : Z)
    (replaceable_pairs : list pair_freq) (k : nat)
    (state : list Z * list Z) : outcome (list Z * list Z) :=
  let '(replacements, temp) := state in
  let candidate := replaceable_pairs !!! k in
  let replacements := <[Z.to_nat candidate.1 := Z.of_nat (Key freqs k)]> replacements in
  assert (negb (Z.of_nat (Key freqs k) =? common_byte)%Z);;
  assert (negb (Z.of_nat (Key freqs k) =? escape_byte)%Z);;
  Returns (replacements, temp ++ [Z.of_nat (Key freqs k)] ++ WriteBytes candidate.1).

(** The 256 pairs that begin with the byte [Key(i)] are marked for escaping
    where they have no replacement. *)
Definition escape_row (freqs : FreqTable) (common_byte escape_byte : Z)
    (i : nat) (replacements : list Z) : list Z :=
  let pair_value := wrap16 (Z.shiftl (Z.of_nat (Key freqs i)) 8) in
  fold_left
    (fun replacements j =>
       let pair_value := Z.to_nat (wrap16 (pair_value + Z.of_nat j)) in
       if (replacements !!! pair_value =? common_byte)%Z
       then <[pair_value := escape_byte]> replacements
       else replacements)
    (seq 0 256) replacements.

Definition foldM {A B : Type} (f : B -> A -> outcome A) (l : list B) (a : A)
  : outcome A :=
  fold_left (fun m b => a ← m; f b a) l (Returns a).

(** The pairs [CompressCommonPairs] selects in a block: its call of
    [FindReplaceablePairs], on the frequencies of the block. *)
Definition selected_pairs (from : list Z) (length : nat) : outcome (list pair_freq) :=
  let freq := replicate 256 0%Z in
  let pair_freq := InitPairsWithValue 0 pairs in
  let '(freq, pair_freq) := ComputePairFrequencies from freq pair_freq length in
  let freqs := FreqTable_of sort_asc freq in
  '(replaceable_pairs, _, _) ← FindReplaceablePairs pair_freq freqs;
  Returns replaceable_pairs.

(** [CompressCommonPairs]. [from] is the buffer, of [length + 3] bytes at
    least, with the data in its first [length] bytes. It returns
    [total_size] and the buffer as [std::copy] leaves it. *)
Definition CompressCommonPairs (from : list Z) (length : nat) : outcome (Z * list Z) :=
  assert (0 <? length);;
  let freq := replicate 256 0%Z in
  let pair_freq := InitPairsWithValue 0 pairs in
  let '(freq, pair_freq) := ComputePairFrequencies from freq pair_freq length in
  let freqs := FreqTable_of sort_asc freq in
  free_symbols ← count_free_symbols 256 freqs 0;
  '(replaceable_pairs, _, freqs) ← FindReplaceablePairs pair_freq freqs;
  let '(escape_index, freqs) :=
    if free_symbols <? List.length replaceable_pairs
    then EscapeCharIndex freqs replaceable_pairs free_symbols
    else (free_symbols, freqs) in
  let common_byte := Z.of_nat (Key freqs 255) in
  let escape_byte :=
    if free_symbols <? escape_index then Z.of_nat (Key freqs escape_index)
    else common_byte in
  let replacements := replicate pairs common_byte in
  let candidates := List.length replaceable_pairs in
  let k := free_symbols `min` candidates in
  '(replacements, temp) ←
    foldM (add_replacement freqs common_byte escape_byte replaceable_pairs)
          (seq 0 k) (replacements, []);
  let symbols_in_use := k in
  '(replacements, temp, symbols_in_use) ←
    (if free_symbols <? escape_index then
       '(replacements, temp) ←
         foldM (fun i '(replacements, temp) =>
                  let replacements :=
                    escape_row freqs common_byte escape_byte i replacements in
                  if i <? escape_index
                  then add_replacement freqs common_byte escape_byte
                         replaceable_pairs i (replacements, temp)
                  else Returns (replacements, temp))
               (seq free_symbols (S escape_index - free_symbols))
               (replacements, temp);
       Returns (replacements, temp, symbols_in_use + (escape_index - free_symbols) + 1)
     else Returns (replacements, temp, symbols_in_use));
  let new_symbols :=
    if free_symbols =? escape_index then 0%Z
    else wrap32 (Z.of_nat symbols_in_use - Z.of_nat free_symbols) in
  let dummy :=
    if (0 <? new_symbols)%Z then Z.of_nat (Key freqs (escape_index - 1))
    else if 0 <? symbols_in_use then Z.of_nat (Key freqs (symbols_in_use - 1))
    else wrap8 (escape_byte + 1) in
  let temp := temp ++ [dummy] in
  let temp :=
    if free_symbols <? escape_index then temp ++ [escape_byte]
    else if symbols_in_use =? 0 then temp ++ [dummy; dummy]
    else temp ++ [dummy] in
  let position := Z.of_nat (List.length temp) in
  written ← WriteReplacements replacements from (Z.of_nat length)
              common_byte escape_byte;
  let total_size := (position + Z.of_nat (List.length written))%Z in
  assert (total_size <=? Z.of_nat length + 3)%Z;;
  let temp := temp ++ written in
  Returns (total_size, temp ++ drop (List.length temp) from).

End Build.

Lemma bind_Returns {A B : Type} (m : outcome A) (k : A -> outcome B) (b : B) :
  m ≫= k = Returns b -> exists a, m = Returns a /\ k a = Returns b.
Proof. destruct m; cbn; intros H; try discriminate. eauto. Qed.

(** *** The selection is free of conflicts *)

(** No byte is the first of a chosen pair and the second of a chosen pair,
    of another pair or of the same. *)
Definition conflict_free (replaceable_pairs : list pair_freq) : Prop :=
  forall p q, p ∈ replaceable_pairs -> q ∈ replaceable_pairs ->
    first_byte p <> second_byte q.

Lemma conflicts_false replaceable_pairs fst snd :
  conflicts replaceable_pairs fst snd = false ->
  forall it, it ∈ replaceable_pairs -> first_byte it <> snd /\ second_byte it <> fst.
Proof.
  unfold conflicts. intros Hnone it Hit.
  assert (~ (first_byte it =? snd)%Z || (second_byte it =? fst)%Z = true) as Hit'.
  { intros Hc. assert (existsb (fun it => (first_byte it =? snd)%Z
                                          || (second_byte it =? fst)%Z)
                         replaceable_pairs = true) as Hex.
    { apply existsb_exists. exists it. split; [now apply list_elem_of_In | exact Hc]. }
    congruence. }
  split; intros Heq; apply Hit'; rewrite Heq, Z.eqb_refl; [reflexivity|].
  apply orb_true_r.
Qed.

Lemma conflict_free_snoc replaceable_pairs candidate :
  conflict_free replaceable_pairs ->
  first_byte candidate <> second_byte candidate ->
  conflicts replaceable_pairs (first_byte candidate) (second_byte candidate) = false ->
  conflict_free (replaceable_pairs ++ [candidate]).
Proof.
  intros Hfree Hne Hnone p q Hp Hq.
  pose proof (conflicts_false _ _ _ Hnone) as Hold.
  apply elem_of_app in Hp as [Hp | Hp]; apply elem_of_app in Hq as [Hq | Hq];
    rewrite ?list_elem_of_singleton in *; subst.
  - now apply Hfree.
  - now apply Hold.
  - intros Heq. destruct (Hold q Hq) as [_ Hsec]. congruence.
  - exact Hne.
Qed.

Section Selection.

Variable ndebug : bool.
Variable partial_sort : nat -> nat -> list pair_freq -> list pair_freq.

Lemma FindReplaceablePairs_loop_conflict_free steps :
  forall replaceable_pairs pair_freqs freqs current_pair current_symbol limit result,
    conflict_free replaceable_pairs ->
    FindReplaceablePairs_loop ndebug partial_sort steps replaceable_pairs pair_freqs
      freqs current_pair current_symbol limit = Returns result ->
    conflict_free result.1.1.
Proof.
  induction steps as [|steps IH];
    intros rp pf ft cp cs limit result Hfree; cbn [FindReplaceablePairs_loop].
  - discriminate.
  - destruct (254 <=? length rp).
    { intros Hret. apply bind_Returns in Hret as (_ & _ & [= <-]). exact Hfree. }
    intros Hret. apply bind_Returns in Hret as ([limit' pf'] & _ & Hret).
    set (candidate := pf' !!! cp) in *.
    destruct (Z.eqb_spec (first_byte candidate) (second_byte candidate)) as [Heq | Hne].
    { eapply IH; eassumption. }
    destruct (Decrease ft (Z.to_nat (first_byte candidate)) candidate.2) as [[] ft1].
    2:{ eapply IH; eassumption. }
    destruct (Decrease ft1 (Z.to_nat (second_byte candidate)) candidate.2) as [[] ft2].
    2:{ eapply IH; eassumption. }
    destruct (candidate.2 <=? wrap64 (count_at ft2 cs + 3))%Z.
    { apply bind_Returns in Hret as (_ & _ & [= <-]). exact Hfree. }
    destruct (conflicts rp (first_byte candidate) (second_byte candidate)) eqn:Hconf.
    { eapply IH; eassumption. }
    eapply IH; [|eassumption]. now apply conflict_free_snoc.
Qed.

Lemma FindReplaceablePairs_conflict_free pair_freqs freqs result :
  FindReplaceablePairs ndebug partial_sort pair_freqs freqs = Returns result ->
  conflict_free result.1.1.
Proof.
  apply FindReplaceablePairs_loop_conflict_free.
  intros p q Hp. inversion Hp.
Qed.

(** The steps given to the loop are never used up: [current_pair] stays
    below [limit], which stays within the array. *)
Lemma FindReplaceablePairs_loop_steps steps :
  forall replaceable_pairs pair_freqs freqs current_pair current_symbol limit,
    current_pair <= limit -> limit <= pairs -> pairs < steps + current_pair ->
    FindReplaceablePairs_loop ndebug partial_sort steps replaceable_pairs pair_freqs
      freqs current_pair current_symbol limit <> OutOfSteps.
Proof.
  induction steps as [|steps IH]; intros rp pf ft cp cs limit Hcp Hlimit Hsteps;
    cbn [FindReplaceablePairs_loop].
  - lia.
  - destruct (254 <=? length rp).
    { unfold assert. destruct (_ || _); cbn [mbind outcome_bind]; discriminate. }
    assert (forall A (m : outcome A), m <> OutOfSteps ->
              forall B (k : A -> outcome B),
                (forall a, m = Returns a -> k a <> OutOfSteps) ->
                m ≫= k <> OutOfSteps) as Hbind.
    { intros A m Hm B k Hk.
      destruct m; cbn [mbind outcome_bind]; try discriminate; [|congruence].
      now apply Hk. }
    apply Hbind.
    { destruct (limit <=? cp + 1); [|discriminate].
      unfold assert. destruct (_ || _); cbn [mbind outcome_bind]; [|discriminate].
      destruct (_ <? _); discriminate. }
    intros [limit' pf'] Hsorted.
    assert (S cp <= limit' /\ limit' <= pairs) as [Hcp' Hlimit'].
    { destruct (Nat.leb_spec limit (cp + 1)).
      - apply bind_Returns in Hsorted as (_ & _ & Hsorted).
        destruct (pairs <? limit + 256) eqn:Hin; [inversion Hsorted|].
        apply Nat.ltb_ge in Hin. injection Hsorted as <- _. lia.
      - injection Hsorted as <- _. lia. }
    destruct (_ =? _)%Z; [apply IH; lia|].
    destruct (Decrease ft _ _) as [[] ft1]; [|apply IH; lia].
    destruct (Decrease ft1 _ _) as [[] ft2]; [|apply IH; lia].
    destruct (_ <=? _)%Z.
    { unfold assert. destruct (_ || _); cbn [mbind outcome_bind]; discriminate. }
    destruct (conflicts _ _ _); apply IH; lia.
Qed.

Lemma FindReplaceablePairs_steps pair_freqs freqs :
  FindReplaceablePairs ndebug partial_sort pair_freqs freqs <> OutOfSteps.
Proof. apply FindReplaceablePairs_loop_steps; lia. Qed.

End Selection.

(** A [std::partial_sort] to run the selection with: it sorts all the slots
    from [first] on, most frequent pair first. *)
Definition freq_ge (p q : pair_freq) : Prop := (q.2 <= p.2)%Z.

#[local] Instance freq_ge_dec p q : Decision (freq_ge p q).
Proof. unfold freq_ge. apply _. Defined.

Definition sort_from (first middle : nat) (pair_freqs : list pair_freq)
  : list pair_freq :=
  take first pair_freqs ++ merge_sort freq_ge (drop first pair_freqs).

(** The block ["ababababab"], with three bytes of headroom. *)
Definition ababababab : list Z := [97; 98; 97; 98; 97; 98; 97; 98; 97; 98; 0; 0; 0]%Z.

Example selected_pairs_ababababab :
  selected_pairs false sort_from sort_by_count ababababab 10
  = Returns [(0x6162, 5)%Z].
Proof. vm_compute. reflexivity. Qed.

(** No byte is the first symbol of one selected pair and the second symbol
    of a selected pair. *)
Definition no_shared_byte (replaceable_pairs : list pair_freq) : Prop :=
  forall p q, p ∈ replaceable_pairs -> q ∈ replaceable_pairs ->
    first_byte p <> second_byte q /\ second_byte p <> first_byte q.

(** C6. For every block, the pairs [FindReplaceablePairs] returns are free
    of conflicts: for selected pairs (f, s) and (f', s'), f is not s' and s
    is not f'. *)
Theorem selected_pairs_conflict_free
    (ndebug : bool) (partial_sort : nat -> nat -> list pair_freq -> list pair_freq)
    (sort_asc : list (nat * Z) -> list (nat * Z))
    (from : list Z) (length : nat) (replaceable_pairs : list pair_freq) :
  selected_pairs ndebug partial_sort sort_asc from length = Returns replaceable_pairs ->
  no_shared_byte replaceable_pairs.
Proof.
  unfold selected_pairs.
  destruct (ComputePairFrequencies _ _ _ _) as [freq pair_freq].
  intros Hret. apply bind_Returns in Hret as ([[rp pf] ft] & Hfind & [= <-]).
  apply FindReplaceablePairs_conflict_free in Hfind. cbn [fst] in Hfind.
  intros p q Hp Hq. split; [now apply Hfind|].
  intros Heq. now apply (Hfind q p Hq Hp).
Qed.

Lemma selected_pairs_conflict_free_witness :
  selected_pairs false sort_from sort_by_count ababababab 10 = Returns [(0x6162, 5)%Z]
  /\ no_shared_byte [(0x6162, 5)%Z].
Proof.
  split; [exact selected_pairs_ababababab|].
  apply (selected_pairs_conflict_free false sort_from sort_by_count ababababab 10).
  exact selected_pairs_ababababab.
Defined.

(** The block ["aaaaaaaabcbcbcbcbc"]: the pair (a, a) occurs seven times,
    the pair (b, c) five times. *)
Definition aaaaaaaabcbcbcbcbc : list Z :=
  [97; 97; 97; 97; 97; 97; 97; 97; 98; 99; 98; 99; 98; 99; 98; 99; 98; 99; 0; 0; 0]%Z.

Example selected_pairs_aaaaaaaabcbcbcbcbc :
  selected_pairs false sort_from sort_by_count aaaaaaaabcbcbcbcbc 18
  = Returns [(0x6263, 5)%Z].
Proof. vm_compute. reflexivity. Qed.

Definition no_repeated_byte (replaceable_pairs : list pair_freq) : Prop :=
  forall p, p ∈ replaceable_pairs -> first_byte p <> second_byte p.

(** C10. For every block, [FindReplaceablePairs] selects no pair whose two
    bytes are equal, whatever its frequency. *)
Theorem selected_pairs_no_repeated_byte
    (ndebug : bool) (partial_sort : nat -> nat -> list pair_freq -> list pair_freq)
    (sort_asc : list (nat * Z) -> list (nat * Z))
    (from : list Z) (length : nat) (replaceable_pairs : list pair_freq) :
  selected_pairs ndebug partial_sort sort_asc from length = Returns replaceable_pairs ->
  no_repeated_byte replaceable_pairs.
Proof.
  unfold selected_pairs.
  destruct (ComputePairFrequencies _ _ _ _) as [freq pair_freq].
  intros Hret. apply bind_Returns in Hret as ([[rp pf] ft] & Hfind & [= <-]).
  apply FindReplaceablePairs_conflict_free in Hfind. cbn [fst] in Hfind.
  intros p Hp. now apply Hfind.
Qed.

Lemma selected_pairs_no_repeated_byte_witness :
  selected_pairs false sort_from sort_by_count aaaaaaaabcbcbcbcbc 18
  = Returns [(0x6263, 5)%Z]
  /\ no_repeated_byte [(0x6263, 5)%Z].
Proof.
  split; [exact selected_pairs_aaaaaaaabcbcbcbcbc|].
  apply (selected_pairs_no_repeated_byte false sort_from sort_by_count
           aaaaaaaabcbcbcbcbc 18).
  exact selected_pairs_aaaaaaaabcbcbcbcbc.
Defined.

(** *** The steps of the model are never used up *)

Lemma bind_steps {A B : Type} (m : outcome A) (k : A -> outcome B) :
  m <> OutOfSteps -> (forall a, m = Returns a -> k a <> OutOfSteps) ->
  m ≫= k <> OutOfSteps.
Proof.
  intros Hm Hk. destruct m; cbn [mbind outcome_bind]; try discriminate; [|congruence].
  now apply Hk.
Qed.

Lemma assert_steps ndebug condition : assert ndebug condition <> OutOfSteps.
Proof. unfold assert. destruct (_ || _); discriminate. Qed.

Lemma WriteReplacements_loop_steps ndebug replacements from length common_byte
    escape_byte steps :
  (0 < length < 2 ^ 64)%Z ->
  forall to pair i,
    (i <= length)%Z -> (length + 2 <= Z.of_nat steps + i)%Z ->
    WriteReplacements_loop ndebug steps replacements from length common_byte
      escape_byte to pair i <> OutOfSteps.
Proof.
  intros Hlength.
  assert (wrap64 (length - 1) = (length - 1)%Z) as Hwrap.
  { unfold wrap64. apply wrap_small. lia. }
  induction steps as [|steps IH]; intros to pair i Hi Hsteps.
  - lia.
  - cbn [WriteReplacements_loop]. rewrite Hwrap.
    assert (forall to pair i,
              (length + 1 <= Z.of_nat steps + i)%Z ->
              (if (length - 1 <=? i)%Z
               then
                 assert ndebug (i =? length - 1)%Z;;
                 Returns
                   ((if (from !!! Z.to_nat i =? escape_byte)%Z
                        && negb (escape_byte =? common_byte)%Z
                     then to ++ [escape_byte] else to) ++ [from !!! Z.to_nat i])
               else
                 WriteReplacements_loop ndebug steps replacements from length
                   common_byte escape_byte to pair (i + 1)) <> OutOfSteps) as Hlast.
    { intros to' pair' i' Hsteps'.
      destruct (Z.leb_spec (length - 1) i').
      - apply bind_steps; [apply assert_steps | discriminate].
      - apply IH; lia. }
    destruct (replacements !!! _ =? common_byte)%Z; [apply Hlast; lia|].
    destruct (replacements !!! _ =? escape_byte)%Z; [apply Hlast; lia|].
    destruct (Z.eqb_spec i (length - 1)); [discriminate|].
    apply Hlast; lia.
Qed.

Lemma WriteReplacements_steps ndebug replacements from length common_byte escape_byte :
  (0 < length < 2 ^ 64)%Z ->
  WriteReplacements ndebug replacements from length common_byte escape_byte
  <> OutOfSteps.
Proof.
  intros Hlength. unfold WriteReplacements.
  apply WriteReplacements_loop_steps; [assumption | lia | lia].
Qed.

Lemma count_free_symbols_steps steps freqs free_symbols :
  count_free_symbols steps freqs free_symbols <> OutOfSteps.
Proof.
  revert free_symbols. induction steps as [|steps IH]; intros free_symbols;
    cbn [count_free_symbols]; [discriminate|].
  destruct (_ =? _)%Z; [apply IH | discriminate].
Qed.

Lemma foldM_steps {A B : Type} (f : B -> A -> outcome A) (l : list B) (a : A) :
  (forall b a, f b a <> OutOfSteps) -> foldM f l a <> OutOfSteps.
Proof.
  intros Hf. unfold foldM.
  assert (forall m : outcome A, m <> OutOfSteps ->
            fold_left (fun m b => a ← m; f b a) l m <> OutOfSteps) as Hfold.
  { induction l as [|b l IH]; intros m Hm; cbn [fold_left]; [exact Hm|].
    apply IH. apply bind_steps; [exact Hm | intros; apply Hf]. }
  apply Hfold. discriminate.
Qed.

Lemma add_replacement_steps ndebug freqs common_byte escape_byte replaceable_pairs k state :
  add_replacement ndebug freqs common_byte escape_byte replaceable_pairs k state
  <> OutOfSteps.
Proof.
  unfold add_replacement. destruct state as [replacements temp].
  apply bind_steps; [apply assert_steps|]. intros _ _.
  apply bind_steps; [apply assert_steps|]. discriminate.
Qed.

(** [CompressCommonPairs] returns, fails an assertion or leaves an array:
    the model never stops for want of steps. *)
Lemma CompressCommonPairs_steps ndebug partial_sort sort_asc from length :
  0 < length -> (Z.of_nat length < 2 ^ 64)%Z ->
  CompressCommonPairs ndebug partial_sort sort_asc from length <> OutOfSteps.
Proof.
  intros Hpos Hlength. unfold CompressCommonPairs.
  apply bind_steps; [apply assert_steps|]. intros _ _.
  destruct (ComputePairFrequencies _ _ _ _) as [freq pair_freq].
  apply bind_steps; [apply count_free_symbols_steps|]. intros free_symbols _.
  apply bind_steps; [apply FindReplaceablePairs_steps|].
  intros [[replaceable_pairs pair_freqs] freqs] _.
  destruct (if free_symbols <? List.length replaceable_pairs
            then EscapeCharIndex _ _ _ else _) as [escape_index freqs'].
  apply bind_steps.
  { apply foldM_steps. intros. apply add_replacement_steps. }
  intros [replacements temp] _.
  apply bind_steps.
  { destruct (free_symbols <? escape_index); [|discriminate].
    apply bind_steps.
    - apply foldM_steps. intros i [replacements' temp'].
      destruct (i <? escape_index); [apply add_replacement_steps | discriminate].
    - intros [replacements' temp'] _. discriminate. }
  intros [[replacements' temp'] symbols_in_use] _.
  apply bind_steps; [apply WriteReplacements_steps; lia|]. intros written _.
  apply bind_steps; [apply assert_steps|]. discriminate.
Qed.

(** *** The size [CompressCommonPairs] returns *)

(** A block of one byte, with three bytes of headroom. *)
Definition single_byte : list Z := [65; 0; 0; 0]%Z.

(** C1. The size returned is not at most [length + 3] for every block:
    on a block of one byte [WriteReplacements] starts with [i = 1], past
    [length - 1 = 0]: it writes [from[0]] and [from[1]], two bytes for one,
    after the three bytes of the header. Built with [NDEBUG] the function
    returns 5, more than [length + 3 = 4]; built with the assertions it stops
    at [assert(i == length - 1)]. *)
Theorem CompressCommonPairs_single_byte :
  CompressCommonPairs true sort_from sort_by_count single_byte 1
  = Returns (5%Z, [66; 66; 66; 65; 0]%Z)
  /\ CompressCommonPairs false sort_from sort_by_count single_byte 1
     = AssertionFails.
Proof. split; vm_compute; reflexivity. Qed.

(** A second way to the same loss, in [EscapeCharIndex]. The table below is
    the one [FindReplaceablePairs] leaves for a block in which no byte is
    free: the bytes 0 and 1 occur 14 times each, 8 times as the pair (0, 1);
    the bytes 2 and 3 occur 4 times each, as the pair (2, 3); every other
    byte occurs 6 times; both pairs are selected. *)
Definition every_byte_counts : list Z := [14; 14; 4; 4]%Z ++ replicate 252 6%Z.

Definition every_byte_table : FreqTable :=
  run [decrease 0 8; decrease 1 8; decrease 2 4; decrease 3 4]
      (FreqTable_of sort_by_count every_byte_counts).

(** X3. [EscapeCharIndex] gives the pair (2, 3) up and subtracts for it a gain
    computed on the table it has just restored, which leaves [utility] at 9
    where the replacement of (0, 1) gains 1. The test against the count of
    the escape byte passes and the index returned is 1: the pair (0, 1) is
    replaced, which saves 8 bytes and takes 3 in the header, and the bytes in
    the slots 0 and 1, of 4 occurrences each, are escaped, which takes 8. *)
Lemma EscapeCharIndex_overestimates_utility :
  let '(escape_index, freqs) :=
    EscapeCharIndex every_byte_table [(0x0001, 8); (0x0203, 4)]%Z 0 in
  escape_index = 1 /\ count_at freqs 0 = 4%Z /\ count_at freqs 1 = 4%Z
  /\ (gain [(0x0001, 8); (0x0203, 4)]%Z freqs 0 = 1)%Z.
Proof. vm_compute. repeat split; reflexivity. Qed.

End CommonPairs.

(** ** The sections of a block header ([HuffmanCoders.cpp], [WaveletCoders.cpp]) *)

Module BlockHeader.
Import Word.
Local Open Scope Z_scope.

Definition total (l : list Z) : Z := foldr Z.add 0 l.

Lemma total_app l k : total (l ++ k) = total l + total k.
Proof. induction l as [|x l IH]; cbn; [reflexivity | unfold total in *; lia]. Qed.

Section Sections.

(** The width of the elements of [stats] and [temp]: 64 in
    [HuffmanEncoder::writeBlockHeader], whose vectors hold [uint64], and 32
    in [WaveletEncoder::writeBlockHeader], whose vectors hold [uint32]. The
    sum is a [size_t], of 64 bits, in both; the rest of the code is the
    same. *)
Variable width : Z.

(** The loop [for(size_t i = 0; i < s.size(); ++i)]. *)
Fixpoint deduce_sections (s temp : list Z) (sum : Z) : list Z * Z :=
  match s with
  | [] => (temp, sum)
  | x :: s' =>
      let sum := wrap64 (sum + x) in
      if 10000 <=? sum then deduce_sections s' (temp ++ [wrap width sum]) 0
      else deduce_sections s' temp sum
  end.

(** [if (sum != 0) { if(temp.size() > 0) temp.back() += sum;
    else temp.push_back(sum); }] *)
Definition fold_remainder (temp : list Z) (sum : Z) : list Z :=
  if sum =? 0 then temp
  else if (0 <? length temp)%nat then
    alter (fun back => wrap width (wrap64 (back + sum))) (pred (length temp)) temp
  else [wrap width sum].

(** [writeBlockHeader], as far as the sections go: the vector [stats] as it
    is rewritten and the byte [len] written after the 48 bits of the
    length. *)
Definition writeBlockHeader (stats : list Z) : list Z * Z :=
  let '(temp, sum) := deduce_sections stats [] 0 in
  let temp := fold_remainder temp sum in
  let len := if (length temp =? 256)%nat then 0 else wrap8 (Z.of_nat (length temp)) in
  (temp, len).

End Sections.

(** [readBlockHeader]: [(sections == 0) ? 256 : sections]. *)
Definition section_count (sections : Z) : Z :=
  if sections =? 0 then 256 else sections.

(** *** What the loop computes *)

(** A section is closed when its sum first reaches 10000: the sum of a
    closed section is at least 10000 and no shorter run of it is. *)
Definition closed_section (c : list Z) : Prop :=
  10000 <= total c /\
  forall c1 c2, c = c1 ++ c2 -> c2 <> [] -> total c1 < 10000.

(** What is left after the last closed section never reaches 10000. *)
Definition open_section (r : list Z) : Prop :=
  forall r1 r2, r = r1 ++ r2 -> total r1 < 10000.

(** The lengths of the closed sections with the remainder folded in. *)
Definition with_remainder (sums : list Z) (remainder : Z) : list Z :=
  if remainder =? 0 then sums
  else match reverse sums with
       | [] => [remainder]
       | back :: before => reverse before ++ [back + remainder]
       end.

Lemma open_section_snoc r x :
  open_section r -> total (r ++ [x]) < 10000 -> open_section (r ++ [x]).
Proof.
  intros Hopen Hlt r1 r2 Heq.
  destruct r2 as [|y r2 _] using rev_ind.
  - rewrite app_nil_r in Heq. now subst.
  - rewrite app_assoc in Heq. apply app_inj_tail in Heq as [Heq _].
    now apply (Hopen r1 r2).
Qed.

Lemma closed_section_snoc r x :
  open_section r -> 10000 <= total (r ++ [x]) -> closed_section (r ++ [x]).
Proof.
  intros Hopen Hge. split; [exact Hge|].
  intros c1 c2 Heq Hne.
  destruct c2 as [|y c2 _] using rev_ind; [congruence|].
  rewrite app_assoc in Heq. apply app_inj_tail in Heq as [Heq _].
  now apply (Hopen c1 c2).
Qed.

Section Computed.

Variable width : Z.
Hypothesis width_range : 0 <= width <= 64.

Lemma deduce_sections_chunks s : forall chunks current,
  Forall (fun x => 0 <= x) s ->
  Forall closed_section chunks -> open_section current ->
  0 <= total current -> total (concat chunks) + total current + total s < 2 ^ width ->
  0 <= total (concat chunks) ->
  exists chunks' remainder,
    concat chunks ++ current ++ s = concat chunks' ++ remainder /\
    Forall closed_section chunks' /\ open_section remainder /\
    0 <= total remainder /\ 0 <= total (concat chunks') /\
    deduce_sections width s (total <$> chunks) (total current)
    = (total <$> chunks', total remainder).
Proof.
  assert (2 ^ width <= 2 ^ 64) as H64 by (apply Z.pow_le_mono_r; lia).
  induction s as [|x s IH]; intros chunks current Hs Hchunks Hopen Hcur Hfit Hdone.
  - exists chunks, current. rewrite app_nil_r. auto 10.
  - inversion Hs as [|? ? Hx Hs']; subst. cbn [deduce_sections].
    change (total (x :: s)) with (x + total s) in Hfit.
    assert (0 <= total s) as Hs0.
    { clear -Hs'. induction Hs'; cbn; unfold total in *; lia. }
    unfold wrap64. rewrite wrap_small by lia.
    assert (total (current ++ [x]) = total current + x) as Hsnoc.
    { rewrite total_app. cbn. lia. }
    destruct (Z.leb_spec 10000 (total current + x)) as [Hge | Hlt].
    + rewrite wrap_small by lia.
      destruct (IH (chunks ++ [current ++ [x]]) []) as (chunks' & rem & Heq & H1 & H2 & H3 & H4 & H5);
        try assumption.
      * apply Forall_app. split; [assumption|]. constructor; [|constructor].
        apply closed_section_snoc; [assumption | lia].
      * intros r1 r2 Heq. destruct r1; [cbn; lia | discriminate].
      * cbn. lia.
      * rewrite concat_app, total_app. cbn [concat]. rewrite app_nil_r.
        cbn [total foldr] in *. lia.
      * rewrite concat_app, total_app. cbn [concat]. rewrite app_nil_r. lia.
      * exists chunks', rem. split.
        { rewrite <- Heq, concat_app. cbn [concat]. rewrite app_nil_r.
          cbn [app]. now rewrite <- !app_assoc. }
        rewrite fmap_app in H5. cbn [fmap list_fmap] in H5.
        rewrite Hsnoc in H5. auto 10.
    + destruct (IH chunks (current ++ [x])) as (chunks' & rem & Heq & H1 & H2 & H3 & H4 & H5);
        try assumption.
      * apply open_section_snoc; [assumption | lia].
      * lia.
      * lia.
      * exists chunks', rem. split.
        { rewrite <- Heq. now rewrite <- !app_assoc. }
        rewrite Hsnoc in H5. auto 10.
Qed.

Lemma total_nonneg l : Forall (fun x => 0 <= x) l -> 0 <= total l.
Proof. induction 1; cbn; unfold total in *; lia. Qed.

Lemma total_concat chunks : total (total <$> chunks) = total (concat chunks).
Proof.
  induction chunks as [|c chunks IH]; cbn; [reflexivity|].
  rewrite total_app. unfold total in *. lia.
Qed.

Lemma closed_sections_length chunks :
  Forall closed_section chunks -> (length chunks <= length (concat chunks))%nat.
Proof.
  induction 1 as [|c chunks [Hc _] _ IH]; cbn; [lia|].
  rewrite length_app. destruct c; [cbn in Hc; lia | cbn; lia].
Qed.

Lemma with_remainder_total sums remainder :
  total (with_remainder sums remainder) = total sums + remainder.
Proof.
  unfold with_remainder. destruct (Z.eqb_spec remainder 0) as [-> | _]; [lia|].
  destruct (reverse sums) as [|back before] eqn:Hrev.
  - apply (f_equal reverse) in Hrev. rewrite reverse_involutive in Hrev.
    subst. cbn. lia.
  - apply (f_equal reverse) in Hrev. rewrite reverse_involutive in Hrev.
    subst. rewrite reverse_cons, !total_app. cbn. lia.
Qed.

Lemma with_remainder_length sums remainder :
  length (with_remainder sums remainder)
  = if (remainder =? 0) || (0 <? length sums)%nat then length sums else 1%nat.
Proof.
  unfold with_remainder. destruct (Z.eqb_spec remainder 0) as [-> | _]; [reflexivity|].
  destruct (reverse sums) as [|back before] eqn:Hrev;
    apply (f_equal reverse) in Hrev; rewrite reverse_involutive in Hrev; subst.
  - reflexivity.
  - rewrite reverse_cons, !length_app. cbn [orb length].
    destruct (Nat.ltb_spec 0 (length (reverse before) + 1)); lia.
Qed.

(** Without a wrap the code folds the remainder as [with_remainder] does. *)
Lemma fold_remainder_with_remainder sums remainder :
  Forall (fun x => 0 <= x) sums -> 0 <= remainder ->
  total sums + remainder < 2 ^ width ->
  fold_remainder width sums remainder = with_remainder sums remainder.
Proof.
  assert (2 ^ width <= 2 ^ 64) as H64 by (apply Z.pow_le_mono_r; lia).
  intros Hsums Hrem Hfit. unfold fold_remainder, with_remainder.
  pose proof (total_nonneg sums Hsums) as Htotal.
  destruct (Z.eqb_spec remainder 0); [reflexivity|].
  destruct (reverse sums) as [|back before] eqn:Hrev;
    apply (f_equal reverse) in Hrev; rewrite reverse_involutive in Hrev; subst.
  - cbn. now rewrite wrap_small by lia.
  - rewrite reverse_cons in *. rewrite length_app. cbn [length].
    replace (0 <? length (reverse before) + 1)%nat with true
      by (symmetry; apply Nat.ltb_lt; lia).
    replace (pred (length (reverse before) + 1)) with (length (reverse before) + 0)%nat by lia.
    rewrite alter_app_r. cbn.
    apply Forall_app in Hsums as [Hbefore Hback]. apply Forall_inv in Hback.
    rewrite total_app in Hfit, Htotal. cbn in Hfit, Htotal.
    pose proof (total_nonneg _ Hbefore).
    unfold wrap64. rewrite (wrap_small 64) by lia. now rewrite wrap_small by lia.
Qed.

End Computed.

(** The statistics of a block of more than 4 GiB for the wavelet encoder:
    the byte 0 occurs 9999 times, the byte 1 occurs [2^32 - 1] times. *)
Definition wavelet_stats : list Z := [9999; 4294967295] ++ replicate 254 0.

(** The first section is closed at the sum [2^32 + 9998], which
    [temp.push_back(sum)] stores in a [uint32] as 9998. *)
Lemma writeBlockHeader_uint32_loses_sum :
  writeBlockHeader 32 wavelet_stats = ([9998], 1) /\
  total (writeBlockHeader 32 wavelet_stats).1 <> total wavelet_stats.
Proof. split; [reflexivity | vm_compute; discriminate]. Qed.

(** C8, amended. For a statistics vector of at most 256 entries whose sum
    fits the elements of the vector, [writeBlockHeader] rewrites it into
    section lengths: scanning left to right, a section is closed when its
    sum first reaches 10000; a remainder that is not zero is folded into the
    last section, or is the only section when none was closed; the lengths
    add up to the sum of the statistics; there are at most 256 sections, and
    the byte written for their number is 0 for 256. *)
Theorem writeBlockHeader_sections (width : Z) (stats : list Z) :
  0 <= width <= 64 ->
  Forall (fun x => 0 <= x) stats -> total stats < 2 ^ width ->
  (length stats <= 256)%nat ->
  exists chunks remainder,
    stats = concat chunks ++ remainder /\
    Forall closed_section chunks /\ open_section remainder /\
    let '(sections, len) := writeBlockHeader width stats in
    sections = with_remainder (total <$> chunks) (total remainder) /\
    total sections = total stats /\
    (length sections <= 256)%nat /\
    len = (if (length sections =? 256)%nat then 0 else Z.of_nat (length sections)) /\
    (sections <> [] -> section_count len = Z.of_nat (length sections)).
Proof.
  intros Hwidth Hstats Hfit Hlen.
  destruct (deduce_sections_chunks width Hwidth stats [] []) as
    (chunks & rem & Heq & Hclosed & Hopen & Hrem & Hdone & Hloop);
    try assumption; try (cbn; lia).
  { constructor. }
  { intros r1 r2 Hnil. destruct r1; [cbn; lia | discriminate]. }
  cbn [concat app fmap list_fmap total foldr] in Heq, Hloop.
  exists chunks, rem. split; [exact Heq|]. split; [exact Hclosed|]. split; [exact Hopen|].
  unfold writeBlockHeader. rewrite Hloop.
  assert (total stats = total (concat chunks) + total rem) as Htotal.
  { rewrite Heq, total_app. reflexivity. }
  rewrite fold_remainder_with_remainder; try assumption.
  2:{ clear -Hclosed. induction Hclosed as [|c chunks [Hc _] _ IH]; constructor.
      - lia.
      - exact IH. }
  2:{ rewrite total_concat. lia. }
  set (sections := with_remainder (total <$> chunks) (total rem)).
  assert (length sections <= 256)%nat as Hcount.
  { subst sections. rewrite with_remainder_length, length_fmap.
    pose proof (closed_sections_length chunks Hclosed) as Hchunks.
    apply (f_equal length) in Heq. rewrite length_app in Heq.
    destruct (Z.eqb_spec (total rem) 0) as [Hzero | Hnonzero]; cbn [orb]; [lia|].
    destruct (0 <? length chunks)%nat; [lia|].
    destruct rem; [cbn in Hnonzero; lia | cbn in Heq; lia]. }
  split; [reflexivity|].
  split. { subst sections. rewrite with_remainder_total, total_concat. lia. }
  split; [exact Hcount|].
  assert ((if (length sections =? 256)%nat then 0
           else wrap8 (Z.of_nat (length sections)))
          = (if (length sections =? 256)%nat then 0 else Z.of_nat (length sections)))
    as Hbyte.
  { destruct (Nat.eqb_spec (length sections) 256); [reflexivity|].
    unfold wrap8. apply wrap_small. lia. }
  split; [exact Hbyte|].
  intros Hsome. rewrite Hbyte. unfold section_count.
  destruct (Nat.eqb_spec (length sections) 256) as [-> | Hne]; [reflexivity|].
  destruct (Z.eqb_spec (Z.of_nat (length sections)) 0) as [Hzero | _]; [|reflexivity].
  destruct sections; [congruence | cbn in Hzero; lia].
Qed.

Definition five_statistics : list Z := [6000; 5000; 3000; 12000; 400].

Lemma writeBlockHeader_sections_witness :
  exists chunks remainder,
    five_statistics = concat chunks ++ remainder /\
    Forall closed_section chunks /\ open_section remainder /\
    let '(sections, len) := writeBlockHeader 64 five_statistics in
    sections = with_remainder (total <$> chunks) (total remainder) /\
    total sections = total five_statistics /\
    (length sections <= 256)%nat /\
    len = (if (length sections =? 256)%nat then 0 else Z.of_nat (length sections)) /\
    (sections <> [] -> section_count len = Z.of_nat (length sections)).
Proof.
  apply (writeBlockHeader_sections 64 five_statistics).
  - lia.
  - repeat constructor; lia.
  - vm_compute. reflexivity.
  - cbn. lia.
Defined.

Example writeBlockHeader_five_statistics :
  writeBlockHeader 64 five_statistics = ([11000; 15400], 2).
Proof. reflexivity. Qed.

End BlockHeader.

(** ** Run lengths and the block trailer ([HuffmanCoders.cpp]) *)

Module HuffmanCoders.
Import Word Streams.
Local Open Scope Z_scope.

(** *** [HuffmanEncoder::writeTrailer] *)

(** The state of [writeTrailer]: the byte [s] being filled, the number of
    bits it still takes, the count [bytes] and the bytes given to
    [m_out->writeByte]. *)
Record trailer := mkTrailer {
  s : Z;
  bitsLeft : Z;
  bytes : Z;
  written : list Z
}.

(** The body of the loop [for(int j = 30; j >= 0; --j)]. *)
Definition put_bit (t : trailer) (bit : Z) : trailer :=
  let s' := wrap8 (Z.lor (Z.shiftl (s t) 1) bit) in
  let bitsLeft' := bitsLeft t - 1 in
  if bitsLeft' =? 0
  then mkTrailer s' 8 (bytes t + 1) (written t ++ [s'])
  else mkTrailer s' bitsLeft' (bytes t) (written t).

(** The values of [j]: 30 down to 0. *)
Definition bit_positions : list Z := Z.of_nat <$> reverse (seq 0 31).

Definition put_power (t : trailer) (power : Z) : trailer :=
  fold_left (fun t j => put_bit t (Z.land (Z.shiftr power j) 0x1)) bit_positions t.

(** [writeTrailer]: the value it returns and the bytes it writes. *)
Definition writeTrailer (LFpowers : list Z) : Z * list Z :=
  let count := wrap8 (wrap64 (Z.of_nat (length LFpowers) - 1)) in
  let t := fold_left put_power LFpowers (mkTrailer count 8 1 [count]) in
  if bitsLeft t <? 8
  then (bytes t + 1, written t ++ [wrap8 (Z.shiftl (s t) (bitsLeft t))])
  else (bytes t, written t).

(** *** The trailer in [HuffmanDecoder::decodeBlock] *)

(** The loop [for(uint32 j = 0; j < 31; ++j)]: [pos] is a [uint32]. *)
Fixpoint read_position (bits : nat) (pos : Z) (input : RawInStream)
  : option (Z * RawInStream) :=
  match bits with
  | O => Some (pos, input)
  | S bits' =>
      '(bit, input) ← readBit input;
      read_position bits' (wrap32 (Z.lor (Z.shiftl pos 1) (Z.b2z bit))) input
  end.

(** The loop [for(uint32 i = 0; i < LFpows; ++i)]. *)
Fixpoint read_positions (LFpows : nat) (input : RawInStream)
  : option (list Z * RawInStream) :=
  match LFpows with
  | O => Some ([], input)
  | S LFpows' =>
      '(pos, input) ← read_position 31 0 input;
      '(LFpowers, input) ← read_positions LFpows' input;
      Some (pos :: LFpowers, input)
  end.

(** The last lines of [decodeBlock]: the vector [LFpowers] as it is filled
    and the stream after [flushBuffer]. [None]: the input ended. *)
Definition readTrailer (input : RawInStream) : option (list Z * RawInStream) :=
  '(byte, input) ← readByte input;
  let LFpows := wrap32 (byte + 1) in
  '(LFpowers, input) ← read_positions (Z.to_nat LFpows) input;
  Some (LFpowers, flushBuffer input).

(** *** The lengths of the runs *)

(** Modelled from the spec: [utils::logFloor] of [Utils.hpp], which is not
    under src/; the spec has the encoder write [⌊log2 n⌋] zeros. *)
Definition logFloor (n : Z) : Z := Z.log2 n.

(** A loop that empties the 64-bit [buffer] a byte at a time,
    [bitsInBuffer -= 8; writeByte((buffer >> bitsInBuffer) & 0xff)], while
    [continue bitsInBuffer] holds. [None]: the shift count is negative,
    which C++ does not define. Every iteration takes 8 from [bitsInBuffer],
    so [steps] above [bitsInBuffer] are never used up. *)
Fixpoint write_bytes (steps : nat) (continue : Z -> bool) (buffer bitsInBuffer : Z)
    (out : list Z) : option (Z * list Z) :=
  match steps with
  | O => None
  | S steps' =>
      if continue bitsInBuffer then
        let bitsInBuffer := bitsInBuffer - 8 in
        if bitsInBuffer <? 0 then None
        else write_bytes steps' continue buffer bitsInBuffer
               (out ++ [Z.land (Z.shiftr buffer bitsInBuffer) 0xff])
      else Some (bitsInBuffer, out)
  end.

(** The body of [for (uint64 k = 0; k < nRuns; ++k)] in "Store the lengths
    of runs" of [HuffmanEncoder::encodeData]. *)
Definition put_runlen (state : Z * Z * list Z) (runlen : Z)
  : option (Z * Z * list Z) :=
  let '(buffer, bitsInBuffer, out) := state in
  let gammaCodeLen := logFloor runlen * 2 + 1 in
  '(bitsInBuffer, out) ←
    write_bytes (S (Z.to_nat bitsInBuffer))
      (fun bitsInBuffer => 64 <? bitsInBuffer + gammaCodeLen)
      buffer bitsInBuffer out;
  let buffer := shl64 buffer gammaCodeLen in
  let buffer := Z.lor buffer runlen in
  Some (buffer, bitsInBuffer + gammaCodeLen, out).

(** The loop over the runs; a state [None] stays [None]. *)
Definition put_runlens (state : option (Z * Z * list Z)) (runlen : list Z)
  : option (Z * Z * list Z) :=
  foldl (fun state n => state ← state; put_runlen state n) state runlen.

(** "Store the lengths of runs": the bytes written for the array [runlen]. *)
Definition encode_runlens (runlen : list Z) : option (list Z) :=
  '(buffer, bitsInBuffer, out) ← put_runlens (Some (0, 0, [])) runlen;
  '(bitsInBuffer, out) ←
    write_bytes (S (Z.to_nat bitsInBuffer)) (fun bitsInBuffer => 8 <=? bitsInBuffer)
      buffer bitsInBuffer out;
  if 0 <? bitsInBuffer then
    let buffer := shl64 buffer (8 - bitsInBuffer) in
    Some (out ++ [Z.land buffer 0xff])
  else Some out.

(** [while (!m_in->readBit()) ++zeros;] It ends at a bit 1 or with the
    input, so [steps] above the number of bits left are never used up. *)
Fixpoint count_zeros (steps : nat) (zeros : Z) (input : RawInStream)
  : option (Z * RawInStream) :=
  match steps with
  | O => None
  | S steps' =>
      '(bit, input) ← readBit input;
      if bit : bool then Some (zeros, input)
      else count_zeros steps' (zeros + 1) input
  end.

(** [for (int32 t = 0; t < zeros; ++t)]: [value] is a [uint64]. *)
Fixpoint read_value (zeros : nat) (value : Z) (input : RawInStream)
  : option (Z * RawInStream) :=
  match zeros with
  | O => Some (value, input)
  | S zeros' =>
      '(bit, input) ← readBit input;
      read_value zeros' (wrap64 (Z.lor (Z.shiftl value 1) (Z.b2z bit))) input
  end.

(** The body of the loop "Now read gamma codes that store lenghts of runs"
    in [decodeBlock]: the value stored in [runlen[k]], a [uint32]. [None]:
    the input ended, or [1 << zeros] was asked of an [int] with
    [zeros > 30], which C++ does not define. *)
Definition read_runlen (input : RawInStream) : option (Z * RawInStream) :=
  '(zeros, input) ← count_zeros (S (length (stream_bits input))) 0 input;
  '(value, input) ← read_value (Z.to_nat zeros) 0 input;
  if 30 <? zeros then None
  else
    let value := Z.lor value (Z.shiftl 1 zeros) in
    Some (wrap32 value, input).

(** *** Bit lists *)

(** The [k] low bits of [x], most significant first. *)
Definition low_bits (k : nat) (x : Z) : list bool :=
  (fun j => Z.testbit x (Z.of_nat j)) <$> reverse (seq 0 k).

(** The next [n] bits of a stream. *)
Fixpoint read_bits (n : nat) (input : RawInStream) : option (list bool * RawInStream) :=
  match n with
  | O => Some ([], input)
  | S n' =>
      '(bit, input) ← readBit input;
      '(bits, input) ← read_bits n' input;
      Some (bit :: bits, input)
  end.

(** The 31 bits of an LF power, most significant first. *)
Definition power_bits (power : Z) : list bool := low_bits 31 power.

(** The bits held in [s] that no byte has been written for. *)
Definition pending (t : trailer) : list bool :=
  low_bits (Z.to_nat (8 - bitsLeft t)) (s t).

(** What [writeTrailer] has done since the state [t] when it is at [t']:
    the bytes written and the bits pending hold the bits [bits] after those
    pending at [t], and [bytes] has counted the bytes. *)
Record extends (t t' : trailer) (bits : list bool) : Prop := {
  extends_bitsLeft : 1 <= bitsLeft t' <= 8;
  extends_written : exists more,
    written t' = written t ++ more /\
    bytes t' = bytes t + Z.of_nat (length more) /\
    flat_map byte_bits more ++ pending t' = pending t ++ bits
}.

(** The Elias gamma code of [n]: [⌊log2 n⌋] zeros, then [n] in binary. *)
Definition gamma_code (n : Z) : list bool :=
  replicate (Z.to_nat (Z.log2 n)) false ++ low_bits (S (Z.to_nat (Z.log2 n))) n.

Example writeTrailer_one_position :
  writeTrailer [5] = (5, [0; 0; 0; 0; 10]).
Proof. reflexivity. Qed.

Example readTrailer_one_position :
  readTrailer (mkIn [] [0; 0; 0; 0; 10; 77]) = Some ([5], mkIn [] [77]).
Proof. reflexivity. Qed.

Example encode_runlens_5 : encode_runlens [5] = Some [0x28].
Proof. reflexivity. Qed.

Example read_runlen_5 :
  read_runlen (mkIn [] [0x28; 77]) = Some (5, mkIn [false; false; false] [77]).
Proof. reflexivity. Qed.


(** *** Bits *)

Lemma byte_bits_low_bits b : byte_bits b = low_bits 8 b.
Proof. reflexivity. Qed.

Lemma low_bits_S k x :
  low_bits (S k) x = Z.testbit x (Z.of_nat k) :: low_bits k x.
Proof.
  unfold low_bits. rewrite seq_S, reverse_app. reflexivity.
Qed.

Lemma low_bits_length k x : length (low_bits k x) = k.
Proof.
  unfold low_bits. now rewrite length_fmap, length_reverse, length_seq.
Qed.

Lemma low_bits_ext k x y :
  (forall j, 0 <= j < Z.of_nat k -> Z.testbit x j = Z.testbit y j) ->
  low_bits k x = low_bits k y.
Proof.
  induction k as [|k IH]; intros H; [reflexivity|].
  rewrite !low_bits_S, H by lia. f_equal. apply IH. intros j Hj. apply H. lia.
Qed.

(** The bits of [x] above the lowest [b], then these. *)
Lemma low_bits_add a b x :
  low_bits (a + b) x = low_bits a (Z.shiftr x (Z.of_nat b)) ++ low_bits b x.
Proof.
  induction a as [|a IH]; [reflexivity|].
  cbn [Nat.add]. rewrite !low_bits_S, IH, Z.shiftr_spec by lia.
  cbn [app]. do 2 f_equal. lia.
Qed.

Lemma low_bits_snoc k x :
  low_bits (S k) x = low_bits k (Z.shiftr x 1) ++ [Z.testbit x 0].
Proof.
  replace (S k) with (k + 1)%nat by lia. now rewrite low_bits_add.
Qed.

Lemma low_bits_wrap w k x :
  Z.of_nat k <= w -> low_bits k (wrap w x) = low_bits k x.
Proof.
  intros H. apply low_bits_ext. intros j Hj. unfold wrap.
  apply Z.mod_pow2_bits_low. lia.
Qed.

(** Bits shifted in from the right are zeros. *)
Lemma low_bits_shiftl k n x :
  low_bits (k + n) (Z.shiftl x (Z.of_nat n)) = low_bits k x ++ replicate n false.
Proof.
  rewrite low_bits_add. f_equal.
  - rewrite Z.shiftr_shiftl_l, Z.sub_diag by lia. reflexivity.
  - induction n as [|n IH] in x |- *; [reflexivity|].
    rewrite low_bits_S. cbn [replicate]. f_equal.
    + apply Z.shiftl_spec_low. lia.
    + rewrite Nat2Z.inj_succ, <- Z.add_1_l, <- Z.shiftl_shiftl by lia. apply IH.
Qed.

(** The bits of a value that fits in fewer are zeros then the value's. *)
Lemma low_bits_small k n x :
  0 <= x < 2 ^ Z.of_nat k ->
  low_bits (n + k) x = replicate n false ++ low_bits k x.
Proof.
  intros Hx. rewrite low_bits_add. f_equal.
  rewrite Z.shiftr_div_pow2, Z.div_small by lia.
  induction n as [|n IH]; [reflexivity|].
  rewrite low_bits_S, Z.bits_0, IH. reflexivity.
Qed.

Lemma land_1 x : Z.land x 0x1 = Z.b2z (Z.testbit x 0).
Proof.
  change 0x1 with (Z.ones 1). rewrite Z.land_ones by lia.
  symmetry. apply Z.bit0_mod.
Qed.

Lemma testbit_b2z b j : 0 < j -> Z.testbit (Z.b2z b) j = false.
Proof.
  intros Hj. destruct b; cbn [Z.b2z]; [|apply Z.bits_0].
  apply Z.bits_above_log2; cbn; lia.
Qed.

(** [(x << 1) | bit] puts [bit] under the bits of [x]. *)
Lemma low_bits_push w k x b :
  Z.of_nat (S k) <= w ->
  low_bits (S k) (wrap w (Z.lor (Z.shiftl x 1) (Z.b2z b))) = low_bits k x ++ [b].
Proof.
  intros Hk. rewrite low_bits_wrap, low_bits_snoc by lia. f_equal.
  - apply low_bits_ext. intros j Hj.
    rewrite Z.shiftr_spec, Z.lor_spec, Z.shiftl_spec by lia.
    rewrite testbit_b2z, orb_false_r by lia. f_equal. lia.
  - rewrite Z.lor_spec, Z.shiftl_spec_low by lia.
    f_equal. destruct b; reflexivity.
Qed.

(** The number that bits, most significant first, are shifted into. *)
Lemma shift_in_low_bits w k x :
  Z.of_nat k <= w ->
  fold_left (fun pos b => wrap w (Z.lor (Z.shiftl pos 1) (Z.b2z b))) (low_bits k x) 0
  = x mod 2 ^ Z.of_nat k.
Proof.
  induction k as [|k IH] in x |- *; intros Hk.
  - cbn. now rewrite Z.mod_1_r.
  - rewrite low_bits_snoc, fold_left_app, IH by lia. cbn [fold_left].
    assert (0 < 2 ^ Z.of_nat k) as Hpos by (apply Z.pow_pos_nonneg; lia).
    pose proof (Z.mod_pos_bound (Z.shiftr x 1) (2 ^ Z.of_nat k) Hpos) as Hr.
    assert (2 ^ Z.of_nat (S k) = 2 * 2 ^ Z.of_nat k) as Hpow
      by (rewrite Nat2Z.inj_succ, Z.pow_succ_r by lia; reflexivity).
    assert (2 ^ Z.of_nat (S k) <= 2 ^ w) as Hle
      by (apply Z.pow_le_mono_r; lia).
    rewrite Z.shiftl_mul_pow2, Z.pow_1_r by lia.
    rewrite Z.lor_comm, (lor_shift_add _ _ 1), Z.pow_1_r.
    + rewrite Hpow, Z.rem_mul_r, Z.shiftr_div_pow2, Z.pow_1_r by lia.
      rewrite <- Z.bit0_mod, (Z.mul_comm 2).
      apply wrap_small.
      assert (0 <= Z.b2z (Z.testbit x 0) <= 1) by (destruct (Z.testbit x 0); cbn; lia).
      rewrite Z.shiftr_div_pow2, Z.pow_1_r in Hr by lia. lia.
    + lia.
    + destruct (Z.testbit x 0); cbn; lia.
Qed.

Lemma fold_left_cons {A B} (f : A -> B -> A) x l a :
  fold_left f (x :: l) a = fold_left f l (f a x).
Proof. reflexivity. Qed.

Lemma flat_map_cons {A B} (f : A -> list B) x l :
  flat_map f (x :: l) = f x ++ flat_map f l.
Proof. reflexivity. Qed.

(** *** Reading bits *)

Lemma read_bits_add a b input :
  read_bits (a + b) input =
  '(bits1, input) ← read_bits a input;
  '(bits2, input) ← read_bits b input;
  Some (bits1 ++ bits2, input).
Proof.
  induction a as [|a IH] in input |- *; cbn [Nat.add read_bits].
  - cbn. destruct (read_bits b input) as [[bits2 input2]|]; reflexivity.
  - destruct (readBit input) as [[bit input1]|]; [|reflexivity].
    cbn. rewrite IH.
    destruct (read_bits a input1) as [[bits1 input2]|]; [|reflexivity].
    cbn. destruct (read_bits b input2) as [[bits2 input3]|]; reflexivity.
Qed.

Lemma read_bits_length n input bits input' :
  read_bits n input = Some (bits, input') -> length bits = n.
Proof.
  induction n as [|n IH] in input, bits |- *; cbn [read_bits]; intros H.
  - now inversion H.
  - destruct (readBit input) as [[bit input1]|]; [|discriminate].
    cbn in H. destruct (read_bits n input1) as [[bits1 input2]|] eqn:E; [|discriminate].
    inversion H; subst. cbn. f_equal. eapply IH, E.
Qed.

(** Bits of the byte being read come from [unread]. *)
Lemma read_bits_unread n bits rest :
  (n <= length bits)%nat ->
  read_bits n (mkIn bits rest) = Some (take n bits, mkIn (drop n bits) rest).
Proof.
  induction n as [|n IH] in bits |- *; intros Hn; [reflexivity|].
  destruct bits as [|bit bits]; [cbn in Hn; lia|].
  cbn [read_bits]. unfold readBit at 1. cbn [unread input mbind option_bind].
  rewrite IH by (cbn in Hn; lia). reflexivity.
Qed.

Lemma read_bits_byte b rest :
  read_bits 8 (mkIn [] (b :: rest)) = Some (byte_bits b, mkIn [] rest).
Proof. reflexivity. Qed.

(** Reading [n] bits from a byte boundary uses up the bytes [used] that
    hold them and leaves the bits of the last one that were not asked for. *)
Lemma read_bits_aligned used n rest :
  (n <= 8 * length used < n + 8)%nat ->
  read_bits n (mkIn [] (used ++ rest)) =
  Some (take n (flat_map byte_bits used), mkIn (drop n (flat_map byte_bits used)) rest).
Proof.
  induction used as [|b used IH] in n |- *; intros Hn.
  - cbn in Hn. assert (n = 0)%nat as -> by lia. reflexivity.
  - cbn [length] in Hn. cbn [flat_map app].
    destruct (Nat.le_gt_cases 8 n) as [Hge | Hlt].
    + replace n with (8 + (n - 8))%nat by lia.
      rewrite read_bits_add, read_bits_byte. cbn [mbind option_bind].
      rewrite IH by lia. cbn [mbind option_bind].
      rewrite take_app_add', drop_app_add' by reflexivity. reflexivity.
    + assert (used = []) as -> by (destruct used; [reflexivity | cbn in Hn; lia]).
      destruct n as [|n]; [lia|].
      cbn [read_bits app flat_map]. rewrite app_nil_r.
      unfold readBit at 1. cbn [unread input byte_bits map mbind option_bind].
      rewrite read_bits_unread by (cbn; lia). reflexivity.
Qed.

(** A bit read is the first of [stream_bits]. *)
Lemma readBit_stream_bits input bit rest :
  stream_bits input = bit :: rest ->
  exists input', readBit input = Some (bit, input') /\ stream_bits input' = rest.
Proof.
  destruct input as [bits bytes]. unfold stream_bits, readBit. cbn [unread input].
  destruct bits as [|b bits]; cbn [app].
  - destruct bytes as [|byte bytes]; [discriminate|].
    cbn [flat_map byte_bits map app]. intros [= <- <-].
    eexists. split; reflexivity.
  - intros [= <- <-]. eexists. split; reflexivity.
Qed.

Lemma read_bits_stream_bits bits input rest :
  stream_bits input = bits ++ rest ->
  exists input', read_bits (length bits) input = Some (bits, input')
                 /\ stream_bits input' = rest.
Proof.
  induction bits as [|bit bits IH] in input |- *; cbn [app length read_bits]; intros H.
  - eexists. split; [reflexivity | assumption].
  - destruct (readBit_stream_bits _ _ _ H) as (input1 & -> & H1).
    destruct (IH _ H1) as (input2 & E & H2).
    cbn [mbind option_bind]. rewrite E. cbn.
    eexists. split; [reflexivity | assumption].
Qed.

(** *** The trailer *)

Lemma extends_refl t : 1 <= bitsLeft t <= 8 -> extends t t [].
Proof.
  intros H. split; [assumption|]. exists [].
  rewrite !app_nil_r. cbn. split; [reflexivity | split; [lia | reflexivity]].
Qed.

Lemma extends_trans t1 t2 t3 bits1 bits2 :
  extends t1 t2 bits1 -> extends t2 t3 bits2 -> extends t1 t3 (bits1 ++ bits2).
Proof.
  intros [_ (more1 & Hw1 & Hb1 & Hp1)] [H3 (more2 & Hw2 & Hb2 & Hp2)].
  split; [assumption|]. exists (more1 ++ more2).
  rewrite Hw2, Hw1, Hb2, Hb1, length_app, flat_map_app, <- !app_assoc.
  split; [reflexivity | split; [lia|]].
  rewrite Hp2, !app_assoc, Hp1. reflexivity.
Qed.

Lemma put_bit_extends t b :
  1 <= bitsLeft t <= 8 -> extends t (put_bit t (Z.b2z b)) [b].
Proof.
  intros Ht. unfold put_bit.
  destruct (Z.eqb_spec (bitsLeft t - 1) 0) as [E | E].
  - split; cbn [bitsLeft]; [lia|].
    eexists. cbn [written bytes]. split; [reflexivity|].
    split; [reflexivity|].
    unfold pending. cbn [s bitsLeft flat_map length].
    replace (bitsLeft t) with 1 by lia.
    change (Z.to_nat (8 - 8)) with 0%nat. change (Z.to_nat (8 - 1)) with 7%nat.
    rewrite !app_nil_r, byte_bits_low_bits.
    apply (low_bits_push 8 7). lia.
  - split; cbn [bitsLeft]; [lia|].
    exists []. cbn [written bytes]. rewrite app_nil_r.
    split; [reflexivity|]. split; [cbn; lia|].
    unfold pending. cbn [s bitsLeft flat_map app].
    replace (Z.to_nat (8 - (bitsLeft t - 1))) with (S (Z.to_nat (8 - bitsLeft t))) by lia.
    apply (low_bits_push 8). lia.
Qed.

Lemma put_bits_extends bits t :
  1 <= bitsLeft t <= 8 ->
  extends t (fold_left put_bit (Z.b2z <$> bits) t) bits.
Proof.
  induction bits as [|b bits IH] in t |- *; intros Ht; [now apply extends_refl|].
  rewrite fmap_cons, fold_left_cons.
  pose proof (put_bit_extends t b Ht) as H1.
  apply (extends_trans _ _ _ [b] bits H1). apply IH.
  exact (extends_bitsLeft _ _ _ H1).
Qed.

Lemma put_power_bits t power :
  put_power t power = fold_left put_bit (Z.b2z <$> power_bits power) t.
Proof.
  unfold put_power, bit_positions, power_bits, low_bits.
  generalize (reverse (seq 0 31)). intros l.
  induction l as [|j l IH] in t |- *; [reflexivity|].
  cbn [fmap list_fmap fold_left]. rewrite <- IH.
  rewrite land_1, Z.shiftr_spec by lia. reflexivity.
Qed.

Lemma put_powers_extends LFpowers t :
  1 <= bitsLeft t <= 8 ->
  extends t (fold_left put_power LFpowers t) (flat_map power_bits LFpowers).
Proof.
  induction LFpowers as [|power LFpowers IH] in t |- *; intros Ht;
    [now apply extends_refl|].
  rewrite fold_left_cons, flat_map_cons, put_power_bits.
  pose proof (put_bits_extends (power_bits power) t Ht) as H1.
  apply (extends_trans _ _ _ _ _ H1). apply IH.
  exact (extends_bitsLeft _ _ _ H1).
Qed.

(** The byte written last: the pending bits, then zeros. *)
Lemma byte_bits_last t :
  1 <= bitsLeft t <= 8 ->
  byte_bits (wrap8 (Z.shiftl (s t) (bitsLeft t)))
  = pending t ++ replicate (Z.to_nat (bitsLeft t)) false.
Proof.
  intros Ht. rewrite byte_bits_low_bits. unfold wrap8, pending.
  rewrite low_bits_wrap by lia.
  replace 8%nat with (Z.to_nat (8 - bitsLeft t) + Z.to_nat (bitsLeft t))%nat at 1 by lia.
  rewrite <- low_bits_shiftl, Z2Nat.id by lia. reflexivity.
Qed.

(** The trailer: a byte for the count, then the bits of the powers and
    fewer than 8 zeros; the value returned is the number of bytes. *)
Lemma writeTrailer_layout LFpowers :
  (1 <= length LFpowers <= 256)%nat ->
  exists body pad,
    writeTrailer LFpowers
    = (Z.of_nat (S (length body)), (Z.of_nat (length LFpowers) - 1) :: body) /\
    flat_map byte_bits body = flat_map power_bits LFpowers ++ replicate pad false /\
    (pad < 8)%nat.
Proof.
  intros Hlen. unfold writeTrailer.
  assert (wrap8 (wrap64 (Z.of_nat (length LFpowers) - 1))
          = Z.of_nat (length LFpowers) - 1) as ->.
  { unfold wrap8, wrap64. rewrite (wrap_small 64) by lia. apply wrap_small. lia. }
  set (count := Z.of_nat (length LFpowers) - 1).
  destruct (put_powers_extends LFpowers (mkTrailer count 8 1 [count]))
    as [Hleft (body & Hw & Hb & Hp)]; [cbn; lia|].
  cbn [written bytes] in Hw, Hb. unfold pending at 2 in Hp.
  cbn [s bitsLeft] in Hp.
  change (low_bits (Z.to_nat (8 - 8)) count) with (@nil bool) in Hp.
  cbn [app] in Hp.
  set (t := fold_left put_power LFpowers (mkTrailer count 8 1 [count])) in *.
  destruct (Z.ltb_spec (bitsLeft t) 8) as [Hlt | Hge].
  - exists (body ++ [wrap8 (Z.shiftl (s t) (bitsLeft t))]), (Z.to_nat (bitsLeft t)).
    rewrite Hw, Hb, length_app, flat_map_app. cbn [length flat_map app].
    rewrite app_nil_r, byte_bits_last, app_assoc, Hp by lia.
    split; [f_equal; lia|]. split; [reflexivity | lia].
  - exists body, 0%nat. rewrite Hw, Hb. cbn [replicate].
    rewrite app_nil_r, <- Hp. unfold pending.
    replace (bitsLeft t) with 8 by lia.
    change (low_bits (Z.to_nat (8 - 8)) (s t)) with (@nil bool).
    rewrite app_nil_r.
    split; [f_equal; lia|]. split; [reflexivity | lia].
Qed.

Lemma read_position_bits n pos input :
  read_position n pos input =
  '(bits, input) ← read_bits n input;
  Some (fold_left (fun pos b => wrap32 (Z.lor (Z.shiftl pos 1) (Z.b2z b))) bits pos,
        input).
Proof.
  induction n as [|n IH] in pos, input |- *; [reflexivity|].
  cbn [read_position read_bits].
  destruct (readBit input) as [[bit input1]|]; [|reflexivity].
  cbn [mbind option_bind]. rewrite IH.
  destruct (read_bits n input1) as [[bits input2]|]; reflexivity.
Qed.

Lemma read_positions_bits LFpowers input input' :
  Forall (fun power => 0 <= power < 2 ^ 31) LFpowers ->
  read_bits (31 * length LFpowers) input = Some (flat_map power_bits LFpowers, input') ->
  read_positions (length LFpowers) input = Some (LFpowers, input').
Proof.
  intros Hall. induction Hall as [|power LFpowers Hpower Hall IH] in input |- *.
  - cbn. now intros [= <-].
  - cbn [length flat_map read_positions].
    replace (31 * S (length LFpowers))%nat with (31 + 31 * length LFpowers)%nat by lia.
    rewrite read_bits_add, read_position_bits.
    destruct (read_bits 31 input) as [[bits1 input1]|] eqn:E1; [|discriminate].
    cbn [mbind option_bind].
    destruct (read_bits (31 * length LFpowers) input1) as [[bits2 input2]|] eqn:E2;
      [|discriminate].
    cbn [mbind option_bind]. intros H.
    assert (bits1 ++ bits2 = power_bits power ++ flat_map power_bits LFpowers) as Hbits
      by congruence.
    assert (input2 = input') as -> by congruence. clear H.
    apply app_inj_1 in Hbits as [-> ->].
    2: { apply read_bits_length in E1. rewrite E1. unfold power_bits.
         now rewrite low_bits_length. }
    rewrite (IH _ E2). cbn [mbind option_bind].
    unfold power_bits, wrap32. rewrite (shift_in_low_bits 32 31) by lia.
    rewrite Z.mod_small by (change (Z.of_nat 31) with 31; lia). reflexivity.
Qed.

Lemma flat_map_byte_bits_length l : length (flat_map byte_bits l) = (8 * length l)%nat.
Proof.
  induction l as [|b l IH]; [reflexivity|].
  rewrite flat_map_cons, length_app, IH. cbn [length byte_bits map]. lia.
Qed.

Lemma flat_map_power_bits_length l :
  length (flat_map power_bits l) = (31 * length l)%nat.
Proof.
  induction l as [|b l IH]; [reflexivity|].
  rewrite flat_map_cons, length_app, IH. unfold power_bits.
  rewrite low_bits_length. cbn [length]. lia.
Qed.

(** C9. For a vector of 1 to 256 LF powers, each below 2^31, [writeTrailer]
    writes a byte that holds the count minus one, then the 31 bits of every
    power, most significant first, and zeros up to the byte boundary; the
    value it returns is the number of bytes it wrote; and the end of
    [decodeBlock] reads the same powers from these bytes and leaves the
    stream at the byte after them. *)
Theorem writeTrailer_readTrailer (LFpowers : list Z) (input0 : RawInStream)
    (rest : list Z) :
  LFpowers <> [] -> (length LFpowers <= 256)%nat ->
  Forall (fun power => 0 <= power < 2 ^ 31) LFpowers ->
  input input0 = (writeTrailer LFpowers).2 ++ rest ->
  (exists body pad,
      (writeTrailer LFpowers).2 = (Z.of_nat (length LFpowers) - 1) :: body /\
      flat_map byte_bits body = flat_map power_bits LFpowers ++ replicate pad false /\
      (pad < 8)%nat) /\
  (writeTrailer LFpowers).1 = Z.of_nat (length (writeTrailer LFpowers).2) /\
  readTrailer input0 = Some (LFpowers, mkIn [] rest).
Proof.
  intros Hne Hlen Hall Hin.
  assert (1 <= length LFpowers <= 256)%nat as Hlen'
    by (destruct LFpowers; [congruence | cbn [length] in *; lia]).
  destruct (writeTrailer_layout LFpowers Hlen') as (body & pad & Hw & Hbits & Hpad).
  rewrite Hw in *. cbn [fst snd] in *.
  split; [exists body, pad; auto|]. split; [reflexivity|].
  unfold readTrailer, readByte. rewrite Hin. cbn [app mbind option_bind].
  replace (Z.of_nat (length LFpowers) - 1 + 1) with (Z.of_nat (length LFpowers)) by lia.
  unfold wrap32. rewrite wrap_small, Nat2Z.id by lia.
  pose proof (f_equal length Hbits) as Hl.
  rewrite length_app, flat_map_byte_bits_length, flat_map_power_bits_length,
    length_replicate in Hl.
  rewrite (read_positions_bits LFpowers _ (mkIn (replicate pad false) rest) Hall).
  - reflexivity.
  - rewrite read_bits_aligned by lia. rewrite Hbits.
    rewrite <- flat_map_power_bits_length.
    rewrite take_app_length, drop_app_length. reflexivity.
Qed.

Lemma writeTrailer_readTrailer_witness :
  readTrailer (mkIn [] [0; 0; 0; 0; 10; 77]) = Some ([5], mkIn [] [77]).
Proof.
  apply (writeTrailer_readTrailer [5] (mkIn [] [0; 0; 0; 0; 10; 77]) [77]).
  - discriminate.
  - cbn. lia.
  - repeat constructor; lia.
  - reflexivity.
Defined.

(** *** Gamma codes *)

Lemma gamma_code_length n :
  Z.of_nat (length (gamma_code n)) = 2 * Z.log2 n + 1.
Proof.
  unfold gamma_code. rewrite length_app, length_replicate, low_bits_length.
  pose proof (Z.log2_nonneg n). lia.
Qed.

Lemma log2_bounds n :
  1 <= n < 2 ^ 31 -> 0 <= Z.log2 n <= 30 /\ 2 ^ Z.log2 n <= n < 2 ^ (Z.log2 n + 1).
Proof.
  intros Hn. pose proof (Z.log2_spec n ltac:(lia)) as H.
  pose proof (Z.log2_nonneg n).
  assert (Z.log2 n < 31) by (apply Z.log2_lt_pow2; lia).
  rewrite <- Z.add_1_r in H. lia.
Qed.

(** The code as the [2⌊log2 n⌋+1] low bits of [n]. *)
Lemma gamma_code_low_bits n :
  1 <= n < 2 ^ 31 ->
  gamma_code n = low_bits (Z.to_nat (Z.log2 n * 2 + 1)) n.
Proof.
  intros Hn. destruct (log2_bounds n Hn) as [HL Hpow]. unfold gamma_code.
  replace (Z.to_nat (Z.log2 n * 2 + 1))
    with (Z.to_nat (Z.log2 n) + S (Z.to_nat (Z.log2 n)))%nat by lia.
  rewrite low_bits_small; [reflexivity|].
  replace (Z.of_nat (S (Z.to_nat (Z.log2 n)))) with (Z.log2 n + 1) by lia. lia.
Qed.

(** The code as the decoder meets it: the zeros, a one, the bits under it. *)
Lemma gamma_code_one n :
  1 <= n < 2 ^ 31 ->
  gamma_code n = replicate (Z.to_nat (Z.log2 n)) false
                 ++ true :: low_bits (Z.to_nat (Z.log2 n)) n.
Proof.
  intros Hn. destruct (log2_bounds n Hn) as [HL Hpow]. unfold gamma_code.
  rewrite low_bits_S, Z2Nat.id, Z.bit_log2 by lia. reflexivity.
Qed.

Lemma count_zeros_spec k steps zeros input rest :
  (k < steps)%nat ->
  stream_bits input = replicate k false ++ true :: rest ->
  exists input', count_zeros steps zeros input = Some (zeros + Z.of_nat k, input')
                 /\ stream_bits input' = rest.
Proof.
  induction k as [|k IH] in steps, zeros, input |- *; intros Hk H;
    (destruct steps as [|steps]; [lia|]); cbn [replicate app] in H;
    destruct (readBit_stream_bits _ _ _ H) as (input1 & E & H1);
    cbn [count_zeros]; rewrite E; cbn [mbind option_bind].
  - exists input1. split; [f_equal; f_equal; lia | assumption].
  - destruct (IH steps (zeros + 1) input1 ltac:(lia) H1) as (input2 & -> & H2).
    exists input2. split; [f_equal; f_equal; lia | assumption].
Qed.

Lemma read_value_bits n value input :
  read_value n value input =
  '(bits, input) ← read_bits n input;
  Some (fold_left (fun pos b => wrap64 (Z.lor (Z.shiftl pos 1) (Z.b2z b))) bits value,
        input).
Proof.
  induction n as [|n IH] in value, input |- *; [reflexivity|].
  cbn [read_value read_bits].
  destruct (readBit input) as [[bit input1]|]; [|reflexivity].
  cbn [mbind option_bind]. rewrite IH.
  destruct (read_bits n input1) as [[bits input2]|]; reflexivity.
Qed.

(** The decoder reads [n] from a stream that starts with its code and stops
    just after the code. *)
Lemma read_runlen_gamma_code n input rest :
  1 <= n < 2 ^ 31 ->
  stream_bits input = gamma_code n ++ rest ->
  exists input', read_runlen input = Some (n, input') /\ stream_bits input' = rest.
Proof.
  intros Hn H. destruct (log2_bounds n Hn) as [HL Hpow].
  rewrite gamma_code_one, <- app_assoc in H by assumption. cbn [app] in H.
  unfold read_runlen.
  assert (Z.to_nat (Z.log2 n) < S (length (stream_bits input)))%nat as Hsteps.
  { rewrite H, length_app, length_replicate. cbn [length]. lia. }
  destruct (count_zeros_spec _ _ 0 input _ Hsteps H) as (input1 & -> & H1).
  cbn [mbind option_bind]. rewrite Z.add_0_l, Z2Nat.id by lia.
  rewrite read_value_bits.
  pose proof (read_bits_stream_bits _ _ _ H1) as (input2 & E & H2).
  rewrite low_bits_length in E. rewrite E. cbn [mbind option_bind].
  destruct (Z.ltb_spec 30 (Z.log2 n)) as [|_]; [lia|].
  exists input2. split; [|assumption]. do 2 f_equal.
  unfold wrap64. rewrite (shift_in_low_bits 64) by lia.
  rewrite Z2Nat.id by lia.
  assert (0 < 2 ^ Z.log2 n) as Hpos by (apply Z.pow_pos_nonneg; lia).
  pose proof (Z.mod_pos_bound n (2 ^ Z.log2 n) Hpos) as Hr.
  rewrite Z.shiftl_mul_pow2, lor_shift_add by lia.
  rewrite Z.pow_add_r, Z.pow_1_r in Hpow by lia.
  assert (n / 2 ^ Z.log2 n = 1) as Hq.
  { symmetry. apply (Z.div_unique n (2 ^ Z.log2 n) 1 (n - 2 ^ Z.log2 n)); lia. }
  pose proof (Z.div_mod n (2 ^ Z.log2 n) ltac:(lia)) as Hdm. rewrite Hq in Hdm.
  unfold wrap32. rewrite wrap_small; lia.
Qed.

(** One byte leaves the buffer. *)
Lemma byte_bits_of_buffer buffer k :
  0 <= k ->
  byte_bits (Z.land (Z.shiftr buffer k) 0xff)
  ++ low_bits (Z.to_nat k) buffer = low_bits (Z.to_nat (k + 8)) buffer.
Proof.
  intros Hk. replace (Z.to_nat (k + 8)) with (8 + Z.to_nat k)%nat by lia.
  rewrite low_bits_add, Z2Nat.id, byte_bits_low_bits by lia. f_equal.
  change 0xff with 0xFF. rewrite land_0xFF.
  apply (low_bits_wrap 8 8). lia.
Qed.

(** The loop [write_bytes] stops before the shift count is negative when the
    condition is false of the bits that do not fill a byte; it writes the
    bits of the buffer it no longer counts as held. *)
Lemma write_bytes_spec continue buffer steps bitsInBuffer out :
  0 <= bitsInBuffer -> (Z.to_nat bitsInBuffer < steps)%nat ->
  continue (bitsInBuffer mod 8) = false ->
  exists held more,
    write_bytes steps continue buffer bitsInBuffer out = Some (held, out ++ more) /\
    0 <= held <= bitsInBuffer /\ continue held = false /\
    held mod 8 = bitsInBuffer mod 8 /\
    flat_map byte_bits more ++ low_bits (Z.to_nat held) buffer
    = low_bits (Z.to_nat bitsInBuffer) buffer.
Proof.
  induction steps as [|steps IH] in bitsInBuffer, out |- *; intros Hb Hsteps Hstop;
    [lia|].
  cbn [write_bytes]. destruct (continue bitsInBuffer) eqn:Hc.
  - assert (8 <= bitsInBuffer) as Hge.
    { destruct (Z.lt_ge_cases bitsInBuffer 8); [|assumption].
      rewrite Z.mod_small in Hstop by lia. congruence. }
    destruct (Z.ltb_spec (bitsInBuffer - 8) 0) as [|_]; [lia|].
    assert ((bitsInBuffer - 8) mod 8 = bitsInBuffer mod 8) as Hmod.
    { replace (bitsInBuffer - 8) with (bitsInBuffer + (-1) * 8) by lia.
      apply Z.mod_add. lia. }
    destruct (IH (bitsInBuffer - 8)
                (out ++ [Z.land (Z.shiftr buffer (bitsInBuffer - 8)) 0xff]))
      as (held & more & -> & Hheld & Hc' & Hm & Hbits); [lia | lia | congruence |].
    exists held, (Z.land (Z.shiftr buffer (bitsInBuffer - 8)) 0xff :: more).
    rewrite <- app_assoc. split; [reflexivity|].
    split; [lia|]. split; [assumption|]. split; [congruence|].
    rewrite flat_map_cons, <- app_assoc, Hbits, byte_bits_of_buffer by lia.
    f_equal. f_equal. lia.
  - exists bitsInBuffer, []. rewrite app_nil_r.
    split; [reflexivity|]. split; [lia|]. split; [assumption|].
    split; reflexivity.
Qed.

(** A run length enters the buffer as its gamma code, unless the buffer holds
    a part of a byte and the code is longer than 57 bits. *)
Lemma put_runlen_spec buffer bitsInBuffer out n :
  0 <= bitsInBuffer <= 64 -> 1 <= n < 2 ^ 31 ->
  n < 2 ^ 29 \/ bitsInBuffer mod 8 = 0 ->
  exists buffer' bitsInBuffer' more,
    put_runlen (buffer, bitsInBuffer, out) n
    = Some (buffer', bitsInBuffer', out ++ more) /\
    0 <= bitsInBuffer' <= 64 /\
    flat_map byte_bits more ++ low_bits (Z.to_nat bitsInBuffer') buffer'
    = low_bits (Z.to_nat bitsInBuffer) buffer ++ gamma_code n.
Proof.
  intros Hb Hn Hsafe. destruct (log2_bounds n Hn) as [HL Hpow].
  unfold put_runlen, logFloor.
  set (gammaCodeLen := Z.log2 n * 2 + 1).
  assert (Z.log2 n < 29 \/ bitsInBuffer mod 8 = 0) as Hsafe'.
  { destruct Hsafe as [Hlt | ?]; [left | now right].
    apply Z.log2_lt_pow2; lia. }
  pose proof (Z.mod_pos_bound bitsInBuffer 8 ltac:(lia)) as Hmod.
  destruct (write_bytes_spec (fun b => 64 <? b + gammaCodeLen) buffer
              (S (Z.to_nat bitsInBuffer)) bitsInBuffer out)
    as (held & more & -> & Hheld & Hc & _ & Hbits); [lia | lia | |].
  { apply Z.ltb_ge. unfold gammaCodeLen. lia. }
  apply Z.ltb_ge in Hc. cbn [mbind option_bind].
  exists (Z.lor (shl64 buffer gammaCodeLen) n), (held + gammaCodeLen), more.
  split; [reflexivity|]. split; [unfold gammaCodeLen in *; lia|].
  rewrite <- Hbits, <- app_assoc. f_equal.
  replace (Z.to_nat (held + gammaCodeLen))
    with (Z.to_nat held + Z.to_nat gammaCodeLen)%nat by (unfold gammaCodeLen; lia).
  rewrite low_bits_add, gamma_code_low_bits by assumption.
  fold gammaCodeLen.
  assert (0 < gammaCodeLen <= 61) as Hg by (unfold gammaCodeLen; lia).
  f_equal; apply low_bits_ext; intros j Hj.
  - rewrite Z.shiftr_spec, Z.lor_spec by lia. unfold shl64, wrap64, wrap.
    rewrite Z.mod_pow2_bits_low, Z.shiftl_spec by lia.
    rewrite (Z.bits_above_log2 n) by (unfold gammaCodeLen in *; lia).
    rewrite orb_false_r. f_equal. lia.
  - rewrite Z.lor_spec. unfold shl64, wrap64, wrap.
    rewrite Z.mod_pow2_bits_low, Z.shiftl_spec_low by lia. reflexivity.
Qed.

Lemma put_runlens_spec runlen buffer bitsInBuffer out :
  0 <= bitsInBuffer <= 64 ->
  Forall (fun n => 1 <= n < 2 ^ 29) runlen ->
  exists buffer' bitsInBuffer' more,
    put_runlens (Some (buffer, bitsInBuffer, out)) runlen
    = Some (buffer', bitsInBuffer', out ++ more) /\
    0 <= bitsInBuffer' <= 64 /\
    flat_map byte_bits more ++ low_bits (Z.to_nat bitsInBuffer') buffer'
    = low_bits (Z.to_nat bitsInBuffer) buffer ++ flat_map gamma_code runlen.
Proof.
  intros Hb Hall.
  induction Hall as [|n runlen Hn Hall IH] in buffer, bitsInBuffer, out, Hb |- *.
  - exists buffer, bitsInBuffer, []. rewrite !app_nil_r. cbn. auto.
  - destruct (put_runlen_spec buffer bitsInBuffer out n Hb)
      as (buffer1 & bits1 & more1 & E1 & Hb1 & H1); [lia | left; lia |].
    destruct (IH buffer1 bits1 (out ++ more1) Hb1)
      as (buffer2 & bits2 & more2 & E2 & Hb2 & H2).
    exists buffer2, bits2, (more1 ++ more2).
    unfold put_runlens in *. cbn [foldl mbind option_bind]. rewrite E1, E2.
    rewrite flat_map_app, flat_map_cons, !app_assoc, <- H1, <- !app_assoc, H2.
    auto.
Qed.

(** The end of "Store the lengths of runs": what the buffer holds is
    written, with zeros up to the byte boundary. *)
Lemma encode_runlens_finish runlen buffer bitsInBuffer out bits :
  put_runlens (Some (0, 0, [])) runlen = Some (buffer, bitsInBuffer, out) ->
  0 <= bitsInBuffer <= 64 ->
  flat_map byte_bits out ++ low_bits (Z.to_nat bitsInBuffer) buffer = bits ->
  exists bytes pad,
    encode_runlens runlen = Some bytes /\
    flat_map byte_bits bytes = bits ++ replicate pad false /\ (pad < 8)%nat.
Proof.
  intros E Hb Hbits. unfold encode_runlens.
  rewrite E. cbn [mbind option_bind].
  pose proof (Z.mod_pos_bound bitsInBuffer 8 ltac:(lia)) as Hmod.
  destruct (write_bytes_spec (fun b => 8 <=? b) buffer
              (S (Z.to_nat bitsInBuffer)) bitsInBuffer out)
    as (held & more & -> & Hheld & Hc & _ & Hmore); [lia | lia | |].
  { apply Z.leb_gt. lia. }
  apply Z.leb_gt in Hc. cbn [mbind option_bind].
  rewrite <- Hbits, <- Hmore, app_assoc, <- flat_map_app.
  destruct (Z.ltb_spec 0 held) as [Hpos | Hzero].
  - exists ((out ++ more) ++ [Z.land (shl64 buffer (8 - held)) 0xff]), (Z.to_nat (8 - held)).
    split; [reflexivity|]. split; [|lia].
    rewrite (flat_map_app _ (out ++ more)), <- app_assoc. f_equal.
    rewrite flat_map_cons, app_nil_r, byte_bits_low_bits.
    change 0xff with 0xFF. rewrite land_0xFF.
    change (shl64 buffer (8 - held) mod 256) with (wrap 8 (shl64 buffer (8 - held))).
    rewrite (low_bits_wrap 8 8) by lia. unfold shl64, wrap64.
    rewrite low_bits_wrap by lia.
    replace 8%nat with (Z.to_nat held + Z.to_nat (8 - held))%nat at 1 by lia.
    rewrite <- low_bits_shiftl, Z2Nat.id by lia. reflexivity.
  - exists (out ++ more), 0%nat. split; [reflexivity|]. split; [|lia].
    replace held with 0 by lia.
    change (low_bits (Z.to_nat 0) buffer) with (@nil bool).
    now rewrite !app_nil_r.
Qed.

(** For a run length [n] in [1, 2^31): its gamma code, [⌊log2 n⌋]
    zeros and then [n] in binary, has [2⌊log2 n⌋+1] bits; the encoder writes
    this code, followed by zeros up to the byte boundary, for a run of
    length [n] put into the empty buffer; and the decoder's reader, on a
    stream that starts with the code, returns [n] and leaves the stream just
    after the code. *)
Theorem gamma_code_roundtrip (n : Z) :
  1 <= n < 2 ^ 31 ->
  Z.of_nat (length (gamma_code n)) = 2 * Z.log2 n + 1 /\
  (exists bytes pad,
      encode_runlens [n] = Some bytes /\
      flat_map byte_bits bytes = gamma_code n ++ replicate pad false /\
      (pad < 8)%nat) /\
  (forall input rest,
      stream_bits input = gamma_code n ++ rest ->
      exists input', read_runlen input = Some (n, input')
                     /\ stream_bits input' = rest).
Proof.
  intros Hn. split; [apply gamma_code_length|]. split.
  - destruct (put_runlen_spec 0 0 [] n) as (buffer & bits & more & E & Hb & H);
      [lia | lia | now right |].
    apply (encode_runlens_finish [n] buffer bits more); [|assumption|].
    + unfold put_runlens. cbn [foldl mbind option_bind]. exact E.
    + exact H.
  - intros input rest. now apply read_runlen_gamma_code.
Qed.

Lemma gamma_code_roundtrip_witness :
  Z.of_nat (length (gamma_code 5)) = 2 * Z.log2 5 + 1 /\
  (exists bytes pad,
      encode_runlens [5] = Some bytes /\
      flat_map byte_bits bytes = gamma_code 5 ++ replicate pad false /\
      (pad < 8)%nat) /\
  (forall input rest,
      stream_bits input = gamma_code 5 ++ rest ->
      exists input', read_runlen input = Some (5, input')
                     /\ stream_bits input' = rest).
Proof. apply (gamma_code_roundtrip 5). lia. Defined.

(** X1. Run lengths in [1, 2^29) are written one gamma code after the
    other, with zeros up to the byte boundary after the last. *)
Theorem encode_runlens_gamma_codes (runlen : list Z) :
  Forall (fun n => 1 <= n < 2 ^ 29) runlen ->
  exists bytes pad,
    encode_runlens runlen = Some bytes /\
    flat_map byte_bits bytes = flat_map gamma_code runlen ++ replicate pad false /\
    (pad < 8)%nat.
Proof.
  intros Hall.
  destruct (put_runlens_spec runlen 0 0 [] ltac:(lia) Hall)
    as (buffer & bits & more & E & Hb & H).
  apply (encode_runlens_finish runlen buffer bits more); assumption.
Qed.

Lemma encode_runlens_gamma_codes_witness :
  exists bytes pad,
    encode_runlens [2; 1; 5] = Some bytes /\
    flat_map byte_bits bytes = flat_map gamma_code [2; 1; 5] ++ replicate pad false /\
    (pad < 8)%nat.
Proof. apply (encode_runlens_gamma_codes [2; 1; 5]). repeat constructor; lia. Defined.

(** A code of 61 bits after 4 bits that wait in the buffer: the loop
    that makes room takes 8 from [bitsInBuffer] and shifts by -4. *)
Example encode_runlens_negative_shift :
  encode_runlens [2; 1; 2 ^ 30] = None.
Proof. reflexivity. Qed.

(** C7. A run of [2^30] bytes that follows a run of 4 is not written as
    its gamma code: the code of 4 leaves 5 bits in the buffer, the code of
    [2^30] has 61, and the loop that makes room for it takes [bitsInBuffer]
    to -3 and shifts [buffer] by it, which C++ does not define. No bytes are
    written for the decoder's reader to return [2^30] from. *)
Theorem encode_runlens_run_after_run :
  put_runlens (Some (0, 0, [])) [4] = Some (4, 5, []) /\
  put_runlen (4, 5, []) (2 ^ 30) = None /\
  encode_runlens [4; 2 ^ 30] = None.
Proof. repeat split; reflexivity. Qed.

End HuffmanCoders.

(** ** Packed integers on the stream ([HuffmanCoders.cpp], [WaveletCoders.cpp]) *)

Module PackedWriter.
Import Word Coders Streams PackedReader.
Local Open Scope Z_scope.

(** [writePackedInteger], the same code in [HuffmanEncoder] and
    [WaveletEncoder]: [do { writeByte(packed_integer & 0xFF);
    packed_integer >>= 8; } while (packed_integer);]. The bytes are in the
    order written. A [uint64] is zero after eight shifts, so the nine
    [steps] are not used up ([None]). *)
Fixpoint writePackedInteger_loop (steps : nat) (packed_integer : Z) : option (list Z) :=
  match steps with
  | O => None
  | S steps' =>
      let to_written := wrap8 (Z.land packed_integer 0xFF) in
      let packed_integer := Z.shiftr packed_integer 8 in
      if packed_integer =? 0 then Some [to_written]
      else rest ← writePackedInteger_loop steps' packed_integer; Some (to_written :: rest)
  end.

Definition writePackedInteger (packed_integer : Z) : option (list Z) :=
  writePackedInteger_loop 9 packed_integer.

(** The number of 7-bit groups of [n], at most [k]. *)
Fixpoint groups (k : nat) (n : Z) : nat :=
  match k with
  | O => O
  | S k' => if n =? 0 then O else S (groups k' (n / 128))
  end.

(** The bytes of [packed k n], lowest first. *)
Fixpoint packed_bytes (k : nat) (n : Z) : list Z :=
  match k with
  | O => [0]
  | S k' => if n <? 128 then [n] else (n mod 128 + 128) :: packed_bytes k' (n / 128)
  end.

Example writePackedInteger_0x28AA : writePackedInteger 0x28AA = Some [0xAA; 0x28].
Proof. reflexivity. Qed.

Example writePackedInteger_0 : writePackedInteger 0 = Some [0].
Proof. reflexivity. Qed.

Lemma quotient_range k n :
  128 <= n < 2 ^ (7 * Z.of_nat (S k)) -> 1 <= n / 128 < 2 ^ (7 * Z.of_nat k).
Proof.
  intros Hn. replace (7 * Z.of_nat (S k)) with (7 + 7 * Z.of_nat k) in Hn by lia.
  rewrite Z.pow_add_r in Hn by lia. change (2 ^ 7) with 128 in Hn.
  split; [apply Z.div_le_lower_bound; lia | apply Z.div_lt_upper_bound; lia].
Qed.

Lemma packed_positive k n : 1 <= n < 2 ^ (7 * Z.of_nat k) -> 1 <= packed k n.
Proof.
  revert n. induction k as [|k IH]; intros n Hn; [cbn in Hn; lia|].
  cbn [packed]. destruct (Z.ltb_spec n 128); [lia|].
  pose proof (IH (n / 128) (quotient_range k n ltac:(lia))).
  pose proof (Z.mod_pos_bound n 128 ltac:(lia)). lia.
Qed.

(** [writePackedInteger] writes the bytes of a packed value, lowest first. *)
Lemma writePackedInteger_loop_packed k steps n :
  (k <= steps)%nat -> (0 < k)%nat -> 0 <= n < 2 ^ (7 * Z.of_nat k) ->
  writePackedInteger_loop steps (packed k n) = Some (packed_bytes k n).
Proof.
  revert steps n. induction k as [|k IH]; intros steps n Hsteps Hk Hn; [lia|].
  destruct steps as [|steps]; [lia|].
  cbn [writePackedInteger_loop packed packed_bytes].
  rewrite land_0xFF, Z.shiftr_div_pow2 by lia. change (2 ^ 8) with 256.
  destruct (Z.ltb_spec n 128) as [Hlt | Hge].
  - rewrite (Z.div_small n 256), (Z.mod_small n 256) by lia. cbn [Z.eqb].
    unfold wrap8. now rewrite wrap_small by lia.
  - pose proof (quotient_range k n ltac:(lia)) as Hq.
    pose proof (packed_positive k (n / 128) Hq) as Hp.
    pose proof (Z.mod_pos_bound n 128 ltac:(lia)) as Hmod.
    assert ((n mod 128 + 128 + 256 * packed k (n / 128)) / 256 = packed k (n / 128)) as ->
      by (Z.div_mod_to_equations; lia).
    assert ((n mod 128 + 128 + 256 * packed k (n / 128)) mod 256 = n mod 128 + 128) as ->
      by (Z.div_mod_to_equations; lia).
    destruct (Z.eqb_spec (packed k (n / 128)) 0); [lia|].
    destruct k as [|k']; [cbn in Hq; lia|].
    rewrite IH by lia. cbn [mbind option_bind].
    unfold wrap8. now rewrite wrap_small by lia.
Qed.

(** The bytes of a packed value: every byte but the last has its high bit
    set, and read lowest first they are the value. *)
Lemma packed_bytes_spec k n :
  (0 < k)%nat -> 0 <= n < 2 ^ (7 * Z.of_nat k) ->
  exists pre b,
    packed_bytes k n = pre ++ [b] /\ Forall is_byte (pre ++ [b]) /\
    Forall (fun x => high_bit x = true) pre /\ high_bit b = false /\
    (length pre < k)%nat /\
    little_endian_to_Z 8 (pre ++ [b]) = packed k n.
Proof.
  revert n. induction k as [|k IH]; intros n Hk Hn; [lia|].
  cbn [packed_bytes packed]. destruct (Z.ltb_spec n 128) as [Hlt | Hge].
  - exists [], n. cbn [app length]. split; [reflexivity|].
    split; [repeat constructor; lia|]. split; [constructor|].
    split.
    + unfold high_bit, kEndMask. change (Z.shiftl 1 7) with 0x80.
      rewrite land_0x80, (Z.div_small n 128) by lia. reflexivity.
    + split; [lia|]. cbn. rewrite Z.lor_0_r. reflexivity.
  - pose proof (quotient_range k n ltac:(lia)) as Hq.
    pose proof (Z.mod_pos_bound n 128 ltac:(lia)) as Hmod.
    destruct k as [|k']; [cbn in Hq; lia|].
    destruct (IH (n / 128) ltac:(lia) ltac:(lia)) as (pre & b & -> & Hbytes & Hpre & Hb & Hlen & Hval).
    exists ((n mod 128 + 128) :: pre), b. cbn [app length].
    split; [reflexivity|].
    assert (is_byte (n mod 128 + 128)) as Hbyte by (unfold is_byte; lia).
    split; [constructor; assumption|].
    split.
    + constructor; [|assumption].
      unfold high_bit, kEndMask. change (Z.shiftl 1 7) with 0x80.
      rewrite land_0x80.
      assert ((n mod 128 + 128) / 128 = 1) as -> by (Z.div_mod_to_equations; lia).
      reflexivity.
    + split; [assumption|]. split; [lia|].
      rewrite little_endian_cons, Hval by assumption. reflexivity.
Qed.

Lemma packed_bytes_length k n :
  0 < n < 2 ^ (7 * Z.of_nat k) -> length (packed_bytes k n) = groups k n.
Proof.
  revert n. induction k as [|k IH]; intros n Hn; [cbn in Hn; lia|].
  cbn [packed_bytes groups]. destruct (Z.eqb_spec n 0); [lia|].
  destruct (Z.ltb_spec n 128) as [Hlt | Hge].
  - rewrite (Z.div_small n 128) by lia.
    assert (groups k 0 = 0%nat) as -> by (destruct k; reflexivity). reflexivity.
  - cbn [length]. rewrite IH; [reflexivity|].
    pose proof (quotient_range k n ltac:(lia)). lia.
Qed.

(** [bytes_needed] counts the 7-bit groups. *)
Lemma PackInteger_loop_groups k steps i n r p c :
  (k <= steps)%nat -> 0 <= n < 2 ^ (7 * Z.of_nat k) ->
  PackInteger_loop steps i n r = Some (p, c) -> c = i + Z.of_nat (groups k n).
Proof.
  revert steps i n r. induction k as [|k IH]; intros steps i n r Hsteps Hn.
  - assert (n = 0) as -> by (cbn in Hn; lia).
    destruct steps; cbn; intros [= _ <-]; lia.
  - destruct steps as [|steps]; [lia|]. rewrite PackInteger_loop_step.
    cbn [groups]. destruct (Z.eqb_spec n 0); [intros [= _ <-]; lia|].
    destruct (negb (i <? 8)); [discriminate|]. cbv zeta.
    rewrite Z.shiftr_div_pow2 by lia. change (2 ^ 7) with 128.
    intros H. apply IH in H; [lia | lia |].
    replace (7 * Z.of_nat (S k)) with (7 + 7 * Z.of_nat k) in Hn by lia.
    rewrite Z.pow_add_r in Hn by lia. change (2 ^ 7) with 128 in Hn.
    split; [apply Z.div_pos; lia | apply Z.div_lt_upper_bound; lia].
Qed.

(** From [2^56] on the ninth iteration is reached. *)
Lemma PackInteger_loop_fails k steps i n r :
  (k < steps)%nat -> i = 8 - Z.of_nat k -> 2 ^ (7 * Z.of_nat k) <= n ->
  PackInteger_loop steps i n r = None.
Proof.
  revert steps i n r. induction k as [|k IH]; intros steps i n r Hsteps Hi Hn;
    (destruct steps as [|steps]; [lia|]); rewrite PackInteger_loop_step.
  - cbn in Hn. destruct (Z.eqb_spec n 0); [lia|].
    subst i. reflexivity.
  - replace (7 * Z.of_nat (S k)) with (7 + 7 * Z.of_nat k) in Hn by lia.
    rewrite Z.pow_add_r in Hn by lia. change (2 ^ 7) with 128 in Hn.
    assert (0 < 2 ^ (7 * Z.of_nat k)) by (apply Z.pow_pos_nonneg; lia).
    destruct (Z.eqb_spec n 0); [lia|].
    destruct (Z.ltb_spec i 8); [|lia]. cbn [negb]. cbv zeta.
    apply IH; [lia | lia |].
    rewrite Z.shiftr_div_pow2 by lia. change (2 ^ 7) with 128.
    apply Z.div_le_lower_bound; lia.
Qed.

Lemma groups_bounds k n :
  0 < n < 2 ^ (7 * Z.of_nat k) ->
  (0 < groups k n <= k)%nat /\
  2 ^ (7 * (Z.of_nat (groups k n) - 1)) <= n < 2 ^ (7 * Z.of_nat (groups k n)).
Proof.
  revert n. induction k as [|k IH]; intros n Hn; [cbn in Hn; lia|].
  cbn [groups]. destruct (Z.eqb_spec n 0); [lia|].
  destruct (Z.ltb_spec n 128) as [Hlt | Hge].
  - rewrite (Z.div_small n 128) by lia.
    assert (groups k 0 = 0%nat) as -> by (destruct k; reflexivity).
    cbn. lia.
  - pose proof (quotient_range k n ltac:(lia)) as Hq.
    destruct (IH (n / 128) ltac:(lia)) as [Hg Hb].
    split; [lia|].
    replace (7 * (Z.of_nat (S (groups k (n / 128))) - 1))
      with (7 + 7 * (Z.of_nat (groups k (n / 128)) - 1)) by lia.
    replace (7 * Z.of_nat (S (groups k (n / 128))))
      with (7 + 7 * Z.of_nat (groups k (n / 128))) by lia.
    rewrite !Z.pow_add_r by lia. change (2 ^ 7) with 128.
    pose proof (Z.div_mod n 128 ltac:(lia)).
    pose proof (Z.mod_pos_bound n 128 ltac:(lia)). lia.
Qed.

(** X4. [PackInteger] fails its assertion from [2^56] on; below, the
    [bytes_needed] it reports is the number of 7-bit groups of the integer
    and the packed value fits in as many bytes. *)
Theorem PackInteger_bytes_needed (n : Z) :
  0 <= n ->
  (2 ^ 56 <= n -> PackInteger n = None) /\
  (n < 2 ^ 56 ->
   exists p bytes_needed,
     PackInteger n = Some (p, bytes_needed) /\
     0 <= bytes_needed <= 8 /\ 0 <= p < 2 ^ (8 * bytes_needed) /\
     (n = 0 -> bytes_needed = 0) /\
     (0 < n -> 2 ^ (7 * (bytes_needed - 1)) <= n < 2 ^ (7 * bytes_needed))).
Proof.
  intros Hn. split.
  - intros Hbig. apply (PackInteger_loop_fails 8); [lia | reflexivity | exact Hbig].
  - intros Hsmall.
    destruct (PackInteger_loop_packed 8 9 0 n 0) as [c Hc]; try lia.
    change (2 ^ (8 * 0)) with 1 in Hc. rewrite Z.add_0_l, Z.mul_1_l in Hc.
    pose proof (PackInteger_loop_groups 8 9 0 n 0 _ _ ltac:(lia) ltac:(lia) Hc) as Hcount.
    exists (packed 8 n), c. split; [exact Hc|].
    destruct (Z.eq_dec n 0) as [-> | Hpos].
    + cbn in Hcount. subst c. cbn. lia.
    + destruct (groups_bounds 8 n ltac:(lia)) as [Hg Hb].
      destruct (packed_bytes_spec 8 n ltac:(lia) ltac:(lia))
        as (pre & b & Hbytes & Hall & _ & _ & _ & Hval).
      pose proof (little_endian_bound _ Hall) as Hle.
      rewrite Hval, <- Hbytes, packed_bytes_length in Hle by lia.
      rewrite Z.add_0_l in Hcount. subst c.
      split; [lia|]. split; [exact Hle|]. split; [lia|]. intros _. exact Hb.
Qed.

Lemma PackInteger_bytes_needed_witness :
  (2 ^ 56 <= 0x142A -> PackInteger 0x142A = None) /\
  (0x142A < 2 ^ 56 ->
   exists p bytes_needed,
     PackInteger 0x142A = Some (p, bytes_needed) /\
     0 <= bytes_needed <= 8 /\ 0 <= p < 2 ^ (8 * bytes_needed) /\
     (0x142A = 0 -> bytes_needed = 0) /\
     (0 < 0x142A -> 2 ^ (7 * (bytes_needed - 1)) <= 0x142A < 2 ^ (7 * bytes_needed))).
Proof. apply (PackInteger_bytes_needed 0x142A). lia. Defined.

(** X5. A length below [2^56] packed by [PackInteger], written by
    [writePackedInteger] and read by [readPackedInteger] comes back as the
    same packed value, which [UnpackInteger] turns into the length; the
    reader stops at the byte after those written. As many bytes are written
    as [bytes_needed] says, but for the length 0, which takes one byte
    where [bytes_needed] is 0. *)
Theorem writePackedInteger_readPackedInteger
    (shl_past_width : Z -> Z -> Z) (n : Z) (s : RawInStream) (rest : list Z) :
  0 <= n < 2 ^ 56 ->
  exists p bytes_needed bytes,
    PackInteger n = Some (p, bytes_needed) /\
    writePackedInteger p = Some bytes /\
    Z.of_nat (length bytes) = Z.max 1 bytes_needed /\
    (input s = bytes ++ rest ->
     readPackedInteger shl_past_width s = Some (p, mkIn [] rest)) /\
    UnpackInteger p = Some n.
Proof.
  intros Hn.
  destruct (PackInteger_loop_packed 8 9 0 n 0) as [c Hc]; try lia.
  change (2 ^ (8 * 0)) with 1 in Hc. rewrite Z.add_0_l, Z.mul_1_l in Hc.
  pose proof (PackInteger_loop_groups 8 9 0 n 0 _ _ ltac:(lia) ltac:(lia) Hc) as Hcount.
  rewrite Z.add_0_l in Hcount.
  destruct (packed_bytes_spec 8 n ltac:(lia) ltac:(lia))
    as (pre & b & Hbytes & Hall & Hpre & Hb & Hlen & Hval).
  exists (packed 8 n), c, (packed_bytes 8 n).
  split; [exact Hc|].
  split; [apply writePackedInteger_loop_packed; lia|].
  split.
  { destruct (Z.eq_dec n 0) as [-> | Hpos]; [subst c; reflexivity|].
    rewrite packed_bytes_length by lia.
    destruct (groups_bounds 8 n ltac:(lia)) as [Hg _]. lia. }
  split.
  - intros Hin. unfold readPackedInteger. rewrite Hin, Hbytes, <- app_assoc.
    cbn [app].
    rewrite readPackedInteger_loop_value; try assumption; try lia.
    change (2 ^ (8 * 0)) with 1. rewrite Z.add_0_l, Z.mul_1_l, Hval.
    destruct (Z.eqb_spec (packed 8 n) 0x80) as [Hend|]; [|reflexivity].
    destruct (Z.eq_dec n 0) as [-> | Hpos]; [discriminate Hend|].
    exfalso. now apply (PackInteger_not_0x80 n _ _ ltac:(lia) Hc).
  - unfold UnpackInteger.
    rewrite (UnpackInteger_loop_packed 7 9 n 0 0); try lia.
    f_equal. lia.
Qed.

Lemma writePackedInteger_readPackedInteger_witness :
  exists p bytes_needed bytes,
    PackInteger 0x142A = Some (p, bytes_needed) /\
    writePackedInteger p = Some bytes /\
    Z.of_nat (length bytes) = Z.max 1 bytes_needed /\
    (input (mkIn [] [0xAA; 0x28; 0x07]) = bytes ++ [0x07] ->
     readPackedInteger (fun _ _ => 0) (mkIn [] [0xAA; 0x28; 0x07])
     = Some (p, mkIn [] [0x07])) /\
    UnpackInteger p = Some 0x142A.
Proof.
  apply (writePackedInteger_readPackedInteger (fun _ _ => 0) 0x142A
           (mkIn [] [0xAA; 0x28; 0x07]) [0x07]).
  lia.
Defined.

(** [writePackedInteger] on any [uint64]: the bytes of the value, lowest
    first, up to the highest that is not zero. *)
Lemma writePackedInteger_loop_bytes k steps p :
  (k <= steps)%nat -> (0 < k)%nat -> 0 <= p < 2 ^ (8 * Z.of_nat k) ->
  exists bytes,
    writePackedInteger_loop steps p = Some bytes /\
    (0 < length bytes <= k)%nat /\ Forall is_byte bytes /\
    little_endian_to_Z 8 bytes = p /\
    (0 < p -> 2 ^ (8 * (Z.of_nat (length bytes) - 1)) <= p).
Proof.
  revert steps p. induction k as [|k IH]; intros steps p Hsteps Hk Hp; [lia|].
  destruct steps as [|steps]; [lia|]. cbn [writePackedInteger_loop].
  rewrite land_0xFF, Z.shiftr_div_pow2 by lia. change (2 ^ 8) with 256.
  pose proof (Z.mod_pos_bound p 256 ltac:(lia)) as Hmod.
  pose proof (Z.div_mod p 256 ltac:(lia)) as Hdm.
  unfold wrap8. rewrite wrap_small by lia.
  assert (is_byte (p mod 256)) as Hbyte by exact Hmod.
  destruct (Z.eqb_spec (p / 256) 0) as [Hq | Hq].
  - exists [p mod 256]. split; [reflexivity|]. cbn [length].
    split; [lia|]. split; [constructor; [exact Hbyte | constructor]|].
    split; [cbn; rewrite Z.lor_0_r; lia|]. cbn. lia.
  - replace (8 * Z.of_nat (S k)) with (8 + 8 * Z.of_nat k) in Hp by lia.
    rewrite Z.pow_add_r in Hp by lia. change (2 ^ 8) with 256 in Hp.
    assert (0 < p / 256 < 2 ^ (8 * Z.of_nat k)) as Hrange.
    { split; [|apply Z.div_lt_upper_bound; lia].
      assert (0 <= p / 256) by (apply Z.div_pos; lia). lia. }
    destruct k as [|k']; [cbn in Hrange; lia|].
    destruct (IH steps (p / 256) ltac:(lia) ltac:(lia) ltac:(lia))
      as (bytes & -> & Hlen & Hall & Hval & Hlow).
    exists (p mod 256 :: bytes). cbn [mbind option_bind length].
    split; [reflexivity|]. split; [lia|]. split; [constructor; assumption|].
    split; [rewrite little_endian_cons, Hval by assumption; lia|].
    intros _. specialize (Hlow ltac:(lia)).
    replace (8 * (Z.of_nat (S (length bytes)) - 1))
      with (8 + 8 * (Z.of_nat (length bytes) - 1)) by lia.
    rewrite Z.pow_add_r by lia. change (2 ^ 8) with 256. lia.
Qed.

(** X6. For every [uint64] [writePackedInteger] writes between one and
    eight bytes: the bytes of the value, lowest first, none of them for the
    zeros above the highest byte that is not zero. *)
Theorem writePackedInteger_bytes (packed_integer : Z) :
  0 <= packed_integer < 2 ^ 64 ->
  exists bytes,
    writePackedInteger packed_integer = Some bytes /\
    (1 <= length bytes <= 8)%nat /\ Forall is_byte bytes /\
    little_endian_to_Z 8 bytes = packed_integer /\
    (0 < packed_integer ->
     2 ^ (8 * (Z.of_nat (length bytes) - 1)) <= packed_integer).
Proof.
  intros Hp.
  destruct (writePackedInteger_loop_bytes 8 9 packed_integer)
    as (bytes & H & Hlen & Hrest); [lia | lia | exact Hp |].
  exists bytes. split; [exact H|]. split; [lia | exact Hrest].
Qed.

Lemma writePackedInteger_bytes_witness :
  exists bytes,
    writePackedInteger 0x28AA = Some bytes /\
    (1 <= length bytes <= 8)%nat /\ Forall is_byte bytes /\
    little_endian_to_Z 8 bytes = 0x28AA /\
    (0 < 0x28AA -> 2 ^ (8 * (Z.of_nat (length bytes) - 1)) <= 0x28AA).
Proof. apply (writePackedInteger_bytes 0x28AA). lia. Defined.

End PackedWriter.

(** ** Coding a byte bit by bit ([coders.cc], [probmodels/ProbabilityModel.hpp]) *)

Module ByteCoder.
Import Word.
Local Open Scope Z_scope.

(** [ProbabilityModel] of [ProbabilityModel.hpp]: its state is the field
    [m_prev], [true] in a new model. [kProbabilityScale] is a constant of
    [globaldefs.hpp]. *)
Definition ProbabilityModel : Type := bool.

Definition probabilityOfOne (kProbabilityScale : Z) (m_prev : ProbabilityModel) : Z :=
  if m_prev then kProbabilityScale - 1 else 1.

Definition update (m_prev : ProbabilityModel) (bit : bool) : ProbabilityModel := bit.

Section Model.

(** The model [pm_] of the coders: the methods are virtual, any model can
    stand behind them. *)
Variable model : Type.
Variable ProbabilityOfOne : model -> Z.
Variable Update : model -> bool -> model.

(** One round of the loop of [Encoder::EncodeByte]. The state is the byte
    [b], the model [pm_] and the calls [destination_->Encode(bit, p)] made
    so far, in their order. *)
Definition EncodeByte_step (state : Z * model * list (bool * Z)) (i : nat)
  : Z * model * list (bool * Z) :=
  let '(b, pm, encoded) := state in
  let bit := negb (Z.land b 0x80 =? 0) in
  let encoded := encoded ++ [(bit, ProbabilityOfOne pm)] in
  let pm := Update pm bit in
  (wrap8 (Z.shiftl b 1), pm, encoded).

(** [Encoder::EncodeByte]: the calls of [Encode] and the model it leaves. *)
Definition EncodeByte (pm : model) (b : Z) : list (bool * Z) * model :=
  let '(_, pm, encoded) := fold_left EncodeByte_step (seq 0 8) (b, pm, []) in
  (encoded, pm).

Section Source.

(** The bit decoder [source_], of a library: [Decode] takes a probability
    and the state of the decoder, and gives a bit. *)
Variable source : Type.
Variable Decode : Z -> source -> bool * source.

(** One round of the loop of [Decoder::DecodeByte]. *)
Definition DecodeByte_step (state : Z * model * source) (i : nat)
  : Z * model * source :=
  let '(b, pm, input) := state in
  let '(bit, input) := Decode (ProbabilityOfOne pm) input in
  let '(b, pm) := if bit : bool then (Z.lor b 1, Update pm true)
                  else (b, Update pm false) in
  let b := if Z.of_nat i <? 7 then wrap8 (Z.shiftl b 1) else b in
  (b, pm, input).

Definition DecodeByte (pm : model) (input : source) : Z * model * source :=
  fold_left DecodeByte_step (seq 0 8) (0, pm, input).

End Source.

(** A decoder that answers with the bits of a list and keeps the
    probabilities it was asked with. *)
Definition replay (probability : Z) (input : list bool * list Z)
  : bool * (list bool * list Z) :=
  match input.1 with
  | bit :: bits => (bit, (bits, input.2 ++ [probability]))
  | [] => (false, ([], input.2 ++ [probability]))
  end.

End Model.

Arguments EncodeByte {model}.
Arguments DecodeByte {model} _ _ {source}.

Lemma byte_cases (P : Z -> Prop) :
  (forall n, (n < 256)%nat -> P (Z.of_nat n)) -> forall b, 0 <= b < 256 -> P b.
Proof.
  intros HP b Hb. rewrite <- (Z2Nat.id b) by lia. apply HP. lia.
Qed.

(** X23. [DecodeByte] gives back the byte of [EncodeByte], whatever the
    probability model: fed the bits that [EncodeByte] passed to the bit
    encoder, in their order, it returns the byte, asks for each bit with the
    probability the bit was encoded with, and leaves its model in the state
    the encoder's model is in. *)
Theorem EncodeByte_DecodeByte {model : Type} (ProbabilityOfOne : model -> Z)
    (Update : model -> bool -> model) (pm : model) (b : Z) (bits : list bool) :
  0 <= b < 256 ->
  DecodeByte ProbabilityOfOne Update replay pm
             ((EncodeByte ProbabilityOfOne Update pm b).1.*1 ++ bits, [])
  = (b, (EncodeByte ProbabilityOfOne Update pm b).2,
     (bits, (EncodeByte ProbabilityOfOne Update pm b).1.*2)).
Proof.
  revert b. apply byte_cases. intros n Hn.
  do 256 (destruct n as [|n]; [vm_compute; reflexivity|]). lia.
Qed.

Lemma EncodeByte_DecodeByte_witness :
  DecodeByte (probabilityOfOne 4096) update replay true
             ((EncodeByte (probabilityOfOne 4096) update true 0xA5).1.*1
              ++ [true; false], [])
  = (0xA5, (EncodeByte (probabilityOfOne 4096) update true 0xA5).2,
     ([true; false], (EncodeByte (probabilityOfOne 4096) update true 0xA5).1.*2)).
Proof.
  apply (EncodeByte_DecodeByte (probabilityOfOne 4096) update true 0xA5 [true; false]).
  lia.
Defined.

End ByteCoder.

(** ** More of the Huffman coder's output ([HuffmanCoders.cpp]) *)

Module HuffmanOutput.
Import Word Streams HuffmanCoders.
Local Open Scope Z_scope.

(** *** The shape vector *)

(** The inner loop [for(; j < 8 && k < shape.size(); ++k, ++j)] of "Store
    Huffman code lengths" in [HuffmanEncoder::encodeData], the same as
    "Write shape vector to output" in [WaveletEncoder::encodeData]: [b] is a
    [byte], [room] counts what is left of the eight bits. It returns [b],
    [j] and the bits of [shape] not yet taken. *)
Fixpoint shape_byte (room : nat) (b j : Z) (shape : list bool) : Z * Z * list bool :=
  match room, shape with
  | S room', bit :: shape' =>
      let b := wrap8 (Z.shiftl b 1) in
      let b := wrap8 (Z.lor b (Z.b2z bit)) in
      shape_byte room' b (j + 1) shape'
  | _, _ => (b, j, shape)
  end.

(** The outer loop [for(size_t k = 0; k < shape.size();)]: the bytes given
    to [writeByte]; [m_compressedBlockLength] grows by one for each. Every
    iteration takes a bit, so [steps] from the length of [shape] are never
    used up ([None]). *)
Fixpoint write_shape (steps : nat) (shape : list bool) : option (list Z) :=
  match shape with
  | [] => Some []
  | _ :: _ =>
      match steps with
      | O => None
      | S steps' =>
          let '(b, j, shape') := shape_byte 8 0 0 shape in
          let b := if j <? 8 then wrap8 (Z.shiftl b (8 - j)) else b in
          bytes ← write_shape steps' shape'; Some (b :: bytes)
      end
  end.

Definition writeShape (shape : list bool) : option (list Z) :=
  write_shape (length shape) shape.

(** *** The Huffman codes of the run symbols *)

(** The body of [for (uint64 k = 0; k < nRuns; ++k)] in "Encode the data
    using Huffman code": [clen] and [code] are the arrays of [uint32] that
    [utils::computeHuffmanCodes] has filled, [c] is [runseq[k]]. The sum
    [bitsInBuffer + clen[c]] of an [int32] and a [uint32] is unsigned. *)
Definition put_symbol (clen code : list Z) (state : Z * Z * list Z) (c : Z)
  : option (Z * Z * list Z) :=
  let '(buffer, bitsInBuffer, out) := state in
  let len := clen !!! Z.to_nat c in
  '(bitsInBuffer, out) ←
    write_bytes (S (Z.to_nat bitsInBuffer))
      (fun bitsInBuffer => 64 <? wrap32 (bitsInBuffer + len))
      buffer bitsInBuffer out;
  let buffer := shl64 buffer len in
  let buffer := Z.lor buffer (code !!! Z.to_nat c) in
  Some (buffer, bitsInBuffer + len, out).

Definition put_symbols (clen code : list Z) (state : option (Z * Z * list Z))
    (runseq : list Z) : option (Z * Z * list Z) :=
  foldl (fun state c => state ← state; put_symbol clen code state c) state runseq.

(** "Flush the remaining bytes" and "Flush the remaining bits". *)
Definition flush (buffer bitsInBuffer : Z) (out : list Z) : option (list Z) :=
  '(bitsInBuffer, out) ←
    write_bytes (S (Z.to_nat bitsInBuffer)) (fun bitsInBuffer => 8 <=? bitsInBuffer)
      buffer bitsInBuffer out;
  if 0 <? bitsInBuffer then
    let buffer := shl64 buffer (8 - bitsInBuffer) in
    Some (out ++ [Z.land buffer 0xff])
  else Some out.

(** "Encode the data using Huffman code": the bytes written for the run
    symbols [runseq]. *)
Definition encode_symbols (clen code : list Z) (runseq : list Z) : option (list Z) :=
  '(buffer, bitsInBuffer, out) ← put_symbols clen code (Some (0, 0, [])) runseq;
  flush buffer bitsInBuffer out.

(** *** The table of leading zeros *)

(** [leadingZeros[p][k]] as "Compute lookup arrays" of
    [HuffmanDecoder::decodeBlock] fills it: [p], then [p - t - 1] for every
    [t < p] with [k & (1 << t)], in ascending order of [t]. *)
Definition leadingZeros (p k : Z) : Z :=
  fold_left (fun zeros t => if Z.land k (Z.shiftl 1 t) =? 0 then zeros else p - t - 1)
            (Z.of_nat <$> seq 0 (Z.to_nat p)) p.

(** *** Bit lists *)

(** The bits of the code of a symbol, most significant first. *)
Definition code_bits (clen code : list Z) (c : Z) : list bool :=
  low_bits (Z.to_nat (clen !!! Z.to_nat c)) (code !!! Z.to_nat c).

(** The number of zeros a list of bits starts with. *)
Fixpoint leading_zeros (bits : list bool) : Z :=
  match bits with
  | false :: bits' => 1 + leading_zeros bits'
  | _ => 0
  end.

Example writeShape_10 : writeShape [true; false; true; true; false; false; false; true; true; true]
                        = Some [0xB1; 0xC0].
Proof. reflexivity. Qed.

Example leadingZeros_5_6 : leadingZeros 5 6 = 2.
Proof. reflexivity. Qed.

(** *** The shape vector, proofs *)

Lemma low_bits_push_byte k x b :
  (S k <= 8)%nat ->
  low_bits (S k) (wrap8 (Z.lor (wrap8 (Z.shiftl x 1)) (Z.b2z b))) = low_bits k x ++ [b].
Proof.
  intros Hk. rewrite <- (low_bits_push 8 k x b) by lia.
  unfold wrap8. rewrite !low_bits_wrap by lia.
  apply low_bits_ext. intros j Hj. rewrite !Z.lor_spec. f_equal.
  unfold wrap. apply Z.mod_pow2_bits_low. lia.
Qed.

(** The inner loop takes the next bits, eight at most, into [b]. *)
Lemma shape_byte_spec room b j shape :
  0 <= j -> (Z.to_nat j + room = 8)%nat ->
  let taken := Nat.min room (length shape) in
  exists b',
    shape_byte room b j shape = (b', j + Z.of_nat taken, drop taken shape) /\
    low_bits (Z.to_nat j + taken)%nat b' = low_bits (Z.to_nat j) b ++ take taken shape.
Proof.
  revert b j shape. induction room as [|room IH]; intros b j shape Hj Hroom; cbv zeta.
  - exists b. cbn [shape_byte Nat.min drop take].
    rewrite Z.add_0_r, Nat.add_0_r, app_nil_r. auto.
  - destruct shape as [|bit shape].
    + exists b. cbn [shape_byte length Nat.min drop take].
      rewrite Z.add_0_r, Nat.add_0_r, app_nil_r. auto.
    + cbn [shape_byte length]. rewrite <- Nat.succ_min_distr.
      destruct (IH (wrap8 (Z.lor (wrap8 (Z.shiftl b 1)) (Z.b2z bit))) (j + 1) shape)
        as (b' & -> & Hbits); [lia | lia |].
      exists b'. cbn [drop take]. split; [do 2 f_equal; lia|].
      replace (Z.to_nat (j + 1)) with (S (Z.to_nat j)) in Hbits by lia.
      rewrite low_bits_push_byte in Hbits by lia.
      replace (Z.to_nat j + S (Nat.min room (length shape)))%nat
        with (S (Z.to_nat j) + Nat.min room (length shape))%nat by lia.
      rewrite Hbits, <- app_assoc. reflexivity.
Qed.

Lemma write_shape_nil steps : write_shape steps [] = Some [].
Proof. destruct steps; reflexivity. Qed.

Lemma write_shape_spec steps shape :
  (length shape <= steps)%nat ->
  exists bytes pad,
    write_shape steps shape = Some bytes /\
    flat_map byte_bits bytes = shape ++ replicate pad false /\ (pad < 8)%nat.
Proof.
  revert shape. induction steps as [|steps IH]; intros shape Hsteps.
  - destruct shape; [|cbn in Hsteps; lia]. exists [], 0%nat. cbn. auto with lia.
  - destruct shape as [|bit shape]; [exists [], 0%nat; cbn; auto with lia|].
    cbn [write_shape].
    destruct (shape_byte_spec 8 0 0 (bit :: shape)) as (b & -> & Hbits); [lia | lia |].
    set (taken := Nat.min 8 (length (bit :: shape))) in *.
    assert (0 < taken <= 8)%nat as Htaken by (subst taken; cbn [length]; lia).
    assert (length (drop taken (bit :: shape)) <= steps)%nat as Hdrop
      by (rewrite length_drop; cbn [length] in *; lia).
    change (Z.to_nat 0 + taken)%nat with taken in Hbits.
    change (low_bits (Z.to_nat 0) 0) with (@nil bool) in Hbits. cbn [app] in Hbits.
    destruct (Z.ltb_spec (0 + Z.of_nat taken) 8) as [Hlt | Hge].
    + assert (drop taken (bit :: shape) = []) as Hnil.
      { apply drop_ge. subst taken. lia. }
      rewrite Hnil, write_shape_nil. cbn [mbind option_bind].
      exists [wrap8 (Z.shiftl b (8 - (0 + Z.of_nat taken)))], (8 - taken)%nat.
      split; [reflexivity|]. split; [|lia].
      cbn [flat_map]. rewrite app_nil_r, byte_bits_low_bits. unfold wrap8.
      rewrite low_bits_wrap by lia.
      replace 8%nat with (taken + (8 - taken))%nat at 1 by lia.
      replace (8 - (0 + Z.of_nat taken)) with (Z.of_nat (8 - taken)) by lia.
      rewrite low_bits_shiftl, Hbits. f_equal.
      apply take_ge. subst taken. lia.
    + destruct (IH (drop taken (bit :: shape)) Hdrop) as (bytes & pad & -> & Hrest & Hpad).
      exists (b :: bytes), pad. cbn [mbind option_bind].
      split; [reflexivity|]. split; [|exact Hpad].
      cbn [flat_map]. rewrite Hrest, byte_bits_low_bits, app_assoc.
      replace 8%nat with taken at 1 by lia.
      rewrite Hbits, take_drop. reflexivity.
Qed.

(** X7. The shape vector is written eight bits a byte, the first bit in the
    most significant place, with zeros after the last bit up to the byte
    boundary; the number of bytes is the number of bits over eight, rounded
    up. *)
Theorem writeShape_bits (shape : list bool) :
  exists bytes pad,
    writeShape shape = Some bytes /\
    flat_map byte_bits bytes = shape ++ replicate pad false /\ (pad < 8)%nat /\
    Z.of_nat (length bytes) = (Z.of_nat (length shape) + 7) / 8.
Proof.
  destruct (write_shape_spec (length shape) shape (le_n _))
    as (bytes & pad & H & Hbits & Hpad).
  exists bytes, pad. split; [exact H|]. split; [exact Hbits|]. split; [exact Hpad|].
  apply (f_equal length) in Hbits.
  rewrite flat_map_byte_bits_length, length_app, length_replicate in Hbits.
  apply (Z.div_unique _ 8 _ (7 - Z.of_nat pad)); lia.
Qed.

(** *** The codes in the buffer, proofs *)

(** A code of [len] bits enters the buffer under the bits it holds. *)
Lemma low_bits_put_code buffer held len code :
  0 <= held -> 0 <= len -> held + len <= 64 -> 0 <= code < 2 ^ len ->
  low_bits (Z.to_nat (held + len)) (Z.lor (shl64 buffer len) code)
  = low_bits (Z.to_nat held) buffer ++ low_bits (Z.to_nat len) code.
Proof.
  intros Hheld Hlen Hsum Hcode.
  replace (Z.to_nat (held + len)) with (Z.to_nat held + Z.to_nat len)%nat by lia.
  rewrite low_bits_add, Z2Nat.id by lia.
  f_equal; apply low_bits_ext; intros j Hj.
  - rewrite Z.shiftr_spec, Z.lor_spec by lia. unfold shl64, wrap64, wrap.
    rewrite Z.mod_pow2_bits_low, Z.shiftl_spec by lia.
    assert (Z.testbit code (j + len) = false) as ->.
    { destruct (Z.eq_dec code 0) as [-> | Hne]; [apply Z.bits_0|].
      apply Z.bits_above_log2; [lia|].
      assert (Z.log2 code < len) by (apply Z.log2_lt_pow2; lia). lia. }
    rewrite orb_false_r. f_equal. lia.
  - rewrite Z.lor_spec. unfold shl64, wrap64, wrap.
    rewrite Z.mod_pow2_bits_low, Z.shiftl_spec_low by lia. reflexivity.
Qed.

Lemma flush_spec buffer bitsInBuffer out :
  0 <= bitsInBuffer <= 64 ->
  exists bytes pad,
    flush buffer bitsInBuffer out = Some bytes /\
    flat_map byte_bits bytes
    = flat_map byte_bits out ++ low_bits (Z.to_nat bitsInBuffer) buffer
      ++ replicate pad false /\
    (pad < 8)%nat.
Proof.
  intros Hb. unfold flush.
  pose proof (Z.mod_pos_bound bitsInBuffer 8 ltac:(lia)) as Hmod.
  destruct (write_bytes_spec (fun b => 8 <=? b) buffer
              (S (Z.to_nat bitsInBuffer)) bitsInBuffer out)
    as (held & more & -> & Hheld & Hc & _ & Hmore); [lia | lia | |].
  { apply Z.leb_gt. lia. }
  apply Z.leb_gt in Hc. cbn [mbind option_bind]. rewrite <- Hmore.
  destruct (Z.ltb_spec 0 held) as [Hpos | Hzero].
  - exists ((out ++ more) ++ [Z.land (shl64 buffer (8 - held)) 0xff]), (Z.to_nat (8 - held)).
    split; [reflexivity|]. split; [|lia].
    rewrite !flat_map_app, <- !app_assoc. do 2 f_equal.
    rewrite flat_map_cons, app_nil_r, byte_bits_low_bits.
    change 0xff with 0xFF. rewrite land_0xFF.
    change (shl64 buffer (8 - held) mod 256) with (wrap 8 (shl64 buffer (8 - held))).
    rewrite (low_bits_wrap 8 8) by lia. unfold shl64, wrap64.
    rewrite low_bits_wrap by lia.
    replace 8%nat with (Z.to_nat held + Z.to_nat (8 - held))%nat at 1 by lia.
    rewrite <- low_bits_shiftl, Z2Nat.id by lia. reflexivity.
  - exists (out ++ more), 0%nat. split; [reflexivity|]. split; [|lia].
    replace held with 0 by lia.
    change (low_bits (Z.to_nat 0) buffer) with (@nil bool).
    now rewrite flat_map_app, !app_nil_r.
Qed.

(** The codes the symbols of [runseq] have: at most 57 bits, and the code
    fits its length. *)
Definition short_codes (clen code : list Z) (runseq : list Z) : Prop :=
  Forall (fun c => 0 <= clen !!! Z.to_nat c <= 57 /\
                   0 <= code !!! Z.to_nat c < 2 ^ (clen !!! Z.to_nat c)) runseq.

Lemma put_symbol_spec clen code buffer bitsInBuffer out c :
  0 <= bitsInBuffer <= 64 ->
  0 <= clen !!! Z.to_nat c <= 57 ->
  0 <= code !!! Z.to_nat c < 2 ^ (clen !!! Z.to_nat c) ->
  exists buffer' bitsInBuffer' more,
    put_symbol clen code (buffer, bitsInBuffer, out) c
    = Some (buffer', bitsInBuffer', out ++ more) /\
    0 <= bitsInBuffer' <= 64 /\
    flat_map byte_bits more ++ low_bits (Z.to_nat bitsInBuffer') buffer'
    = low_bits (Z.to_nat bitsInBuffer) buffer ++ code_bits clen code c.
Proof.
  intros Hb Hlen Hcode. unfold put_symbol, code_bits.
  set (len := clen !!! Z.to_nat c) in *.
  pose proof (Z.mod_pos_bound bitsInBuffer 8 ltac:(lia)) as Hmod.
  assert (forall x, 0 <= x <= 64 -> wrap32 (x + len) = x + len) as Hwrap
    by (intros x Hx; apply wrap_small; lia).
  destruct (write_bytes_spec (fun b => 64 <? wrap32 (b + len)) buffer
              (S (Z.to_nat bitsInBuffer)) bitsInBuffer out)
    as (held & more & -> & Hheld & Hc & _ & Hbits); [lia | lia | |].
  { rewrite Hwrap by lia. apply Z.ltb_ge. lia. }
  rewrite Hwrap in Hc by lia. apply Z.ltb_ge in Hc. cbn [mbind option_bind].
  exists (Z.lor (shl64 buffer len) (code !!! Z.to_nat c)), (held + len), more.
  split; [reflexivity|]. split; [lia|].
  rewrite low_bits_put_code, app_assoc, Hbits by lia. reflexivity.
Qed.

Lemma put_symbols_spec clen code runseq buffer bitsInBuffer out :
  0 <= bitsInBuffer <= 64 -> short_codes clen code runseq ->
  exists buffer' bitsInBuffer' more,
    put_symbols clen code (Some (buffer, bitsInBuffer, out)) runseq
    = Some (buffer', bitsInBuffer', out ++ more) /\
    0 <= bitsInBuffer' <= 64 /\
    flat_map byte_bits more ++ low_bits (Z.to_nat bitsInBuffer') buffer'
    = low_bits (Z.to_nat bitsInBuffer) buffer ++ flat_map (code_bits clen code) runseq.
Proof.
  intros Hb Hall.
  induction Hall as [|c runseq [Hlen Hcode] Hall IH] in buffer, bitsInBuffer, out, Hb |- *.
  - exists buffer, bitsInBuffer, []. rewrite !app_nil_r. cbn. auto.
  - destruct (put_symbol_spec clen code buffer bitsInBuffer out c Hb Hlen Hcode)
      as (buffer1 & bits1 & more1 & E1 & Hb1 & H1).
    destruct (IH buffer1 bits1 (out ++ more1) Hb1)
      as (buffer2 & bits2 & more2 & E2 & Hb2 & H2).
    exists buffer2, bits2, (more1 ++ more2).
    unfold put_symbols in *. cbn [foldl mbind option_bind]. rewrite E1, E2.
    rewrite flat_map_app, flat_map_cons, !app_assoc, <- H1, <- !app_assoc, H2.
    auto.
Qed.

(** X8. When every symbol of [runseq] has a code of at most 57 bits that
    fits its length, the encoder writes the codes of the symbols one after
    the other, each from its most significant bit, and zeros up to the byte
    boundary; no shift count leaves the 64 bits of the buffer. *)
Theorem encode_symbols_bits (clen code runseq : list Z) :
  short_codes clen code runseq ->
  exists bytes pad,
    encode_symbols clen code runseq = Some bytes /\
    flat_map byte_bits bytes
    = flat_map (code_bits clen code) runseq ++ replicate pad false /\
    (pad < 8)%nat.
Proof.
  intros Hall. unfold encode_symbols.
  destruct (put_symbols_spec clen code runseq 0 0 [] ltac:(lia) Hall)
    as (buffer & bits & more & -> & Hb & H).
  cbn [mbind option_bind app].
  destruct (flush_spec buffer bits more Hb) as (bytes & pad & -> & Hbytes & Hpad).
  exists bytes, pad. split; [reflexivity|]. split; [|exact Hpad].
  rewrite Hbytes, app_assoc, H. reflexivity.
Qed.

Lemma encode_symbols_bits_witness :
  exists bytes pad,
    encode_symbols [2; 1; 2] [2; 0; 3] [0; 1; 2; 1] = Some bytes /\
    flat_map byte_bits bytes
    = flat_map (code_bits [2; 1; 2] [2; 0; 3]) [0; 1; 2; 1] ++ replicate pad false /\
    (pad < 8)%nat.
Proof.
  apply (encode_symbols_bits [2; 1; 2] [2; 0; 3] [0; 1; 2; 1]).
  unfold short_codes.
  repeat (apply Forall_cons_2;
          [vm_compute; repeat split; (discriminate || reflexivity)|]).
  apply Forall_nil_2.
Defined.

(** *** Shifts by a negative count *)

Lemma write_bytes_negative continue buffer steps bitsInBuffer out :
  0 <= bitsInBuffer -> (Z.to_nat (bitsInBuffer / 8) < steps)%nat ->
  (forall x, bitsInBuffer mod 8 <= x <= bitsInBuffer -> continue x = true) ->
  write_bytes steps continue buffer bitsInBuffer out = None.
Proof.
  revert bitsInBuffer out.
  induction steps as [|steps IH]; intros bitsInBuffer out Hb Hsteps Hc; [lia|].
  pose proof (Z.mod_pos_bound bitsInBuffer 8 ltac:(lia)) as Hmod.
  pose proof (Z.div_mod bitsInBuffer 8 ltac:(lia)) as Hdm.
  cbn [write_bytes]. rewrite Hc by lia.
  destruct (Z.ltb_spec (bitsInBuffer - 8) 0) as [|Hge]; [reflexivity|].
  assert ((bitsInBuffer - 8) mod 8 = bitsInBuffer mod 8) as Hm.
  { replace (bitsInBuffer - 8) with (bitsInBuffer + (-1) * 8) by lia.
    apply Z.mod_add. lia. }
  assert ((bitsInBuffer - 8) / 8 = bitsInBuffer / 8 - 1) as Hq.
  { replace (bitsInBuffer - 8) with (bitsInBuffer + (-1) * 8) by lia.
    rewrite Z.div_add by lia. lia. }
  apply IH; [lia | | ].
  - rewrite Hq. assert (1 <= bitsInBuffer / 8) by (apply Z.div_le_lower_bound; lia). lia.
  - intros x Hx. apply Hc. lia.
Qed.

(** X2. When the bits that wait in the buffer beyond a whole number of
    bytes and the gamma code of the next run length exceed 64 together, the
    loop that makes room takes [bitsInBuffer] below zero and shifts by a
    negative count. *)
Theorem put_runlen_negative_shift (buffer bitsInBuffer : Z) (out : list Z) (n : Z) :
  0 <= bitsInBuffer ->
  64 < bitsInBuffer mod 8 + (logFloor n * 2 + 1) ->
  put_runlen (buffer, bitsInBuffer, out) n = None.
Proof.
  intros Hb Hlong. unfold put_runlen.
  rewrite write_bytes_negative; [reflexivity | exact Hb | |].
  - pose proof (Z.div_mod bitsInBuffer 8 ltac:(lia)).
    pose proof (Z.mod_pos_bound bitsInBuffer 8 ltac:(lia)).
    assert (0 <= bitsInBuffer / 8) by (apply Z.div_pos; lia). lia.
  - intros x Hx. apply Z.ltb_lt. lia.
Qed.

Lemma put_runlen_negative_shift_witness :
  put_runlen (5, 4, []) (2 ^ 30) = None.
Proof. apply (put_runlen_negative_shift 5 4 [] (2 ^ 30)); [lia | reflexivity]. Defined.

(** *** The trailer, for every vector *)

(** The trailer of any vector: the count byte, then the bits of the powers
    and fewer than 8 zeros. *)
Lemma writeTrailer_any LFpowers :
  exists body pad,
    writeTrailer LFpowers
    = (Z.of_nat (S (length body)),
       wrap8 (wrap64 (Z.of_nat (length LFpowers) - 1)) :: body) /\
    flat_map byte_bits body = flat_map power_bits LFpowers ++ replicate pad false /\
    (pad < 8)%nat.
Proof.
  unfold writeTrailer.
  set (count := wrap8 (wrap64 (Z.of_nat (length LFpowers) - 1))).
  destruct (put_powers_extends LFpowers (mkTrailer count 8 1 [count]))
    as [Hleft (body & Hw & Hb & Hp)]; [cbn; lia|].
  cbn [written bytes] in Hw, Hb. unfold pending at 2 in Hp.
  cbn [s bitsLeft] in Hp.
  change (low_bits (Z.to_nat (8 - 8)) count) with (@nil bool) in Hp.
  cbn [app] in Hp.
  set (t := fold_left put_power LFpowers (mkTrailer count 8 1 [count])) in *.
  destruct (Z.ltb_spec (bitsLeft t) 8) as [Hlt | Hge].
  - exists (body ++ [wrap8 (Z.shiftl (s t) (bitsLeft t))]), (Z.to_nat (bitsLeft t)).
    rewrite Hw, Hb, length_app, flat_map_app. cbn [length flat_map app].
    rewrite app_nil_r, byte_bits_last, app_assoc, Hp by lia.
    split; [f_equal; lia|]. split; [reflexivity | lia].
  - exists body, 0%nat. rewrite Hw, Hb. cbn [replicate].
    rewrite app_nil_r, <- Hp. unfold pending.
    replace (bitsLeft t) with 8 by lia.
    change (low_bits (Z.to_nat (8 - 8)) (s t)) with (@nil bool).
    rewrite app_nil_r.
    split; [f_equal; lia|]. split; [reflexivity | lia].
Qed.

(** X9. For every vector of LF powers, of any length and with any values,
    [writeTrailer] returns the number of bytes it wrote, which is one more
    than 31 bits a power take in whole bytes. *)
Theorem writeTrailer_bytes (LFpowers : list Z) :
  (writeTrailer LFpowers).1 = Z.of_nat (length (writeTrailer LFpowers).2) /\
  (writeTrailer LFpowers).1 = 1 + (31 * Z.of_nat (length LFpowers) + 7) / 8.
Proof.
  destruct (writeTrailer_any LFpowers) as (body & pad & -> & Hbits & Hpad).
  cbn [fst snd length]. split; [reflexivity|].
  apply (f_equal length) in Hbits.
  rewrite flat_map_byte_bits_length, length_app, flat_map_power_bits_length,
    length_replicate in Hbits.
  rewrite Nat2Z.inj_succ, <- Z.add_1_l. f_equal.
  apply (Z.div_unique _ 8 _ (7 - Z.of_nat pad)); lia.
Qed.

Lemma power_bits_mod power : power_bits (power mod 2 ^ 31) = power_bits power.
Proof. unfold power_bits. apply (low_bits_wrap 31 31). lia. Qed.

(** X10. The trailer keeps the 31 low bits of an LF power: for 1 to 256
    powers of any value the decoder reads every power modulo [2^31], the
    bit 31 of a [uint32] is lost. *)
Theorem readTrailer_low_31_bits (LFpowers : list Z) (input0 : RawInStream)
    (rest : list Z) :
  (1 <= length LFpowers <= 256)%nat ->
  input input0 = (writeTrailer LFpowers).2 ++ rest ->
  readTrailer input0
  = Some ((fun power => power mod 2 ^ 31) <$> LFpowers, mkIn [] rest).
Proof.
  intros Hlen Hin.
  destruct (writeTrailer_layout LFpowers Hlen) as (body & pad & Hw & Hbits & Hpad).
  rewrite Hw in Hin. cbn [snd] in Hin.
  unfold readTrailer, readByte. rewrite Hin. cbn [app mbind option_bind].
  replace (Z.of_nat (length LFpowers) - 1 + 1) with (Z.of_nat (length LFpowers)) by lia.
  unfold wrap32. rewrite wrap_small, Nat2Z.id by lia.
  set (low := (fun power => power mod 2 ^ 31) <$> LFpowers).
  assert (length low = length LFpowers) as Hlow by apply length_fmap.
  assert (flat_map power_bits low = flat_map power_bits LFpowers) as Hsame.
  { subst low. clear. induction LFpowers as [|power l IH]; [reflexivity|].
    rewrite fmap_cons, !flat_map_cons, IH, power_bits_mod. reflexivity. }
  pose proof (f_equal length Hbits) as Hl.
  rewrite length_app, flat_map_byte_bits_length, flat_map_power_bits_length,
    length_replicate in Hl.
  rewrite <- Hlow.
  rewrite (read_positions_bits low _ (mkIn (replicate pad false) rest)).
  - reflexivity.
  - subst low. apply Forall_fmap, Forall_true. intros power. cbn.
    apply Z.mod_pos_bound. lia.
  - rewrite Hlow, read_bits_aligned by lia. rewrite Hbits, Hsame.
    rewrite <- flat_map_power_bits_length.
    rewrite take_app_length, drop_app_length. reflexivity.
Qed.

Lemma readTrailer_low_31_bits_witness :
  readTrailer (mkIn [] [0; 0; 0; 0; 10; 77])
  = Some ((fun power => power mod 2 ^ 31) <$> [2 ^ 31 + 5], mkIn [] [77]).
Proof.
  apply (readTrailer_low_31_bits [2 ^ 31 + 5] (mkIn [] [0; 0; 0; 0; 10; 77]) [77]).
  - cbn. lia.
  - reflexivity.
Defined.

(** *** The table of leading zeros, proofs *)

Lemma land_bit k t :
  0 <= t -> (Z.land k (Z.shiftl 1 t) =? 0) = negb (Z.testbit k t).
Proof.
  intros Ht. rewrite Z.shiftl_1_l.
  destruct (Z.testbit k t) eqn:Hbit; cbn [negb].
  - apply Z.eqb_neq. intros H0.
    assert (Z.testbit (Z.land k (2 ^ t)) t = true) as Hset
      by (rewrite Z.land_spec, Hbit, Z.pow2_bits_true by lia; reflexivity).
    rewrite H0, Z.bits_0 in Hset. discriminate.
  - apply Z.eqb_eq. apply Z.bits_inj'. intros j Hj.
    rewrite Z.land_spec, Z.bits_0, Z.pow2_bits_eqb by lia.
    destruct (Z.eqb_spec t j) as [<- | _]; [now rewrite Hbit | apply andb_false_r].
Qed.

Lemma leading_zeros_range bits : 0 <= leading_zeros bits <= Z.of_nat (length bits).
Proof. induction bits as [|[] l IH]; cbn [leading_zeros length]; lia. Qed.

(** The last assignment is the one for the highest bit set. *)
Lemma leadingZeros_loop k total p zeros :
  fold_left (fun zeros t => if Z.land k (Z.shiftl 1 t) =? 0 then zeros else total - t - 1)
            (Z.of_nat <$> seq 0 p) zeros
  = if decide (leading_zeros (low_bits p k) = Z.of_nat p) then zeros
    else total - Z.of_nat p + leading_zeros (low_bits p k).
Proof.
  induction p as [|p IH]; [reflexivity|].
  rewrite seq_S, fmap_app, fold_left_app, IH, low_bits_S.
  cbn [fmap list_fmap fold_left Nat.add leading_zeros]. rewrite land_bit by lia.
  pose proof (leading_zeros_range (low_bits p k)) as Hrange.
  rewrite low_bits_length in Hrange.
  destruct (Z.testbit k (Z.of_nat p)); cbn [negb].
  - destruct (decide (0 = Z.of_nat (S p))); lia.
  - destruct (decide (leading_zeros (low_bits p k) = Z.of_nat p));
      destruct (decide (1 + leading_zeros (low_bits p k) = Z.of_nat (S p))); lia.
Qed.

(** X11. [leadingZeros[p][k]] is the number of zeros that the [p] low bits
    of [k] start with, as the decoder's comment says. *)
Theorem leadingZeros_leading_zeros (p k : Z) :
  0 <= p -> leadingZeros p k = leading_zeros (low_bits (Z.to_nat p) k).
Proof.
  intros Hp. unfold leadingZeros. rewrite leadingZeros_loop, Z2Nat.id by lia.
  destruct (decide (leading_zeros (low_bits (Z.to_nat p) k) = p)); lia.
Qed.

Lemma leadingZeros_leading_zeros_witness : leadingZeros 5 6 = leading_zeros (low_bits 5 6).
Proof. apply (leadingZeros_leading_zeros 5 6). lia. Defined.

End HuffmanOutput.

(** ** More of the frequency table ([preprocessors/preprocessor.cc]) *)

Module FreqTableFacts.
Import Word Preprocessor.

(** The count a byte has in the arrays of the table. *)
Definition count_in (freq : list (nat * Z)) (location : list nat) (k : nat) : Z :=
  (freq !!! (location !!! k)).2.

Lemma hole_down_count key freq location below k :
  hole key freq location (S below) -> k < 256 -> k <> key ->
  count_in (<[S below := freq !!! below]> freq)
           (<[(freq !!! below).1 := S (location !!! (freq !!! below).1)]> location) k
  = count_in freq location k.
Proof.
  intros [Hf Hl Hidx Hk Hslot Hbyte] Hk' Hne. unfold count_in.
  destruct (Hslot below ltac:(lia) ltac:(lia)) as (Hm & Hmk & Hloc).
  destruct (Hbyte k Hk' Hne) as (Hp & Hpi & Hback).
  destruct (decide (k = (freq !!! below).1)) as [-> | Hne'].
  - insert_lookup. rewrite Hloc. insert_lookup. reflexivity.
  - insert_lookup. assert (location !!! k <> below) by congruence.
    insert_lookup. reflexivity.
Qed.

Lemma hole_up_count key freq location idx k :
  hole key freq location idx -> idx < 255 -> k < 256 -> k <> key ->
  count_in (<[idx := freq !!! S idx]> freq)
           (<[(freq !!! S idx).1 := pred (location !!! (freq !!! S idx).1)]> location) k
  = count_in freq location k.
Proof.
  intros [Hf Hl Hidx Hk Hslot Hbyte] Hlt Hk' Hne. unfold count_in.
  destruct (Hslot (S idx) ltac:(lia) ltac:(lia)) as (Hm & Hmk & Hloc).
  destruct (Hbyte k Hk' Hne) as (Hp & Hpi & Hback).
  destruct (decide (k = (freq !!! S idx).1)) as [-> | Hne'].
  - insert_lookup. rewrite Hloc. cbn [pred]. insert_lookup. reflexivity.
  - insert_lookup. assert (location !!! k <> S idx) by congruence.
    insert_lookup. reflexivity.
Qed.

Lemma Decrease_loop_count key v idx : forall freq location f l idx' k,
  hole key freq location idx -> k < 256 -> k <> key ->
  Decrease_loop v freq location idx = (f, l, idx') ->
  count_in f l k = count_in freq location k.
Proof.
  induction idx as [|below IH]; intros freq location f l idx' k Hhole Hk Hne;
    cbn [Decrease_loop].
  - now intros [= <- <- <-].
  - destruct (v <? (freq !!! below).2)%Z.
    + intros Hloop.
      rewrite (IH _ _ _ _ _ k (hole_down _ _ _ _ Hhole) Hk Hne Hloop).
      now apply (hole_down_count key).
    + now intros [= <- <- <-].
Qed.

Lemma Increase_loop_count key v steps : forall freq location idx f l idx' k,
  hole key freq location idx -> k < 256 -> k <> key ->
  Increase_loop steps v freq location idx = (f, l, idx') ->
  count_in f l k = count_in freq location k.
Proof.
  induction steps as [|steps IH]; intros freq location idx f l idx' k Hhole Hk Hne;
    cbn [Increase_loop].
  - now intros [= <- <- <-].
  - destruct (Nat.ltb_spec idx 255); cbn [andb].
    + destruct ((freq !!! S idx).2 <? v)%Z.
      * intros Hloop.
        rewrite (IH _ _ _ _ _ _ k (hole_up _ _ _ _ Hhole ltac:(lia)) Hk Hne Hloop).
        now apply (hole_up_count key).
      * now intros [= <- <- <-].
    + now intros [= <- <- <-].
Qed.

Lemma filled_count key v freq location idx k :
  hole key freq location idx -> k < 256 -> k <> key ->
  count_of (mkFreqTable (<[idx := (key, v)]> freq) (<[key := idx]> location)) k
  = count_in freq location k.
Proof.
  intros [Hf Hl Hidx Hk Hslot Hbyte] Hk' Hne.
  destruct (Hbyte k Hk' Hne) as (Hp & Hpi & Hback).
  unfold count_of, count_at, count_in. cbn [freq_ location_].
  now insert_lookup.
Qed.

Lemma Decrease_other t key value k :
  consistent t -> key < 256 -> k < 256 -> k <> key ->
  count_of (Decrease t key value).2 k = count_of t k.
Proof.
  intros Hcons Hkey Hk Hne.
  pose proof (consistent_hole t key Hcons Hkey) as Hhole.
  destruct (Key_location t Hcons key Hkey) as [Hidx Hback]. unfold Key in Hback.
  unfold Decrease.
  destruct ((freq_ t !!! (location_ t !!! key)).2 <? value)%Z; [reflexivity|].
  rewrite Hback.
  destruct (Decrease_loop _ (freq_ t) (location_ t) (location_ t !!! key))
    as [[f l] idx'] eqn:Hloop.
  cbn [snd fst].
  rewrite (filled_count key _ f l idx' k
             (Decrease_loop_hole key _ _ _ _ _ _ _ Hhole Hloop) Hk Hne).
  now rewrite (Decrease_loop_count key _ _ _ _ _ _ _ k Hhole Hk Hne Hloop).
Qed.

Lemma Increase_other t key value k :
  consistent t -> key < 256 -> k < 256 -> k <> key ->
  count_of (Increase t key value) k = count_of t k.
Proof.
  intros Hcons Hkey Hk Hne.
  pose proof (consistent_hole t key Hcons Hkey) as Hhole.
  destruct (Key_location t Hcons key Hkey) as [Hidx Hback]. unfold Key in Hback.
  unfold Increase. rewrite Hback.
  destruct (Increase_loop _ _ (freq_ t) (location_ t) (location_ t !!! key))
    as [[f l] idx'] eqn:Hloop.
  cbn [fst].
  rewrite (filled_count key _ f l idx' k
             (Increase_loop_hole key _ _ _ _ _ _ _ _ Hhole Hloop) Hk Hne).
  now rewrite (Increase_loop_count key _ _ _ _ _ _ _ _ k Hhole Hk Hne Hloop).
Qed.

(** X12. [Decrease] and [Increase] change the count of the byte they are
    called for and of no other byte. *)
Theorem Decrease_Increase_other_counts (t : FreqTable) (key : nat) (value : Z) (k : nat) :
  consistent t -> key < 256 -> k < 256 -> k <> key ->
  count_of (Decrease t key value).2 k = count_of t k /\
  count_of (Increase t key value) k = count_of t k.
Proof.
  intros Hcons Hkey Hk Hne.
  split; [now apply Decrease_other | now apply Increase_other].
Qed.

Lemma Decrease_Increase_other_counts_witness :
  let t := FreqTable_of sort_by_count one_and_two in
  count_of (Decrease t 1 2).2 0 = count_of t 0 /\
  count_of (Increase t 1 2) 0 = count_of t 0.
Proof.
  apply (Decrease_Increase_other_counts (FreqTable_of sort_by_count one_and_two) 1 2 0).
  - apply constructed_consistent; [apply sort_by_count_Permutation | reflexivity].
  - lia.
  - lia.
  - lia.
Defined.

(** A successful [Decrease] undone by [Increase]: every count is back. *)
Lemma Decrease_restored t key value :
  consistent t -> counts_in_range t -> key < 256 ->
  (0 <= value <= count_of t key)%Z ->
  exists t',
    Decrease t key value = (true, t') /\
    consistent t' /\ counts_in_range t' /\
    count_of t' key = (count_of t key - value)%Z /\
    (forall k, k < 256 -> k <> key -> count_of t' k = count_of t k) /\
    consistent (Increase t' key value) /\ counts_in_range (Increase t' key value) /\
    (forall k, k < 256 -> count_of (Increase t' key value) k = count_of t k).
Proof.
  intros Hcons Hrange Hkey Hvalue.
  destruct (Decrease_succeeds t key value Hcons Hrange Hkey Hvalue)
    as (t' & Hdec & Hcons' & Hrange' & Hcount & _).
  exists t'. split; [exact Hdec|]. split; [exact Hcons'|]. split; [exact Hrange'|].
  split; [exact Hcount|].
  assert (forall k, k < 256 -> k <> key -> count_of t' k = count_of t k) as Hother.
  { intros k Hk Hne. pose proof (Decrease_other t key value k Hcons Hkey Hk Hne) as H.
    now rewrite Hdec in H. }
  split; [exact Hother|].
  destruct (Increase_consistent t' key value Hcons' Hrange' Hkey) as (Hc & Hr & Hn & _).
  split; [exact Hc|]. split; [exact Hr|].
  intros k Hk. destruct (decide (k = key)) as [-> | Hne].
  - rewrite Hn, Hcount. unfold wrap64.
    destruct (Key_location t Hcons key Hkey) as [Hidx _].
    pose proof (Hrange _ Hidx) as Hc0. unfold count_of.
    rewrite wrap_small; [lia|]. unfold count_of in Hvalue. lia.
  - rewrite Increase_other by assumption. now apply Hother.
Qed.

(** X13. After a [Decrease] that succeeds, [Increase] of the same byte by
    the same value gives every byte the count it had: what
    [FindReplaceablePairs] does for a pair it gives up. *)
Theorem Decrease_then_Increase_restores (t : FreqTable) (key : nat) (value : Z) :
  consistent t -> counts_in_range t -> key < 256 ->
  (0 <= value <= count_of t key)%Z ->
  (Decrease t key value).1 = true /\
  forall k, k < 256 ->
    count_of (Increase (Decrease t key value).2 key value) k = count_of t k.
Proof.
  intros Hcons Hrange Hkey Hvalue.
  destruct (Decrease_restored t key value Hcons Hrange Hkey Hvalue)
    as (t' & -> & _ & _ & _ & _ & _ & _ & Hback).
  split; [reflexivity | exact Hback].
Qed.

Lemma Decrease_then_Increase_restores_witness :
  let t := FreqTable_of sort_by_count five_each in
  (Decrease t 7 3).1 = true /\
  forall k, k < 256 -> count_of (Increase (Decrease t 7 3).2 7 3) k = count_of t k.
Proof.
  apply (Decrease_then_Increase_restores (FreqTable_of sort_by_count five_each) 7 3).
  - apply constructed_consistent; [apply sort_by_count_Permutation | reflexivity].
  - apply constructed_range;
      [apply sort_by_count_Permutation | reflexivity | apply five_each_range].
  - lia.
  - vm_compute. split; discriminate.
Defined.

End FreqTableFacts.

(** ** More of the common-pair preprocessor ([preprocessors/preprocessor.cc]) *)

Module CommonPairsFacts.
Import Word Preprocessor CommonPairs FreqTableFacts.

(** What the selected pairs take from the count of the byte [k]: the
    frequency of every pair that has [k] as its first or its second byte. *)
Definition taken (replaceable_pairs : list pair_freq) (k : nat) : Z :=
  foldr (fun p acc =>
           ((if decide (Z.to_nat (first_byte p) = k) then p.2 else 0)
            + (if decide (Z.to_nat (second_byte p) = k) then p.2 else 0) + acc)%Z)
        0%Z replaceable_pairs.

Lemma taken_snoc replaceable_pairs candidate k :
  taken (replaceable_pairs ++ [candidate]) k
  = (taken replaceable_pairs k
     + (if decide (Z.to_nat (first_byte candidate) = k) then candidate.2 else 0)
     + (if decide (Z.to_nat (second_byte candidate) = k) then candidate.2 else 0))%Z.
Proof.
  induction replaceable_pairs as [|p l IH]; cbn [app taken foldr] in *; [lia|].
  unfold taken in IH. rewrite IH. lia.
Qed.

Lemma first_byte_range p : (0 <= first_byte p < 256)%Z.
Proof. unfold first_byte, wrap8. apply (wrap_range 8). lia. Qed.

Lemma second_byte_range p : (0 <= second_byte p < 256)%Z.
Proof. unfold second_byte, wrap8. apply (wrap_range 8). lia. Qed.

(** [Decrease] when the count is large enough, and [Increase] when the sum
    fits: the counts of all bytes afterwards. *)
Lemma Decrease_counts t key value :
  consistent t -> counts_in_range t -> key < 256 ->
  (0 <= value <= count_of t key)%Z ->
  exists t',
    Decrease t key value = (true, t') /\ consistent t' /\ counts_in_range t' /\
    forall k, k < 256 ->
      count_of t' k = (count_of t k - if decide (key = k) then value else 0)%Z.
Proof.
  intros Hcons Hrange Hkey Hvalue.
  destruct (Decrease_restored t key value Hcons Hrange Hkey Hvalue)
    as (t' & Hdec & Hcons' & Hrange' & Hcount & Hother & _).
  exists t'. split; [exact Hdec|]. split; [exact Hcons'|]. split; [exact Hrange'|].
  intros k Hk. destruct (decide (key = k)) as [<- | Hne]; [exact Hcount|].
  rewrite Hother by (assumption || congruence). lia.
Qed.

Lemma count_of_range t key :
  consistent t -> counts_in_range t -> key < 256 -> (0 <= count_of t key < 2 ^ 64)%Z.
Proof.
  intros Hcons Hrange Hkey. destruct (Key_location t Hcons key Hkey) as [Hidx _].
  exact (Hrange _ Hidx).
Qed.

Lemma Increase_counts t key value :
  consistent t -> counts_in_range t -> key < 256 ->
  (0 <= value)%Z -> (count_of t key + value < 2 ^ 64)%Z ->
  consistent (Increase t key value) /\ counts_in_range (Increase t key value) /\
  forall k, k < 256 ->
    count_of (Increase t key value) k
    = (count_of t k + if decide (key = k) then value else 0)%Z.
Proof.
  intros Hcons Hrange Hkey Hvalue Hfit.
  destruct (Increase_consistent t key value Hcons Hrange Hkey) as (Hc & Hr & Hn & _).
  split; [exact Hc|]. split; [exact Hr|].
  pose proof (count_of_range t key Hcons Hrange Hkey) as Hc0.
  intros k Hk. destruct (decide (key = k)) as [<- | Hne].
  - rewrite Hn. unfold wrap64. apply wrap_small. lia.
  - rewrite Increase_other by (assumption || congruence). lia.
Qed.

Definition frequencies_nonnegative (pair_freqs : list pair_freq) : Prop :=
  Forall (fun p => 0 <= p.2)%Z pair_freqs.

Lemma lookup_nonnegative pair_freqs i :
  frequencies_nonnegative pair_freqs -> (0 <= (pair_freqs !!! i).2)%Z.
Proof.
  intros Hall. destruct (pair_freqs !! i) as [p|] eqn:Hp.
  - rewrite (list_lookup_total_correct _ _ _ Hp).
    exact (proj1 (Forall_lookup _ _) Hall i p Hp).
  - rewrite list_lookup_total_alt. unfold pair_freq in *. rewrite Hp. cbn. lia.
Qed.

Section Accounts.

Variable ndebug : bool.
Variable partial_sort : nat -> nat -> list pair_freq -> list pair_freq.

(** [std::partial_sort] moves the slots and changes none. *)
Hypothesis partial_sort_Permutation :
  forall first middle pair_freqs, partial_sort first middle pair_freqs ≡ₚ pair_freqs.

(** The table [FindReplaceablePairs] is called with. *)
Variable freqs0 : FreqTable.

(** The table during the selection: every byte has the count it had less
    what the pairs selected so far take. *)
Record accounts (replaceable_pairs : list pair_freq) (freqs : FreqTable) : Prop := {
  accounts_length : length replaceable_pairs <= 254;
  accounts_consistent : consistent freqs;
  accounts_range : counts_in_range freqs;
  accounts_counts : forall k, k < 256 ->
    count_of freqs k = (count_of freqs0 k - taken replaceable_pairs k)%Z
}.

Lemma accounts_restore rp ft fst snd value :
  accounts rp ft -> (0 <= fst < 256)%Z -> (0 <= snd < 256)%Z -> fst <> snd ->
  (0 <= value)%Z ->
  forall ft1 ft2,
    Decrease ft (Z.to_nat fst) value = (true, ft1) ->
    Decrease ft1 (Z.to_nat snd) value = (true, ft2) ->
    accounts rp (restore ft2 fst snd value).
Proof.
  intros [Hlen Hcons Hrange Hcounts] Hfst Hsnd Hne Hvalue ft1 ft2 H1 H2.
  assert (Z.to_nat fst < 256) as Hf by lia.
  assert (Z.to_nat snd < 256) as Hs by lia.
  assert (Z.to_nat fst <> Z.to_nat snd) as Hne' by lia.
  destruct (Z.lt_ge_cases (count_of ft (Z.to_nat fst)) value) as [Hlt | Hge];
    [rewrite Decrease_fails in H1 by assumption; discriminate|].
  destruct (Decrease_counts ft _ value Hcons Hrange Hf ltac:(lia))
    as (t1 & E1 & Hcons1 & Hrange1 & Hc1).
  rewrite E1 in H1. injection H1 as ->.
  destruct (Z.lt_ge_cases (count_of ft1 (Z.to_nat snd)) value) as [Hlt | Hge'];
    [rewrite Decrease_fails in H2 by assumption; discriminate|].
  destruct (Decrease_counts ft1 _ value Hcons1 Hrange1 Hs ltac:(lia))
    as (t2 & E2 & Hcons2 & Hrange2 & Hc2).
  rewrite E2 in H2. injection H2 as ->.
  pose proof (count_of_range ft _ Hcons Hrange Hf) as Hrf.
  pose proof (count_of_range ft _ Hcons Hrange Hs) as Hrs.
  unfold restore.
  destruct (Increase_counts ft2 (Z.to_nat fst) value Hcons2 Hrange2 Hf Hvalue)
    as (Hcons3 & Hrange3 & Hc3).
  { rewrite Hc2, Hc1 by assumption.
    destruct (decide (Z.to_nat fst = Z.to_nat fst)); [|congruence].
    destruct (decide (Z.to_nat snd = Z.to_nat fst)); [congruence|]. lia. }
  destruct (Increase_counts _ (Z.to_nat snd) value Hcons3 Hrange3 Hs Hvalue)
    as (Hcons4 & Hrange4 & Hc4).
  { rewrite Hc3, Hc2, Hc1 by assumption.
    destruct (decide (Z.to_nat fst = Z.to_nat snd)); [congruence|].
    destruct (decide (Z.to_nat snd = Z.to_nat snd)); [|congruence]. lia. }
  split; [exact Hlen | exact Hcons4 | exact Hrange4 |].
  intros k Hk. rewrite Hc4, Hc3, Hc2, Hc1, Hcounts by assumption.
  destruct (decide (Z.to_nat fst = k)); destruct (decide (Z.to_nat snd = k)); lia.
Qed.

Lemma accounts_select rp ft candidate :
  accounts rp ft -> length rp < 254 ->
  first_byte candidate <> second_byte candidate -> (0 <= candidate.2)%Z ->
  forall ft1 ft2,
    Decrease ft (Z.to_nat (first_byte candidate)) candidate.2 = (true, ft1) ->
    Decrease ft1 (Z.to_nat (second_byte candidate)) candidate.2 = (true, ft2) ->
    accounts (rp ++ [candidate]) ft2.
Proof.
  intros [Hlen Hcons Hrange Hcounts] Hroom Hne Hvalue ft1 ft2 H1 H2.
  pose proof (first_byte_range candidate) as Hfst.
  pose proof (second_byte_range candidate) as Hsnd.
  assert (Z.to_nat (first_byte candidate) < 256) as Hf by lia.
  assert (Z.to_nat (second_byte candidate) < 256) as Hs by lia.
  destruct (Z.lt_ge_cases (count_of ft (Z.to_nat (first_byte candidate))) candidate.2)
    as [Hlt | Hge]; [rewrite Decrease_fails in H1 by assumption; discriminate|].
  destruct (Decrease_counts ft _ candidate.2 Hcons Hrange Hf ltac:(lia))
    as (t1 & E1 & Hcons1 & Hrange1 & Hc1).
  rewrite E1 in H1. injection H1 as ->.
  destruct (Z.lt_ge_cases (count_of ft1 (Z.to_nat (second_byte candidate))) candidate.2)
    as [Hlt | Hge']; [rewrite Decrease_fails in H2 by assumption; discriminate|].
  destruct (Decrease_counts ft1 _ candidate.2 Hcons1 Hrange1 Hs ltac:(lia))
    as (t2 & E2 & Hcons2 & Hrange2 & Hc2).
  rewrite E2 in H2. injection H2 as ->.
  split; [rewrite length_app; cbn [length]; lia | exact Hcons2 | exact Hrange2 |].
  intros k Hk. rewrite Hc2, Hc1, Hcounts, taken_snoc by assumption. lia.
Qed.

Lemma accounts_first_restored rp ft fst value :
  accounts rp ft -> (0 <= fst < 256)%Z -> (0 <= value)%Z ->
  forall ft1,
    Decrease ft (Z.to_nat fst) value = (true, ft1) ->
    accounts rp (Increase ft1 (Z.to_nat fst) value).
Proof.
  intros [Hlen Hcons Hrange Hcounts] Hfst Hvalue ft1 H1.
  assert (Z.to_nat fst < 256) as Hf by lia.
  destruct (Z.lt_ge_cases (count_of ft (Z.to_nat fst)) value) as [Hlt | Hge];
    [rewrite Decrease_fails in H1 by assumption; discriminate|].
  destruct (Decrease_restored ft _ value Hcons Hrange Hf ltac:(lia))
    as (t1 & E1 & _ & _ & _ & _ & Hcons' & Hrange' & Hback).
  rewrite E1 in H1. injection H1 as ->.
  split; [exact Hlen | exact Hcons' | exact Hrange' |].
  intros k Hk. rewrite Hback by assumption. now apply Hcounts.
Qed.

Lemma FindReplaceablePairs_loop_accounts steps :
  forall replaceable_pairs pair_freqs freqs current_pair current_symbol limit result,
    frequencies_nonnegative pair_freqs -> accounts replaceable_pairs freqs ->
    FindReplaceablePairs_loop ndebug partial_sort steps replaceable_pairs pair_freqs
      freqs current_pair current_symbol limit = Returns result ->
    accounts result.1.1 result.2.
Proof.
  induction steps as [|steps IH];
    intros rp pf ft cp cs limit result Hpf Hacc; cbn [FindReplaceablePairs_loop].
  - discriminate.
  - destruct (Nat.leb_spec 254 (length rp)) as [|Hroom].
    { intros Hret. apply bind_Returns in Hret as (_ & _ & [= <-]). exact Hacc. }
    intros Hret. apply bind_Returns in Hret as ([limit' pf'] & Hsort & Hret).
    assert (frequencies_nonnegative pf') as Hpf'.
    { destruct (limit <=? cp + 1).
      - apply bind_Returns in Hsort as (_ & _ & Hsort).
        destruct (pairs <? limit + 256); [discriminate|].
        injection Hsort as _ <-. unfold frequencies_nonnegative.
        now rewrite partial_sort_Permutation.
      - now injection Hsort as _ <-. }
    pose proof (lookup_nonnegative pf' cp Hpf') as Hvalue.
    set (candidate := pf' !!! cp) in *.
    pose proof (first_byte_range candidate) as Hfst.
    pose proof (second_byte_range candidate) as Hsnd.
    destruct (Z.eqb_spec (first_byte candidate) (second_byte candidate)) as [Heq | Hne].
    { eapply IH; eassumption. }
    destruct (Decrease ft (Z.to_nat (first_byte candidate)) candidate.2)
      as [[] ft1] eqn:H1.
    2:{ eapply IH; eassumption. }
    destruct (Decrease ft1 (Z.to_nat (second_byte candidate)) candidate.2)
      as [[] ft2] eqn:H2.
    2:{ eapply IH; [eassumption| |eassumption].
        now apply (accounts_first_restored rp ft). }
    destruct (candidate.2 <=? wrap64 (count_at ft2 cs + 3))%Z.
    { apply bind_Returns in Hret as (_ & _ & [= <-]). cbn [fst snd].
      now apply (accounts_restore rp ft _ _ _ Hacc Hfst Hsnd Hne Hvalue ft1 ft2). }
    destruct (conflicts rp (first_byte candidate) (second_byte candidate)).
    { eapply IH; [eassumption| |eassumption].
      now apply (accounts_restore rp ft _ _ _ Hacc Hfst Hsnd Hne Hvalue ft1 ft2). }
    eapply IH; [eassumption| |eassumption].
    now apply (accounts_select rp ft candidate Hacc Hroom Hne Hvalue ft1 ft2).
Qed.

End Accounts.

Lemma sort_from_Permutation first middle pair_freqs :
  sort_from first middle pair_freqs ≡ₚ pair_freqs.
Proof.
  unfold sort_from. rewrite merge_sort_Permutation. now rewrite take_drop.
Qed.

(** X14. When [FindReplaceablePairs] returns, it has selected at most 254
    pairs and the table is in a consistent state in which every byte has
    the count it came with less the frequencies of the selected pairs that
    hold it: the counts of the pairs it gave up are all restored, and the
    selected pairs never take more of a byte than the block has. *)
Theorem FindReplaceablePairs_accounts
    (ndebug : bool) (partial_sort : nat -> nat -> list pair_freq -> list pair_freq)
    (pair_freqs : list pair_freq) (freqs : FreqTable)
    (result : list pair_freq * list pair_freq * FreqTable) :
  (forall first middle l, partial_sort first middle l ≡ₚ l) ->
  frequencies_nonnegative pair_freqs ->
  consistent freqs -> counts_in_range freqs ->
  FindReplaceablePairs ndebug partial_sort pair_freqs freqs = Returns result ->
  length result.1.1 <= 254 /\ consistent result.2 /\
  forall k, k < 256 ->
    count_of result.2 k = (count_of freqs k - taken result.1.1 k)%Z /\
    (taken result.1.1 k <= count_of freqs k)%Z.
Proof.
  intros Hperm Hpf Hcons Hrange Hret.
  assert (accounts freqs [] freqs) as Hstart.
  { split; [cbn; lia | exact Hcons | exact Hrange |]. intros k Hk. cbn. lia. }
  destruct (FindReplaceablePairs_loop_accounts ndebug partial_sort Hperm freqs
              _ _ _ _ _ _ _ _ Hpf Hstart Hret) as [Hlen Hcons' Hrange' Hcounts].
  split; [exact Hlen|]. split; [exact Hcons'|].
  intros k Hk. split; [now apply Hcounts|].
  pose proof (count_of_range _ k Hcons' Hrange' Hk) as Hc.
  rewrite Hcounts in Hc by assumption. lia.
Qed.

Lemma FindReplaceablePairs_accounts_witness :
  exists result,
    FindReplaceablePairs false sort_from [(0x6162, 5); (0x0102, 0)]%Z
      (FreqTable_of sort_by_count five_each) = Returns result /\
    length result.1.1 <= 254 /\ consistent result.2 /\
    forall k, k < 256 ->
      count_of result.2 k
      = (count_of (FreqTable_of sort_by_count five_each) k - taken result.1.1 k)%Z /\
      (taken result.1.1 k <= count_of (FreqTable_of sort_by_count five_each) k)%Z.
Proof.
  eexists. split; [vm_compute; reflexivity|].
  apply (FindReplaceablePairs_accounts false sort_from [(0x6162, 5); (0x0102, 0)]%Z
           (FreqTable_of sort_by_count five_each)).
  - apply sort_from_Permutation.
  - repeat constructor; cbn; lia.
  - apply constructed_consistent; [apply sort_by_count_Permutation | reflexivity].
  - apply constructed_range;
      [apply sort_by_count_Permutation | reflexivity | apply five_each_range].
  - vm_compute. reflexivity.
Defined.

(** *** The escape index *)

Lemma EscapeCharIndex_loop_range i : forall utility freqs suitable_pairs free_symbols,
  free_symbols <= i ->
  free_symbols <= (EscapeCharIndex_loop i utility freqs suitable_pairs free_symbols).1 <= i.
Proof.
  induction i as [|i IH]; intros utility freqs suitable_pairs free_symbols Hi;
    cbn [EscapeCharIndex_loop]; [cbn; lia|].
  destruct (_ <=? _)%Z; cbn [andb]; [|cbn; lia].
  destruct (Nat.ltb_spec free_symbols (S i)); [|cbn; lia].
  specialize (IH (to_int64 (wrap64 (utility - gain suitable_pairs
      (restore freqs (first_byte (suitable_pairs !!! i))
         (second_byte (suitable_pairs !!! i)) (suitable_pairs !!! i).2) i)))
    (restore freqs (first_byte (suitable_pairs !!! i))
       (second_byte (suitable_pairs !!! i)) (suitable_pairs !!! i).2)
    suitable_pairs free_symbols ltac:(lia)).
  destruct IH as [Hlow Hhigh]. split; [exact Hlow|].
  apply (Nat.le_trans _ _ _ Hhigh). lia.
Qed.

(** X15. The index [EscapeCharIndex] returns is [free_symbols] when there
    are no more pairs than free symbols, and otherwise lies from
    [free_symbols] to the number of pairs: with at most 254 pairs it is a
    slot of the table. *)
Theorem EscapeCharIndex_range (freqs : FreqTable) (suitable_pairs : list pair_freq)
    (free_symbols : nat) :
  let escape_index := (EscapeCharIndex freqs suitable_pairs free_symbols).1 in
  free_symbols <= escape_index <= Nat.max free_symbols (length suitable_pairs) /\
  (length suitable_pairs <= free_symbols -> escape_index = free_symbols).
Proof.
  cbv zeta. unfold EscapeCharIndex.
  destruct (Nat.leb_spec (length suitable_pairs) free_symbols) as [Hle | Hgt].
  - cbn [fst]. lia.
  - split; [|lia].
    pose proof (EscapeCharIndex_loop_range (length suitable_pairs)
                  (fold_left
                     (fun utility i =>
                        to_int64 (wrap64 (utility + gain suitable_pairs freqs i)))
                     (seq free_symbols (length suitable_pairs - free_symbols)) 0%Z)
                  freqs suitable_pairs free_symbols ltac:(lia)).
    lia.
Qed.

End CommonPairsFacts.

(** ** Counting bytes and pairs ([preprocessors/preprocessor.cc]) *)

Module Statistics.
Import Word Streams Preprocessor CommonPairs BlockHeader.
Local Open Scope Z_scope.

(** [PreProcessor::BuildStats]: [std::fill(stats->begin(), stats->end(), 0)]
    and the loop that adds one to [stats[data[i]]] for the first
    [data_size] bytes. [stats] is a vector of [uint64]. *)
Definition BuildStats (data : list Z) (stats : list Z) (data_size : nat) : list Z :=
  fold_left (fun stats i => increment 64 stats (Z.to_nat (data !!! i)))
            (seq 0 data_size) (replicate (length stats) 0).

(** The number of positions below [n] that have the property [P]. *)
Definition positions (P : nat -> Prop) `{forall i, Decision (P i)} (n : nat) : Z :=
  Z.of_nat (length (filter P (seq 0 n))).

Lemma positions_S (P : nat -> Prop) `{forall i, Decision (P i)} n :
  positions P (S n) = positions P n + (if decide (P n) then 1 else 0).
Proof.
  unfold positions. rewrite seq_S, filter_app, length_app. cbn [Nat.add].
  rewrite filter_cons, filter_nil. destruct (decide (P n)); cbn [length]; lia.
Qed.

Lemma positions_range (P : nat -> Prop) `{forall i, Decision (P i)} n :
  0 <= positions P n <= Z.of_nat n.
Proof.
  induction n as [|n IH]; [unfold positions; cbn [seq]; rewrite filter_nil; cbn; lia|].
  rewrite positions_S. destruct (decide (P n)); lia.
Qed.

Lemma positions_ext (P Q : nat -> Prop) `{forall i, Decision (P i)}
    `{forall i, Decision (Q i)} n :
  (forall i, (i < n)%nat -> P i <-> Q i) -> positions P n = positions Q n.
Proof.
  intros Hext. induction n as [|n IH]; [reflexivity|].
  rewrite !positions_S, IH by (intros i Hi; apply Hext; lia).
  pose proof (Hext n ltac:(lia)).
  destruct (decide (P n)); destruct (decide (Q n)); tauto || lia.
Qed.

Lemma increment_lookup w a j i :
  (j < length a)%nat ->
  increment w a j !!! i = if decide (j = i) then wrap w (a !!! j + 1) else a !!! i.
Proof.
  intros Hj. unfold increment. destruct (decide (j = i)) as [<- | Hne].
  - now rewrite list_lookup_total_insert_eq.
  - now rewrite list_lookup_total_insert_ne.
Qed.

Lemma increment_length w a j : length (increment w a j) = length a.
Proof. unfold increment. apply length_insert. Qed.

Lemma total_insert (a : list Z) j x :
  (j < length a)%nat -> total (<[j := x]> a) = total a - a !!! j + x.
Proof.
  revert j. induction a as [|y a IH]; intros j Hj; [cbn in Hj; lia|].
  destruct j as [|j]; cbn [length] in Hj.
  - cbn. unfold total. lia.
  - change (<[S j := x]> (y :: a)) with (y :: <[j := x]> a).
    change (total (y :: <[j := x]> a)) with (y + total (<[j := x]> a)).
    change (total (y :: a)) with (y + total a).
    change ((y :: a) !!! S j) with (a !!! j).
    rewrite IH by lia. lia.
Qed.

Lemma total_replicate n : total (replicate n 0) = 0.
Proof. induction n as [|n IH]; [reflexivity|]. cbn [replicate]. unfold total in *. cbn. lia. Qed.

(** The counts after the first [n] bytes. *)
Lemma BuildStats_loop data size n :
  (n <= length data)%nat -> Z.of_nat n < 2 ^ 64 ->
  (forall i, (i < n)%nat -> 0 <= data !!! i < 256) ->
  (256 <= size)%nat ->
  let stats := fold_left (fun stats i => increment 64 stats (Z.to_nat (data !!! i)))
                         (seq 0 n) (replicate size 0) in
  length stats = size /\
  (forall b, (b < size)%nat ->
     stats !!! b = positions (fun i => data !!! i = Z.of_nat b) n) /\
  total stats = Z.of_nat n.
Proof.
  intros Hn Hfit Hbytes Hsize. induction n as [|n IH]; cbv zeta.
  - cbn [seq fold_left]. split; [apply length_replicate|]. split.
    + intros b Hb. now rewrite lookup_total_replicate_2 by lia.
    + apply total_replicate.
  - rewrite seq_S, fold_left_app. cbn [Nat.add fold_left].
    destruct IH as (Hlen & Hcount & Htotal); [lia | lia | intros; apply Hbytes; lia |].
    set (stats := fold_left _ (seq 0 n) _) in *.
    pose proof (Hbytes n ltac:(lia)) as Hbyte.
    assert (Z.to_nat (data !!! n) < length stats)%nat as Hin by lia.
    pose proof (positions_range (fun i => data !!! i = data !!! n) n) as Hr.
    assert (stats !!! Z.to_nat (data !!! n) =
            positions (fun i => data !!! i = data !!! n) n) as Hslot.
    { rewrite Hcount by lia. now rewrite Z2Nat.id by lia. }
    split; [now rewrite increment_length|]. split.
    + intros b Hb. rewrite increment_lookup, positions_S by assumption.
      destruct (decide (Z.to_nat (data !!! n) = b)) as [<- | Hne].
      * rewrite Hslot, Z2Nat.id by lia.
        destruct (decide (data !!! n = data !!! n)); [|congruence].
        apply wrap_small. lia.
      * rewrite Hcount by assumption.
        destruct (decide (data !!! n = Z.of_nat b)); [lia|]. lia.
    + unfold increment. rewrite total_insert, Htotal, Hslot by assumption.
      rewrite wrap_small by lia. lia.
Qed.

(** X16. [BuildStats] on a vector of 256 counters: each counter is the
    number of positions of its byte among the first [data_size] bytes, and
    the counters add up to [data_size]. *)
Theorem BuildStats_counts (data stats : list Z) (data_size : nat) :
  length stats = 256%nat -> (data_size <= length data)%nat ->
  Z.of_nat data_size < 2 ^ 64 ->
  (forall i, (i < data_size)%nat -> 0 <= data !!! i < 256) ->
  length (BuildStats data stats data_size) = 256%nat /\
  (forall b, (b < 256)%nat ->
     BuildStats data stats data_size !!! b
     = positions (fun i => data !!! i = Z.of_nat b) data_size) /\
  total (BuildStats data stats data_size) = Z.of_nat data_size.
Proof.
  intros Hstats Hsize Hfit Hbytes. unfold BuildStats. rewrite Hstats.
  apply (BuildStats_loop data 256 data_size); (assumption || lia).
Qed.

Lemma BuildStats_counts_witness :
  length (BuildStats [97; 98; 97] (replicate 256 7) 3) = 256%nat /\
  (forall b, (b < 256)%nat ->
     BuildStats [97; 98; 97] (replicate 256 7) 3 !!! b
     = positions (fun i => [97; 98; 97] !!! i = Z.of_nat b) 3) /\
  total (BuildStats [97; 98; 97] (replicate 256 7) 3) = Z.of_nat 3.
Proof.
  apply (BuildStats_counts [97; 98; 97] (replicate 256 7) 3).
  - reflexivity.
  - cbn. lia.
  - cbn. lia.
  - intros i Hi. destruct i as [|[|[|i]]]; cbn; lia.
Defined.

(** *** [ComputePairFrequencies] *)

(** The body of the loop of [ComputePairFrequencies]. *)
Definition pair_step (data : list Z)
  : list Z * list pair_freq * Z -> nat -> list Z * list pair_freq * Z :=
  fun '(freqs, pair_freqs, index) i =>
    let freqs := increment 64 freqs (Z.to_nat (data !!! i)) in
    let index := wrap16 (Z.shiftl index 8) in
    let index := Z.lor index (data !!! i) in
    (freqs, increment_second pair_freqs (Z.to_nat index), index).

Lemma ComputePairFrequencies_pair_step data freqs pair_freqs len :
  ComputePairFrequencies data freqs pair_freqs len =
  let '(freqs, pair_freqs, _) :=
    fold_left (pair_step data) (seq 1 (len - 1))
      (increment 64 freqs (Z.to_nat (data !!! 0%nat)), pair_freqs, data !!! 0%nat) in
  (freqs, pair_freqs).
Proof. reflexivity. Qed.

Lemma InitPairsWithValue_from_length i v n : length (InitPairsWithValue_from i v n) = n.
Proof. revert i. induction n as [|n IH]; intros i; cbn; [reflexivity | now rewrite IH]. Qed.

Lemma InitPairsWithValue_from_lookup i v n k :
  (k < n)%nat -> InitPairsWithValue_from i v n !!! k = (wrap16 (i + Z.of_nat k), v).
Proof.
  revert i k. induction n as [|n IH]; intros i k Hk; [lia|].
  cbn [InitPairsWithValue_from]. destruct k as [|k].
  - cbn. now rewrite Z.add_0_r.
  - change ((?x :: ?l) !!! S k) with (l !!! k). rewrite IH by lia.
    do 2 f_equal. lia.
Qed.

Lemma pairs_65536 : Z.of_nat pairs = 65536.
Proof. unfold pairs. rewrite Nat2Z.inj_mul. reflexivity. Qed.

Lemma increment_second_lookup (a : list pair_freq) j i :
  (j < length a)%nat ->
  increment_second a j !!! i
  = if decide (j = i) then ((a !!! j).1, wrap32 ((a !!! j).2 + 1)) else a !!! i.
Proof.
  intros Hj. unfold increment_second. destruct (decide (j = i)) as [<- | Hne].
  - now rewrite list_lookup_total_insert_eq.
  - now rewrite list_lookup_total_insert_ne.
Qed.

(** The pair of bytes at the positions [i] and [i + 1], as [index] holds
    it. *)
Definition pair_at (data : list Z) (i : nat) : Z := 256 * data !!! i + data !!! S i.

Record counted (data : list Z) (m : nat) (state : list Z * list pair_freq * Z) : Prop := {
  counted_freqs_length : length state.1.1 = 256%nat;
  counted_pairs_length : length state.1.2 = pairs;
  counted_freqs : forall b, (b < 256)%nat ->
    state.1.1 !!! b = positions (fun i => data !!! i = Z.of_nat b) (S m);
  counted_pairs : forall p, (p < pairs)%nat ->
    state.1.2 !!! p = (Z.of_nat p, positions (fun i => pair_at data i = Z.of_nat p) m);
  counted_index : 0 <= state.2 < 65536 /\ state.2 mod 256 = data !!! m
}.

Lemma pair_step_counted data m state :
  Z.of_nat (S (S m)) < 2 ^ 32 ->
  (forall i, (i <= S m)%nat -> 0 <= data !!! i < 256) ->
  counted data m state -> counted data (S m) (pair_step data state (S m)).
Proof.
  intros Hfit Hbytes. destruct state as [[freqs pair_freqs] index].
  intros [Hfl Hpl Hf Hp [Hir Him]]. cbn [fst snd] in *.
  pose proof (Hbytes (S m) ltac:(lia)) as Hnew.
  pose proof (Hbytes m ltac:(lia)) as Hold.
  cbn [pair_step].
  assert (Z.lor (wrap16 (Z.shiftl index 8)) (data !!! S m) = pair_at data m) as Hindex.
  { unfold wrap16, wrap, pair_at. rewrite Z.shiftl_mul_pow2 by lia.
    change (2 ^ 8) with 256. change (2 ^ 16) with (256 * 256).
    rewrite Z.mul_mod_distr_r, Him by lia.
    rewrite Z.lor_comm. change 256 with (2 ^ 8) at 1.
    rewrite lor_shift_add by (change (2 ^ 8) with 256; lia).
    change (2 ^ 8) with 256. lia. }
  rewrite Hindex.
  assert (0 <= pair_at data m < 65536) as Hpr by (unfold pair_at; lia).
  pose proof pairs_65536 as H65536.
  split; cbn [fst snd].
  - now rewrite increment_length.
  - unfold increment_second. now rewrite length_insert.
  - intros b Hb. rewrite increment_lookup, positions_S by lia.
    pose proof (positions_range (fun i => data !!! i = Z.of_nat b) (S m)) as Hr.
    destruct (decide (Z.to_nat (data !!! S m) = b)) as [<- | Hne].
    + rewrite Hf by lia. rewrite Z2Nat.id in * by lia.
      destruct (decide (data !!! S m = data !!! S m)); [|congruence].
      apply wrap_small. lia.
    + rewrite Hf by assumption.
      destruct (decide (data !!! S m = Z.of_nat b)); lia.
  - intros p Hp'. rewrite increment_second_lookup, positions_S by lia.
    pose proof (positions_range (fun i => pair_at data i = Z.of_nat p) m) as Hr.
    destruct (decide (Z.to_nat (pair_at data m) = p)) as [<- | Hne].
    + rewrite Hp by lia. cbn [fst snd]. rewrite Z2Nat.id in * by lia.
      destruct (decide (pair_at data m = pair_at data m)); [|congruence].
      f_equal. unfold wrap32. apply wrap_small. lia.
    + rewrite Hp by assumption.
      destruct (decide (pair_at data m = Z.of_nat p)); [lia|].
      f_equal. lia.
  - split; [exact Hpr|]. unfold pair_at.
    rewrite Z.add_comm, Z.mul_comm, Z.mod_add by lia. apply Z.mod_small. lia.
Qed.

Lemma fold_pair_step_counted data m state :
  Z.of_nat (S m) < 2 ^ 32 ->
  (forall i, (i <= m)%nat -> 0 <= data !!! i < 256) ->
  counted data 0 state ->
  counted data m (fold_left (pair_step data) (seq 1 m) state).
Proof.
  intros Hfit Hbytes Hstart. induction m as [|m IH]; [exact Hstart|].
  rewrite seq_S, fold_left_app. cbn [Nat.add fold_left].
  apply pair_step_counted; [lia | exact Hbytes |].
  apply IH; [lia | intros i Hi; apply Hbytes; lia].
Qed.

(** X17. [ComputePairFrequencies], on the arrays [CompressCommonPairs]
    gives it and a block of fewer than [2^32] bytes: the count of a byte is
    the number of its positions in the block, and slot [256 a + b] of
    [pair_freqs] holds the pair and the number of positions where [a] is
    followed by [b]. *)
Theorem ComputePairFrequencies_counts (data : list Z) (len : nat) :
  (0 < len)%nat -> Z.of_nat len < 2 ^ 32 ->
  (forall i, (i < len)%nat -> 0 <= data !!! i < 256) ->
  let '(freqs, pair_freqs) :=
    ComputePairFrequencies data (replicate 256 0) (InitPairsWithValue 0 pairs) len in
  (forall b, (b < 256)%nat ->
     freqs !!! b = positions (fun i => data !!! i = Z.of_nat b) len) /\
  (forall a b, (a < 256)%nat -> (b < 256)%nat ->
     pair_freqs !!! (256 * a + b)%nat
     = (Z.of_nat (256 * a + b),
        positions (fun i => data !!! i = Z.of_nat a /\ data !!! S i = Z.of_nat b)
                  (len - 1))).
Proof.
  intros Hlen Hfit Hbytes. rewrite ComputePairFrequencies_pair_step.
  destruct len as [|m]; [lia|]. replace (S m - 1)%nat with m by lia.
  pose proof (Hbytes 0%nat ltac:(lia)) as Hfirst.
  pose proof pairs_65536 as H65536.
  assert (counted data 0
            (increment 64 (replicate 256 0) (Z.to_nat (data !!! 0%nat)),
             InitPairsWithValue 0 pairs, data !!! 0%nat)) as Hstart.
  { split; cbn [fst snd].
    - now rewrite increment_length, length_replicate.
    - apply InitPairsWithValue_from_length.
    - intros b Hb. rewrite increment_lookup by (rewrite length_replicate; lia).
      rewrite !lookup_total_replicate_2 by lia. rewrite positions_S.
      change (positions _ 0) with 0.
      destruct (decide (Z.to_nat (data !!! 0%nat) = b)) as [<- | Hne].
      + rewrite Z2Nat.id by lia.
        destruct (decide (data !!! 0%nat = data !!! 0%nat)); [reflexivity | congruence].
      + destruct (decide (data !!! 0%nat = Z.of_nat b)); [lia | reflexivity].
    - intros p Hp. unfold InitPairsWithValue.
      rewrite InitPairsWithValue_from_lookup by assumption.
      change (positions _ 0) with 0. f_equal.
      unfold wrap16. apply wrap_small. lia.
    - split; [lia | apply Z.mod_small; lia]. }
  pose proof (fold_pair_step_counted data m _ Hfit
                ltac:(intros i Hi; apply Hbytes; lia) Hstart) as [_ _ Hf Hp _].
  destruct (fold_left _ _ _) as [[freqs pair_freqs] index]. cbn [fst snd] in *.
  split; [exact Hf|].
  intros a b Ha Hb. rewrite Hp by (unfold pairs; nia). f_equal.
  apply positions_ext. intros i Hi. unfold pair_at.
  pose proof (Hbytes i ltac:(lia)). pose proof (Hbytes (S i) ltac:(lia)).
  lia.
Qed.

Lemma ComputePairFrequencies_counts_witness :
  let result :=
    ComputePairFrequencies [97; 98; 97] (replicate 256 0) (InitPairsWithValue 0 pairs) 3 in
  (forall b, (b < 256)%nat ->
     result.1 !!! b = positions (fun i => [97; 98; 97] !!! i = Z.of_nat b) 3) /\
  (forall a b, (a < 256)%nat -> (b < 256)%nat ->
     result.2 !!! (256 * a + b)%nat
     = (Z.of_nat (256 * a + b),
        positions (fun i => [97; 98; 97] !!! i = Z.of_nat a /\
                            [97; 98; 97] !!! S i = Z.of_nat b)
                  (3 - 1))).
Proof.
  pose proof (ComputePairFrequencies_counts [97; 98; 97] 3) as H.
  cbv zeta. destruct (ComputePairFrequencies _ _ _ _) as [freqs pair_freqs].
  apply H.
  - lia.
  - cbn. lia.
  - intros i Hi. destruct i as [|[|[|i]]]; cbn; lia.
Defined.

End Statistics.

(** ** Runs of one byte ([preprocessors/preprocessor.cc], namespace [longruns]) *)

Module LongRuns.
Import Word Preprocessor CommonPairs Statistics.
Local Open Scope Z_scope.

#[local] Existing Instance outcome_bind.

Definition kMaxLenOfSeq : Z := Z.shiftl 1 15.

(** The loop [while(n > 1)] of [LogFloor]: [n] is an [unsigned], [log] a
    [byte]. An [unsigned] is below 2 after 31 shifts, so the 32 [steps] are
    not used up. *)
Fixpoint LogFloor_loop (steps : nat) (n log : Z) : outcome Z :=
  if 1 <? n then
    match steps with
    | O => OutOfSteps
    | S steps' => LogFloor_loop steps' (Z.shiftr n 1) (wrap8 (log + 1))
    end
  else Returns log.

Section Asserting.

Variable ndebug : bool.

Definition LogFloor (n : Z) : outcome Z :=
  assert ndebug (0 <? n);; LogFloor_loop 32 n 0.

(** [MostSignificantBit]: [n] is an [unsigned], so is [~(n >> 1)]. *)
Definition MostSignificantBit (n : Z) : outcome Z :=
  assert ndebug (n <? Z.shiftl 1 16);;
  let n := Z.lor n (Z.shiftr n 1) in
  let n := Z.lor n (Z.shiftr n 2) in
  let n := Z.lor n (Z.shiftr n 4) in
  let n := Z.lor n (Z.shiftr n 8) in
  Returns (Z.land n (wrap32 (Z.lnot (Z.shiftr n 1)))).

(** The loop [while(length)] of [UpdateFreqs] on the map of one symbol, a
    [std::map<unsigned, uint32>]: [operator[]] of a key that is not there
    starts from 0. Every iteration takes a bit from [length], of which an
    [unsigned] has 32. *)
Fixpoint UpdateFreqs_loop (steps : nat) (run_freq : gmap Z Z) (original length : Z)
  : outcome (gmap Z Z) :=
  if length =? 0 then Returns run_freq
  else
    match steps with
    | O => OutOfSteps
    | S steps' =>
        longest ← MostSignificantBit length;
        if longest =? 0 then Undefined (* [original/longest] divides by zero *)
        else
          let run_freq :=
            match run_freq !! longest with
            | Some count => <[longest := wrap32 (count + original / longest)]> run_freq
            | None => <[longest := original / longest]> run_freq
            end in
          UpdateFreqs_loop steps' run_freq original (wrap32 (length - longest))
    end.

(** [UpdateFreqs]: [run_freq] is the array of the 256 maps. *)
Definition UpdateFreqs (run_freq : list (gmap Z Z)) (symbol : Z) (length : Z)
  : outcome (list (gmap Z Z)) :=
  assert ndebug (length <=? kMaxLenOfSeq);;
  assert ndebug (1 <? length);;
  let length := wrap32 (length - length mod 2) in
  let original := length in
  updated ← UpdateFreqs_loop 33 (run_freq !!! Z.to_nat symbol) original length;
  Returns (<[Z.to_nat symbol := updated]> run_freq).

(** The body of the loop of [ComputeRunFrequencies]; the state is [prev],
    [run_length], [freq] and [run_freq]. *)
Definition run_step (from : list Z) (i : nat)
    (state : Z * Z * list Z * list (gmap Z Z))
  : outcome (Z * Z * list Z * list (gmap Z Z)) :=
  let '(prev, run_length, freq, run_freq) := state in
  '(prev, run_length, run_freq) ←
    (if (from !!! i =? prev) && (run_length <? kMaxLenOfSeq)
     then Returns (prev, wrap32 (run_length + 1), run_freq)
     else
       run_freq ← (if 1 <? run_length then UpdateFreqs run_freq prev run_length
                   else Returns run_freq);
       Returns (from !!! i, 1, run_freq));
  Returns (prev, run_length, increment 64 freq (Z.to_nat prev), run_freq).

(** [ComputeRunFrequencies]: the arrays [freq] and [run_freq] as it leaves
    them. *)
Definition ComputeRunFrequencies (from : list Z) (freq : list Z)
    (run_freq : list (gmap Z Z)) (length : nat)
  : outcome (list Z * list (gmap Z Z)) :=
  let prev := from !!! 0%nat in
  let freq := increment 64 freq (Z.to_nat prev) in
  '(_, _, freq, run_freq) ←
    foldM (fun i state => run_step from i state) (seq 1 (length - 1))
          (prev, 1, freq, run_freq);
  Returns (freq, run_freq).

End Asserting.

Example MostSignificantBit_12 : MostSignificantBit false 12 = Returns 8.
Proof. vm_compute. reflexivity. Qed.

Example UpdateFreqs_7 :
  UpdateFreqs false (replicate 256 ∅) 97 7
  = Returns (<[97%nat := {[ 4 := 1; 2 := 3 ]}]> (replicate 256 ∅)).
Proof. vm_compute. reflexivity. Qed.

(** *** [LogFloor] *)

Lemma LogFloor_loop_spec steps n log :
  0 < n < 2 ^ Z.of_nat steps -> 0 <= log -> log + Z.log2 n < 256 ->
  LogFloor_loop steps n log = Returns (log + Z.log2 n).
Proof.
  revert n log. induction steps as [|steps IH]; intros n log Hn Hlog Hfit.
  - cbn in Hn. assert (n = 1) as -> by lia. cbn. f_equal. lia.
  - cbn [LogFloor_loop]. destruct (Z.ltb_spec 1 n) as [Hgt | Hle].
    + assert (1 <= Z.log2 n) as Hone
        by (apply Z.log2_le_pow2; [lia | change (2 ^ 1) with 2; lia]).
      assert (Z.log2 (Z.shiftr n 1) = Z.log2 n - 1) as Hlog2
        by (rewrite Z.log2_shiftr by lia; lia).
      unfold wrap8. rewrite wrap_small by (change (2 ^ 8) with 256; lia).
      rewrite IH.
      * f_equal. lia.
      * rewrite Z.shiftr_div_pow2, Z.pow_1_r by lia.
        rewrite Nat2Z.inj_succ, Z.pow_succ_r in Hn by lia.
        split; [apply Z.div_str_pos; lia | apply Z.div_lt_upper_bound; lia].
      * lia.
      * lia.
    + assert (n = 1) as -> by lia. cbn. f_equal. lia.
Qed.

(** X18. [LogFloor] of an [unsigned] that is not zero is the floor of its
    binary logarithm, in either build. *)
Theorem LogFloor_log2 (ndebug : bool) (n : Z) :
  0 < n < 2 ^ 32 -> LogFloor ndebug n = Returns (Z.log2 n).
Proof.
  intros Hn. unfold LogFloor, assert.
  destruct (Z.ltb_spec 0 n); [|lia]. cbn [orb mbind outcome_bind].
  rewrite LogFloor_loop_spec; [reflexivity | exact Hn | lia |].
  assert (Z.log2 n < 32) by (apply Z.log2_lt_pow2; lia). lia.
Qed.

Lemma LogFloor_log2_witness : LogFloor false 32768 = Returns (Z.log2 32768).
Proof. apply (LogFloor_log2 false 32768). lia. Defined.

(** *** [MostSignificantBit] *)

(** What [MostSignificantBit] computes after its assertion. *)
Definition smear (n : Z) : Z :=
  let n := Z.lor n (Z.shiftr n 1) in
  let n := Z.lor n (Z.shiftr n 2) in
  let n := Z.lor n (Z.shiftr n 4) in
  let n := Z.lor n (Z.shiftr n 8) in
  Z.land n (wrap32 (Z.lnot (Z.shiftr n 1))).

(** A check of [count] values from [n] on. *)
Fixpoint smear_checked (count : nat) (n : Z) : bool :=
  match count with
  | O => true
  | S count' => (smear n =? 2 ^ Z.log2 n) && smear_checked count' (n + 1)
  end.

Lemma smear_checked_spec count : forall n x,
  smear_checked count n = true -> n <= x < n + Z.of_nat count ->
  smear x = 2 ^ Z.log2 x.
Proof.
  induction count as [|count IH]; intros n x Hcheck Hx; [lia|].
  cbn [smear_checked] in Hcheck. apply andb_true_iff in Hcheck as [Hn Hrest].
  destruct (Z.eq_dec x n) as [-> | Hne]; [now apply Z.eqb_eq|].
  apply (IH (n + 1)); [exact Hrest | lia].
Qed.

Lemma smear_below_65536 : smear_checked (Z.to_nat 65535) 1 = true.
Proof. vm_compute. reflexivity. Qed.

(** X19. [MostSignificantBit] of a number below [2^16] is the highest
    power of two in it, and 0 for 0. *)
Theorem MostSignificantBit_power (ndebug : bool) (n : Z) :
  0 <= n < 2 ^ 16 ->
  MostSignificantBit ndebug n = Returns (if n =? 0 then 0 else 2 ^ Z.log2 n).
Proof.
  intros Hn. unfold MostSignificantBit, assert.
  change (Z.shiftl 1 16) with (2 ^ 16).
  destruct (Z.ltb_spec n (2 ^ 16)); [|lia]. cbn [orb mbind outcome_bind].
  fold (smear n). f_equal.
  destruct (Z.eqb_spec n 0) as [-> | Hne]; [reflexivity|].
  apply (smear_checked_spec (Z.to_nat 65535) 1 n smear_below_65536).
  rewrite Z2Nat.id by lia. change (2 ^ 16) with 65536 in Hn. lia.
Qed.

Lemma MostSignificantBit_power_value ndebug n :
  0 < n < 2 ^ 16 -> MostSignificantBit ndebug n = Returns (2 ^ Z.log2 n).
Proof.
  intros Hn. unfold MostSignificantBit, assert.
  change (Z.shiftl 1 16) with (2 ^ 16).
  destruct (Z.ltb_spec n (2 ^ 16)); [|lia]. cbn [orb mbind outcome_bind].
  fold (smear n). f_equal.
  apply (smear_checked_spec (Z.to_nat 65535) 1 n smear_below_65536).
  rewrite Z2Nat.id by lia. change (2 ^ 16) with 65536 in Hn. lia.
Qed.

Lemma MostSignificantBit_power_witness :
  MostSignificantBit false 12 = Returns (if 12 =? 0 then 0 else 2 ^ Z.log2 12).
Proof. apply (MostSignificantBit_power false 12). lia. Defined.

(** *** [UpdateFreqs] *)

(** [k] is a power of two of the binary expansion of [length]. *)
Definition power_in (length k : Z) : Prop :=
  0 < k /\ k = 2 ^ Z.log2 k /\ Z.testbit length (Z.log2 k) = true.

#[local] Instance power_in_dec length k : Decision (power_in length k).
Proof. unfold power_in. apply _. Defined.

(** The count of the runs of [k] bytes after [UpdateFreqs] has met a run
    whose even length is [original]. *)
Definition added (run_freq : gmap Z Z) (original length k : Z) : option Z :=
  if decide (power_in length k)
  then Some (wrap32 (default 0 (run_freq !! k) + original / k))
  else run_freq !! k.

Lemma power_in_0 k : ~ power_in 0 k.
Proof. intros (_ & _ & H). rewrite Z.bits_0 in H. discriminate. Qed.

Lemma power_in_top length :
  0 < length -> power_in length (2 ^ Z.log2 length).
Proof.
  intros Hlen. pose proof (Z.log2_nonneg length).
  unfold power_in. rewrite Z.log2_pow2 by lia.
  split; [apply Z.pow_pos_nonneg; lia|]. split; [reflexivity|].
  apply Z.bit_log2. lia.
Qed.

(** Without its highest bit a number keeps its other bits. *)
Lemma power_in_rest length k :
  0 < length -> k <> 2 ^ Z.log2 length ->
  power_in (length - 2 ^ Z.log2 length) k <-> power_in length k.
Proof.
  intros Hlen Hne. pose proof (Z.log2_nonneg length) as HL.
  destruct (Z.log2_spec length Hlen) as [Hlow Hhigh].
  assert (length - 2 ^ Z.log2 length = length mod 2 ^ Z.log2 length) as ->.
  { rewrite Z.pow_succ_r in Hhigh by lia.
    apply (Z.mod_unique _ _ 1); lia. }
  unfold power_in. split; intros (Hk & Hpow & Hbit); (split; [exact Hk|]);
    (split; [exact Hpow|]); pose proof (Z.log2_nonneg k) as Hk0.
  - rewrite Z.testbit_mod_pow2 in Hbit by lia.
    apply andb_true_iff in Hbit as [_ Hbit]. exact Hbit.
  - rewrite Z.testbit_mod_pow2 by lia. rewrite Hbit, andb_true_r.
    apply Z.ltb_lt.
    destruct (Z.lt_trichotomy (Z.log2 k) (Z.log2 length)) as [Hlt | [Heq | Hgt]];
      [exact Hlt | congruence |].
    rewrite Z.bits_above_log2 in Hbit by lia. discriminate.
Qed.

Lemma UpdateFreqs_loop_spec ndebug steps : forall run_freq original length,
  0 <= original < 2 ^ 32 -> 0 <= length < 2 ^ 16 -> length < 2 ^ Z.of_nat steps ->
  exists updated,
    UpdateFreqs_loop ndebug steps run_freq original length = Returns updated /\
    forall k, updated !! k = added run_freq original length k.
Proof.
  induction steps as [|steps IH]; intros run_freq original length Ho Hlen Hsteps.
  - assert (length = 0) as -> by (cbn in Hsteps; lia).
    exists run_freq. split; [reflexivity|]. intros k. unfold added.
    destruct (decide (power_in 0 k)) as [H|]; [now apply power_in_0 in H | reflexivity].
  - cbn [UpdateFreqs_loop]. destruct (Z.eqb_spec length 0) as [-> | Hne].
    { exists run_freq. split; [reflexivity|]. intros k. unfold added.
      destruct (decide (power_in 0 k)) as [H|]; [now apply power_in_0 in H | reflexivity]. }
    rewrite MostSignificantBit_power_value by lia.
    cbn [mbind outcome_bind].
    destruct (Z.eqb_spec length 0); [lia|].
    set (longest := 2 ^ Z.log2 length).
    pose proof (Z.log2_nonneg length) as HL.
    destruct (Z.log2_spec length ltac:(lia)) as [Hlow Hhigh]. fold longest in Hlow.
    assert (0 < longest) as Hpos by (apply Z.pow_pos_nonneg; lia).
    destruct (Z.eqb_spec longest 0); [lia|].
    assert (wrap32 (length - longest) = length - longest) as ->
      by (apply wrap_small; lia).
    set (run_freq1 := match run_freq !! longest with
                      | Some count => <[longest := wrap32 (count + original / longest)]> run_freq
                      | None => <[longest := original / longest]> run_freq
                      end).
    assert (0 <= original / longest < 2 ^ 32) as Hq.
    { split; [apply Z.div_pos; lia | apply Z.div_lt_upper_bound; nia]. }
    assert (run_freq1 = <[longest := wrap32 (default 0 (run_freq !! longest)
                                             + original / longest)]> run_freq) as Hrf1.
    { subst run_freq1. destruct (run_freq !! longest); cbn [default]; [reflexivity|].
      rewrite Z.add_0_l. unfold wrap32. now rewrite wrap_small. }
    destruct (IH run_freq1 original (length - longest) Ho ltac:(lia)) as (updated & -> & Hup).
    { rewrite Nat2Z.inj_succ, Z.pow_succ_r in Hsteps by lia.
      rewrite Z.pow_succ_r in Hhigh by lia. fold longest in Hhigh.
      assert (Z.log2 length < Z.succ (Z.of_nat steps))
        by (apply Z.log2_lt_pow2; [lia | rewrite Z.pow_succ_r by lia; lia]).
      assert (longest <= 2 ^ Z.of_nat steps) by (apply Z.pow_le_mono_r; lia). lia. }
    exists updated. split; [reflexivity|]. intros k. rewrite Hup. unfold added.
    destruct (Z.eq_dec k longest) as [-> | Hk].
    + destruct (decide (power_in (length - longest) longest)) as [(_ & _ & Hbit) | _].
      { exfalso. subst longest. rewrite Z.log2_pow2 in Hbit by lia.
        assert (length - 2 ^ Z.log2 length < 2 ^ Z.log2 length)
          by (rewrite Z.pow_succ_r in Hhigh by lia; lia).
        destruct (Z.eq_dec (length - 2 ^ Z.log2 length) 0) as [E | E].
        - rewrite E, Z.bits_0 in Hbit. discriminate.
        - rewrite Z.bits_above_log2 in Hbit; [discriminate | lia |].
          apply Z.log2_lt_pow2; lia. }
      destruct (decide (power_in length longest)) as [_ | Hnot];
        [|exfalso; apply Hnot, power_in_top; lia].
      rewrite Hrf1, lookup_insert_eq. reflexivity.
    + pose proof (power_in_rest length k ltac:(lia) Hk) as Hiff. fold longest in Hiff.
      rewrite Hrf1, lookup_insert_ne by congruence.
      destruct (decide (power_in (length - longest) k));
        destruct (decide (power_in length k)); tauto || reflexivity.
Qed.

Lemma bind_assert_true ndebug {A : Type} (k : outcome A) :
  (assert ndebug true;; k) = k.
Proof. reflexivity. Qed.

Lemma UpdateFreqs_even ndebug run_freq symbol length :
  2 <= length <= 2 ^ 15 ->
  UpdateFreqs ndebug run_freq symbol length
  = (updated ← UpdateFreqs_loop ndebug 33 (run_freq !!! Z.to_nat symbol)
                 (length - length mod 2) (length - length mod 2);
     Returns (<[Z.to_nat symbol := updated]> run_freq)).
Proof.
  intros Hlen. unfold UpdateFreqs, kMaxLenOfSeq.
  change (Z.shiftl 1 15) with (2 ^ 15).
  destruct (Z.leb_spec length (2 ^ 15)); [|lia].
  destruct (Z.ltb_spec 1 length); [|lia].
  rewrite !bind_assert_true. cbv zeta.
  pose proof (Z.mod_pos_bound length 2 ltac:(lia)) as Hmod.
  unfold wrap32. rewrite wrap_small by lia. reflexivity.
Qed.
(** X20. [UpdateFreqs] of a run of [length] bytes, 2 to 32768, returns in
    either build and changes the map of [symbol] only: with [even] the length
    without its lowest bit, the count of every power of two [k] of the binary
    expansion of [even] grows by [even / k], the number of sequences of [k]
    bytes the run holds, and no other count changes. *)
Theorem UpdateFreqs_counts (ndebug : bool) (run_freq : list (gmap Z Z))
    (symbol length : Z) :
  2 <= length <= 2 ^ 15 ->
  let even := length - length mod 2 in
  exists updated,
    UpdateFreqs ndebug run_freq symbol length
    = Returns (<[Z.to_nat symbol := updated]> run_freq) /\
    forall k,
      (power_in even k ->
       updated !! k
       = Some (wrap32 (default 0 ((run_freq !!! Z.to_nat symbol) !! k) + even / k))) /\
      (~ power_in even k ->
       updated !! k = (run_freq !!! Z.to_nat symbol) !! k).
Proof.
  intros Hlen even. rewrite UpdateFreqs_even by exact Hlen. fold even.
  pose proof (Z.mod_pos_bound length 2 ltac:(lia)) as Hmod.
  destruct (UpdateFreqs_loop_spec ndebug 33 (run_freq !!! Z.to_nat symbol) even even)
    as (updated & -> & Hup); [subst even; lia.. |].
  exists updated. split; [reflexivity|]. intros k. rewrite Hup. unfold added.
  destruct (decide (power_in even k)); split; tauto || reflexivity.
Qed.

Lemma UpdateFreqs_counts_witness :
  exists updated,
    UpdateFreqs false (replicate 256 (∅ : gmap Z Z)) 97 7
    = Returns (<[Z.to_nat 97 := updated]> (replicate 256 (∅ : gmap Z Z))) /\
    forall k,
      (power_in 6 k ->
       updated !! k
       = Some (wrap32 (default 0 ((replicate 256 (∅ : gmap Z Z) !!! Z.to_nat 97) !! k)
                       + 6 / k))) /\
      (~ power_in 6 k ->
       updated !! k = (replicate 256 (∅ : gmap Z Z) !!! Z.to_nat 97) !! k).
Proof. apply (UpdateFreqs_counts false (replicate 256 ∅) 97 7). lia. Defined.

(** *** [ComputeRunFrequencies] *)

(** The keys of a map of runs are the powers of two from 2 to 32768, and
    their counts are positive and at most [bound]. *)
Definition run_keys (bound : Z) (m : gmap Z Z) : Prop :=
  forall k count, m !! k = Some count ->
    (exists e, 1 <= e <= 15 /\ k = 2 ^ e) /\ 1 <= count <= bound.

Lemma run_keys_mono bound bound' m :
  bound <= bound' -> run_keys bound m -> run_keys bound' m.
Proof.
  intros Hle Hkeys k count Hlookup.
  destruct (Hkeys k count Hlookup) as [He Hcount]. split; [exact He | lia].
Qed.

Lemma power_in_even length k :
  2 <= length <= 2 ^ 15 -> power_in (length - length mod 2) k ->
  (exists e, 1 <= e <= 15 /\ k = 2 ^ e) /\ k <= length - length mod 2.
Proof.
  intros Hlen (Hk & Hpow & Hbit).
  pose proof (Z.log2_nonneg k) as H0.
  pose proof (Z.mod_pos_bound length 2 ltac:(lia)) as Hmod.
  assert (Z.log2 k <= Z.log2 (length - length mod 2)) as Hlog.
  { destruct (Z.le_gt_cases (Z.log2 k) (Z.log2 (length - length mod 2)))
      as [|Hgt]; [assumption|].
    rewrite Z.bits_above_log2 in Hbit by lia. discriminate. }
  split.
  - exists (Z.log2 k). split; [|exact Hpow]. split.
    + destruct (Z.eq_dec (Z.log2 k) 0) as [E|]; [|lia].
      rewrite E, Z.bit0_odd in Hbit.
      rewrite (Z.div_mod length 2) in Hbit at 1 by lia.
      replace (2 * (length / 2) + length mod 2 - length mod 2)
        with (0 + 2 * (length / 2)) in Hbit by lia.
      rewrite Z.odd_add_mul_2 in Hbit. discriminate.
    + apply (Z.le_trans _ _ _ Hlog).
      change 15 with (Z.log2 (2 ^ 15)). apply Z.log2_le_mono. lia.
  - rewrite Hpow.
    apply (Z.le_trans _ (2 ^ Z.log2 (length - length mod 2))).
    + apply Z.pow_le_mono_r; lia.
    + apply Z.log2_spec. lia.
Qed.

Lemma foldM_snoc {A B : Type} (f : B -> A -> outcome A) (l : list B) (b : B) (a : A) :
  foldM f (l ++ [b]) a = (a' ← foldM f l a; f b a').
Proof. unfold foldM. now rewrite fold_left_app. Qed.

(** What holds of [prev], [run_length], [freq] and [run_freq] before the
    byte [i] is read: the runs that have ended hold [i - run_length]
    bytes. *)
Record scanned (from freq0 : list Z) (i : nat)
    (state : Z * Z * list Z * list (gmap Z Z)) : Prop := {
  scanned_prev : 0 <= state.1.1.1 < 256;
  scanned_run : 1 <= state.1.1.2 <= 2 ^ 15;
  scanned_begun : state.1.1.2 <= Z.of_nat i;
  scanned_freq : length state.1.2 = length freq0;
  scanned_counts : forall b, (b < length freq0)%nat ->
    state.1.2 !!! b
    = wrap 64 (freq0 !!! b + positions (fun j => from !!! j = Z.of_nat b) i);
  scanned_maps : length state.2 = 256%nat;
  scanned_keys : Forall (run_keys (Z.of_nat i - state.1.1.2)) state.2
}.

Lemma increment_counts (from freq0 freq : list Z) (i : nat) :
  (256 <= length freq0)%nat -> length freq = length freq0 ->
  0 <= from !!! i < 256 ->
  (forall b, (b < length freq0)%nat ->
     freq !!! b = wrap 64 (freq0 !!! b + positions (fun j => from !!! j = Z.of_nat b) i)) ->
  forall b, (b < length freq0)%nat ->
    increment 64 freq (Z.to_nat (from !!! i)) !!! b
    = wrap 64 (freq0 !!! b + positions (fun j => from !!! j = Z.of_nat b) (S i)).
Proof.
  intros Hsize Hlen Hbyte Hcounts b Hb.
  rewrite increment_lookup by lia. rewrite positions_S.
  destruct (decide (Z.to_nat (from !!! i) = b)) as [E | E];
    destruct (decide (from !!! i = Z.of_nat b)) as [E' | E']; try lia.
  - rewrite E, Hcounts by lia. unfold wrap.
    rewrite Zplus_mod_idemp_l. f_equal. lia.
  - rewrite Hcounts, Z.add_0_r by lia. reflexivity.
Qed.

Lemma UpdateFreqs_keys ndebug (run_freq : list (gmap Z Z)) symbol length bound :
  2 <= length <= 2 ^ 15 -> 0 <= symbol < 256 ->
  0 <= bound -> bound + length < 2 ^ 32 ->
  List.length run_freq = 256%nat -> Forall (run_keys bound) run_freq ->
  exists run_freq',
    UpdateFreqs ndebug run_freq symbol length = Returns run_freq' /\
    List.length run_freq' = 256%nat /\ Forall (run_keys (bound + length)) run_freq'.
Proof.
  intros Hlen Hsym Hbound Hfit Hsize Hkeys.
  pose proof (Z.mod_pos_bound length 2 ltac:(lia)) as Hmod.
  destruct (UpdateFreqs_loop_spec ndebug 33 (run_freq !!! Z.to_nat symbol)
              (length - length mod 2) (length - length mod 2))
    as (updated & Hupd & Hup); [lia.. |].
  assert (run_keys bound (run_freq !!! Z.to_nat symbol)) as Hold.
  { apply (Forall_lookup_1 _ _ (Z.to_nat symbol) _ Hkeys).
    apply list_lookup_lookup_total_lt. lia. }
  exists (<[Z.to_nat symbol := updated]> run_freq). split; [|split].
  - rewrite UpdateFreqs_even, Hupd by exact Hlen. reflexivity.
  - now rewrite length_insert.
  - apply Forall_insert.
    { apply (Forall_impl _ _ _ Hkeys). intros m. apply run_keys_mono. lia. }
    intros k count. rewrite Hup. unfold added.
    destruct (decide (power_in (length - length mod 2) k)) as [Hin | _].
    + destruct (power_in_even length k Hlen Hin) as [He Hle].
      intros [= <-]. split; [exact He|].
      destruct Hin as (Hk & _ & _).
      assert (1 <= (length - length mod 2) / k <= length) as Hq.
      { split.
        - apply Z.div_le_lower_bound; lia.
        - apply (Z.le_trans _ (length - length mod 2)); [|lia].
          apply Z.div_le_upper_bound; nia. }
      assert (0 <= default 0 ((run_freq !!! Z.to_nat symbol) !! k) <= bound) as Hd.
      { destruct ((run_freq !!! Z.to_nat symbol) !! k) as [count|] eqn:E;
          cbn [default]; [|lia].
        destruct (Hold k count E) as [_ Hc]. unfold id. lia. }
      unfold wrap32. rewrite wrap_small by lia. lia.
    + intros Hlookup.
      apply (run_keys_mono bound (bound + length) _ ltac:(lia) Hold k count Hlookup).
Qed.

Lemma run_step_scanned ndebug (from freq0 : list Z) i state :
  (256 <= length freq0)%nat -> 0 <= from !!! i < 256 ->
  Z.of_nat i < 2 ^ 32 ->
  scanned from freq0 i state ->
  exists state', run_step ndebug from i state = Returns state' /\
                 scanned from freq0 (S i) state'.
Proof.
  intros Hsize Hbyte Hfit [Hprev Hrun Hbegun Hfreq Hcounts Hmaps Hkeys].
  destruct state as [[[prev run_length] freq] run_freq]. cbn [fst snd] in *.
  unfold run_step, kMaxLenOfSeq. change (Z.shiftl 1 15) with (2 ^ 15).
  destruct (Z.eqb_spec (from !!! i) prev) as [Heq | Hne]; cbn [andb].
  - destruct (Z.ltb_spec run_length (2 ^ 15)) as [Hlt | Hge].
    + cbn [mbind outcome_bind].
      assert (wrap32 (run_length + 1) = run_length + 1) as ->
        by (apply wrap_small; lia).
      eexists. split; [reflexivity|].
      constructor; cbn [fst snd]; try assumption; try lia.
      * now rewrite increment_length.
      * rewrite <- Heq. now apply increment_counts.
      * replace (Z.of_nat (S i) - (run_length + 1)) with (Z.of_nat i - run_length)
          by lia.
        exact Hkeys.
    + destruct (Z.ltb_spec 1 run_length); [|lia].
      destruct (UpdateFreqs_keys ndebug run_freq prev run_length
                  (Z.of_nat i - run_length))
        as (run_freq' & -> & Hmaps' & Hkeys'); try assumption; try lia.
      cbn [mbind outcome_bind].
      eexists. split; [reflexivity|].
      constructor; cbn [fst snd]; try assumption; try lia.
      * now rewrite increment_length.
      * now apply increment_counts.
      * replace (Z.of_nat (S i) - 1) with (Z.of_nat i - run_length + run_length)
          by lia.
        exact Hkeys'.
  - destruct (Z.ltb_spec 1 run_length) as [Hlong | Hshort].
    + destruct (UpdateFreqs_keys ndebug run_freq prev run_length
                  (Z.of_nat i - run_length))
        as (run_freq' & -> & Hmaps' & Hkeys'); try assumption; try lia.
      cbn [mbind outcome_bind].
      eexists. split; [reflexivity|].
      constructor; cbn [fst snd]; try assumption; try lia.
      * now rewrite increment_length.
      * now apply increment_counts.
      * replace (Z.of_nat (S i) - 1) with (Z.of_nat i - run_length + run_length)
          by lia.
        exact Hkeys'.
    + cbn [mbind outcome_bind].
      eexists. split; [reflexivity|].
      constructor; cbn [fst snd]; try assumption; try lia.
      * now rewrite increment_length.
      * now apply increment_counts.
      * apply (Forall_impl _ _ _ Hkeys). intros m. apply run_keys_mono. lia.
Qed.

Lemma foldM_run_step_scanned ndebug (from freq0 : list Z) state n :
  (256 <= length freq0)%nat ->
  (forall i, (i < S n)%nat -> 0 <= from !!! i < 256) ->
  Z.of_nat (S n) < 2 ^ 32 ->
  scanned from freq0 1 state ->
  exists state', foldM (fun i state => run_step ndebug from i state) (seq 1 n) state
                 = Returns state' /\
                 scanned from freq0 (S n) state'.
Proof.
  intros Hsize Hbytes Hfit Hstate. induction n as [|n IH].
  - exists state. split; [reflexivity | exact Hstate].
  - destruct IH as (state1 & Hfold & Hscanned); [intros; apply Hbytes; lia | lia |].
    rewrite seq_S, foldM_snoc, Hfold. cbn [mbind outcome_bind Nat.add].
    apply run_step_scanned; [exact Hsize | apply Hbytes; lia | lia | exact Hscanned].
Qed.

(** X21. On a block of [length] bytes, from 1 to 2^32 - 1 of them,
    [ComputeRunFrequencies] returns in either build: no assertion of
    [UpdateFreqs] or [MostSignificantBit] fails. It adds to [freq] the number
    of times every byte occurs, and every entry it leaves in the maps of
    [run_freq], empty before, has a power of two from 2 to 32768 as its
    length and a positive count, as the assertions of [CompressLongRuns]
    on the entries ask. *)
Theorem ComputeRunFrequencies_counts (ndebug : bool) (from freq : list Z)
    (length : nat) :
  (0 < length)%nat -> Z.of_nat length < 2 ^ 32 ->
  (forall i, (i < length)%nat -> 0 <= from !!! i < 256) ->
  List.length freq = 256%nat ->
  (forall b, (b < 256)%nat -> 0 <= freq !!! b < 2 ^ 64) ->
  exists freq' run_freq,
    ComputeRunFrequencies ndebug from freq (replicate 256 (∅ : gmap Z Z)) length
    = Returns (freq', run_freq) /\
    List.length freq' = 256%nat /\
    (forall b, (b < 256)%nat ->
       freq' !!! b
       = wrap 64 (freq !!! b + positions (fun i => from !!! i = Z.of_nat b) length)) /\
    List.length run_freq = 256%nat /\
    (forall symbol k count, (symbol < 256)%nat ->
       (run_freq !!! symbol) !! k = Some count ->
       (exists e, 1 <= e <= 15 /\ k = 2 ^ e) /\ 0 < count).
Proof.
  intros Hlen Hfit Hbytes Hsize Hfreq0. unfold ComputeRunFrequencies.
  destruct length as [|n]; [lia|].
  replace (S n - 1)%nat with n by lia.
  destruct (foldM_run_step_scanned ndebug from freq
              (from !!! 0%nat, 1, increment 64 freq (Z.to_nat (from !!! 0%nat)),
               replicate 256 ∅) n) as (state' & -> & Hscanned).
  - lia.
  - exact Hbytes.
  - exact Hfit.
  - constructor; cbn [fst snd].
    + apply Hbytes. lia.
    + lia.
    + lia.
    + now rewrite increment_length.
    + intros b Hb. apply increment_counts; try lia.
      * apply Hbytes. lia.
      * intros b' Hb'. unfold positions. cbn [seq]. rewrite filter_nil.
        cbn [List.length]. rewrite Z.add_0_r. symmetry. apply wrap_small.
        apply Hfreq0. lia.
    + now rewrite length_replicate.
    + apply Forall_replicate. intros k count. rewrite lookup_empty. discriminate.
  - destruct state' as [[[prev run_length] freq'] run_freq].
    destruct Hscanned as [_ _ _ Hfreq Hcounts Hmaps Hkeys]. cbn [fst snd] in *.
    cbn [mbind outcome_bind].
    exists freq', run_freq. split; [reflexivity|]. split; [lia|].
    split; [intros b Hb; apply Hcounts; lia|]. split; [exact Hmaps|].
    intros symbol k count Hsymbol Hlookup.
    assert (run_keys (Z.of_nat (S n) - run_length) (run_freq !!! symbol)) as Hrun.
    { apply (Forall_lookup_1 _ _ symbol _ Hkeys).
      apply list_lookup_lookup_total_lt. lia. }
    destruct (Hrun k count Hlookup) as [He Hcount]. split; [exact He | lia].
Qed.

Lemma ComputeRunFrequencies_counts_witness :
  exists freq' run_freq,
    ComputeRunFrequencies false [97; 97; 97; 98] (replicate 256 0)
                          (replicate 256 (∅ : gmap Z Z)) 4
    = Returns (freq', run_freq) /\
    List.length freq' = 256%nat /\
    (forall b, (b < 256)%nat ->
       freq' !!! b
       = wrap 64 (replicate 256 0 !!! b
                  + positions (fun i => [97; 97; 97; 98] !!! i = Z.of_nat b) 4)) /\
    List.length run_freq = 256%nat /\
    (forall symbol k count, (symbol < 256)%nat ->
       (run_freq !!! symbol) !! k = Some count ->
       (exists e, 1 <= e <= 15 /\ k = 2 ^ e) /\ 0 < count).
Proof.
  apply (ComputeRunFrequencies_counts false [97; 97; 97; 98] (replicate 256 0) 4).
  - lia.
  - reflexivity.
  - intros [|[|[|[|i]]]] Hi; cbn; lia.
  - reflexivity.
  - intros b Hb. rewrite lookup_total_replicate_2 by exact Hb. lia.
Defined.

(** The number of bytes of the run that the first [n] bytes of a block end
    with, as the scan cuts the runs: a run goes on while the byte repeats and
    the run has fewer than [kMaxLenOfSeq] bytes. *)
Fixpoint last_run (from : list Z) (n : nat) : nat :=
  match n with
  | O => O
  | S m =>
      if (0 <? m)%nat && (from !!! m =? from !!! pred m)
         && (Z.of_nat (last_run from m) <? kMaxLenOfSeq)
      then S (last_run from m)
      else 1%nat
  end.

Example last_run_abbb : last_run [97; 98; 98; 98] 4 = 3%nat.
Proof. reflexivity. Qed.

Lemma UpdateFreqs_returns ndebug (run_freq : list (gmap Z Z)) symbol length :
  2 <= length <= 2 ^ 15 ->
  exists run_freq', UpdateFreqs ndebug run_freq symbol length = Returns run_freq'.
Proof.
  intros Hlen. pose proof (Z.mod_pos_bound length 2 ltac:(lia)) as Hmod.
  destruct (UpdateFreqs_loop_spec ndebug 33 (run_freq !!! Z.to_nat symbol)
              (length - length mod 2) (length - length mod 2))
    as (updated & Hupd & _); [lia.. |].
  eexists. rewrite UpdateFreqs_even, Hupd by exact Hlen. reflexivity.
Qed.

(** The scan after the byte [m]: [prev] is that byte, [run_length] the
    length of the run it is in, and the maps are those the scan had when the
    run began. *)
Lemma foldM_run_step_last_run ndebug (from freq : list Z)
    (run_freq : list (gmap Z Z)) (m : nat) :
  let scan n :=
    foldM (fun i state => run_step ndebug from i state) (seq 1 n)
          (from !!! 0%nat, 1, freq, run_freq) in
  (1 <= last_run from (S m) <= S m)%nat /\
  Z.of_nat (last_run from (S m)) <= 2 ^ 15 /\
  exists freq' freq'' prev run_length maps,
    scan m = Returns (from !!! m, Z.of_nat (last_run from (S m)), freq', maps) /\
    scan (S m - last_run from (S m))%nat = Returns (prev, run_length, freq'', maps).
Proof.
  intros scan. induction m as [|m IH].
  - cbn [last_run Nat.ltb Nat.leb andb]. split; [lia|]. split; [lia|].
    eexists _, _, _, _, _. split; reflexivity.
  - destruct IH as (Hrun & Hfit & freq' & freq'' & prev & run_length & maps & Hscan & Hbegin).
    assert (scan (S m)
            = (state ← scan m; run_step ndebug from (S m) state)) as Hstep.
    { unfold scan. rewrite seq_S, foldM_snoc. reflexivity. }
    rewrite Hscan in Hstep. cbn [mbind outcome_bind] in Hstep.
    unfold run_step, kMaxLenOfSeq in Hstep.
    change (Z.shiftl 1 15) with (2 ^ 15) in Hstep.
    change (last_run from (S (S m)))
      with (if (0 <? S m)%nat && (from !!! S m =? from !!! pred (S m))
               && (Z.of_nat (last_run from (S m)) <? kMaxLenOfSeq)
            then S (last_run from (S m)) else 1%nat).
    unfold kMaxLenOfSeq. change (Z.shiftl 1 15) with (2 ^ 15).
    change (pred (S m)) with m. change (0 <? S m)%nat with true. cbn [andb].
    destruct ((from !!! S m =? from !!! m)
              && (Z.of_nat (last_run from (S m)) <? 2 ^ 15)) eqn:Hgoes.
    + apply andb_true_iff in Hgoes as [Heq Hlt].
      apply Z.eqb_eq in Heq. apply Z.ltb_lt in Hlt.
      split; [lia|]. split; [lia|].
      cbn [mbind outcome_bind] in Hstep.
      assert (wrap32 (Z.of_nat (last_run from (S m)) + 1)
              = Z.of_nat (S (last_run from (S m)))) as Hwrap
        by (rewrite Nat2Z.inj_succ; apply wrap_small; lia).
      rewrite Hwrap, <- Heq in Hstep.
      eexists _, freq'', prev, run_length, maps. split; [exact Hstep|].
      replace (S (S m) - S (last_run from (S m)))%nat
        with (S m - last_run from (S m))%nat by lia.
      exact Hbegin.
    + split; [lia|]. split; [lia|].
      replace (S (S m) - 1)%nat with (S m) by lia.
      destruct (Z.ltb_spec 1 (Z.of_nat (last_run from (S m)))) as [Hlong | Hshort].
      * destruct (UpdateFreqs_returns ndebug maps (from !!! m)
                    (Z.of_nat (last_run from (S m)))) as (maps' & Hupdate); [lia|].
        rewrite Hupdate in Hstep. cbn [mbind outcome_bind] in Hstep.
        eexists _, _, _, _, maps'. split; exact Hstep.
      * cbn [mbind outcome_bind] in Hstep.
        eexists _, _, _, _, maps. split; exact Hstep.
Qed.

(** X22. The run a block ends with is not recorded. For every block,
    [ComputeRunFrequencies] returns, in either build, with the maps it
    returns for the block cut after the first byte of its last run, whatever
    the length of that run; when the block is one run, the maps of
    [run_freq] are as they were. *)
Theorem ComputeRunFrequencies_last_run (ndebug : bool) (from freq : list Z)
    (run_freq : list (gmap Z Z)) (length : nat) :
  (0 < length)%nat ->
  exists freq' freq'' maps,
    ComputeRunFrequencies ndebug from freq run_freq length = Returns (freq', maps) /\
    ComputeRunFrequencies ndebug from freq run_freq (S (length - last_run from length))
    = Returns (freq'', maps) /\
    (last_run from length = length -> maps = run_freq).
Proof.
  intros Hlen. destruct length as [|m]; [lia|].
  destruct (foldM_run_step_last_run ndebug from
              (increment 64 freq (Z.to_nat (from !!! 0%nat))) run_freq m)
    as (Hrun & _ & freq' & freq'' & prev & run_length & maps & Hscan & Hbegin).
  exists freq', freq'', maps. unfold ComputeRunFrequencies.
  replace (S m - 1)%nat with m by lia.
  replace (S (S m - last_run from (S m)) - 1)%nat
    with (S m - last_run from (S m))%nat by lia.
  rewrite Hscan, Hbegin. cbn [mbind outcome_bind].
  split; [reflexivity|]. split; [reflexivity|].
  intros Hone. rewrite Hone, Nat.sub_diag in Hbegin.
  cbn in Hbegin. congruence.
Qed.

Lemma ComputeRunFrequencies_last_run_witness :
  exists freq' freq'' maps,
    ComputeRunFrequencies false [97; 98; 98; 98] (replicate 256 0)
                          (replicate 256 (∅ : gmap Z Z)) 4
    = Returns (freq', maps) /\
    ComputeRunFrequencies false [97; 98; 98; 98] (replicate 256 0)
                          (replicate 256 (∅ : gmap Z Z))
                          (S (4 - last_run [97; 98; 98; 98] 4))
    = Returns (freq'', maps) /\
    (last_run [97; 98; 98; 98] 4 = 4%nat -> maps = replicate 256 ∅).
Proof.
  apply (ComputeRunFrequencies_last_run false [97; 98; 98; 98] (replicate 256 0)
           (replicate 256 ∅) 4).
  lia.
Defined.

End LongRuns.
